(** * pricedb-io-npm: the two HTTP clients, embedded and verified

    The development follows [packages/pricedb-client/src/client.ts] and
    [packages/spells-client/src/client.ts].

    - Part 1 models the values of the host language the clients compute
      with: strings (sequences of UTF-16 code units), numbers, completions
      of synchronous code, and the built-ins the clients call
      ([encodeURIComponent], [URLSearchParams], [JSON.stringify],
      [Number.prototype.toString]), and the path states of the URL parser
      that [fetch] runs on the URL it is given.
    - Part 2 models the run-time the transport core talks to: timers,
      abort controllers, [fetch] and the body reader, over a virtual clock.
    - Part 3 embeds the two classes, method by method.
    - Part 4 defines the observations the statements are written with.
    - Part 5 states and proves the properties, and ends with the model
      evaluated on concrete inputs.
    - Part 6 proves further properties of the same model: what a call
      sends, how long it takes and what ends it, what a run of calls leaves
      behind, and how text and numbers are written into a URL. *)

From Stdlib Require Import ZArith List String Ascii Lia Bool.
From Stdlib Require DecimalPos.
From stdpp Require Import base gmap list.

Local Open Scope Z_scope.
Local Set Warnings "-register-all".

(* ===================================================================== *)
(** * Part 1. Values of the host language                                 *)
(* ===================================================================== *)

(** ** Strings

    A string is a finite sequence of 16-bit code units; a code unit is a [Z]
    in the range [0, 65535]. *)

Abbreviation jsstring := (list Z) (only parsing).

Definition code_unit (c : Z) : Prop := 0 <= c < 65536.
Definition well_formed_units (s : jsstring) : Prop := Forall code_unit s.

(** A string literal of the source: every character is one code unit. *)
Definition lit (s : string) : jsstring :=
  map (fun a => Z.of_N (N_of_ascii a)) (list_ascii_of_string s).
Arguments lit s%_string.

(** ToBoolean on a string: only the empty string is falsy. *)
Definition truthy_string (s : jsstring) : bool :=
  match s with [] => false | _ => true end.

(** ** Completions of synchronous code *)

Inductive ErrorName := Error | URIError | TypeError | SyntaxError | AbortError.

Record Exception := mkException { name : ErrorName; message : jsstring }.

Inductive Completion (A : Type) :=
| Normal (a : A)
| Throw (e : Exception).
Arguments Normal {A} a.
Arguments Throw {A} e.

Definition cbind {A B} (c : Completion A) (k : A -> Completion B) : Completion B :=
  match c with
  | Normal a => k a
  | Throw e => Throw e
  end.

Notation "x <~ c ;; k" := (cbind c (fun x => k))
  (at level 100, c at next level, right associativity).

(** ** Numbers

    The clients only pass numbers through truthiness tests and decimal
    printing.  [Int z] stands for the integer-valued number [z]; the
    remaining constructors are the special values.  The host holds every
    integer of magnitude below 2^53 exactly and prints it with all its
    digits, as [Number_toString] does; a statement in which the digits of
    a number matter is made for these integers.  (An integer from 2^53 on
    is held only if it is a double, and printed with the shortest digits
    that read back as that double.)  Numbers with a fractional part are
    outside the model. *)

Inductive number :=
| Int (z : Z)
| NegZero
| NaN
| Infinity (negative : bool).

(** ToBoolean on a number: +0, -0 and NaN are falsy. *)
Definition truthy_number (n : number) : bool :=
  match n with
  | Int z => negb (z =? 0)
  | NegZero | NaN => false
  | Infinity _ => true
  end.

Fixpoint digits (d : Decimal.uint) : jsstring :=
  match d with
  | Decimal.Nil => []
  | Decimal.D0 d => 48 :: digits d
  | Decimal.D1 d => 49 :: digits d
  | Decimal.D2 d => 50 :: digits d
  | Decimal.D3 d => 51 :: digits d
  | Decimal.D4 d => 52 :: digits d
  | Decimal.D5 d => 53 :: digits d
  | Decimal.D6 d => 54 :: digits d
  | Decimal.D7 d => 55 :: digits d
  | Decimal.D8 d => 56 :: digits d
  | Decimal.D9 d => 57 :: digits d
  end.

(** [Number.prototype.toString()] with the default radix, also the
    conversion a template literal applies to a number. *)
Definition Number_toString (n : number) : jsstring :=
  match n with
  | Int 0 => lit "0"
  | Int (Zpos p) => digits (Pos.to_uint p)
  | Int (Zneg p) => lit "-" ++ digits (Pos.to_uint p)
  | NegZero => lit "0"
  | NaN => lit "NaN"
  | Infinity false => lit "Infinity"
  | Infinity true => lit "-Infinity"
  end.

(** ** Code points and UTF-8 *)

Definition is_leading_surrogate (c : Z) : bool := (0xD800 <=? c) && (c <=? 0xDBFF).
Definition is_trailing_surrogate (c : Z) : bool := (0xDC00 <=? c) && (c <=? 0xDFFF).

Definition UTF16SurrogatePairToCodePoint (lead trail : Z) : Z :=
  (lead - 0xD800) * 0x400 + (trail - 0xDC00) + 0x10000.

(** The octets of the UTF-8 encoding of a code point. *)
Definition utf8 (cp : Z) : list Z :=
  if cp <? 0x80 then [cp]
  else if cp <? 0x800 then [0xC0 + cp / 64; 0x80 + cp mod 64]
  else if cp <? 0x10000 then
    [0xE0 + cp / 4096; 0x80 + (cp / 64) mod 64; 0x80 + cp mod 64]
  else
    [0xF0 + cp / 262144; 0x80 + (cp / 4096) mod 64;
     0x80 + (cp / 64) mod 64; 0x80 + cp mod 64].

Definition hex_digit (n : Z) : Z := if n <? 10 then 48 + n else 55 + n.

(** One octet as "%XX", upper-case hexadecimal. *)
Definition percent_octet (b : Z) : jsstring :=
  [37; hex_digit (b / 16); hex_digit (b mod 16)].

Definition percent_octets (bs : list Z) : jsstring := flat_map percent_octet bs.

Definition is_ascii_alpha (c : Z) : bool :=
  (65 <=? c) && (c <=? 90) || (97 <=? c) && (c <=? 122).
Definition is_ascii_digit (c : Z) : bool := (48 <=? c) && (c <=? 57).
Definition is_ascii_alphanumeric (c : Z) : bool := is_ascii_alpha c || is_ascii_digit c.

Definition one_of (set : jsstring) (c : Z) : bool := existsb (Z.eqb c) set.

(** ** encodeURIComponent

    The unescaped set of [encodeURIComponent]: the ASCII word characters
    and the marks - . ! ~ * ' ( ). *)
Definition uriUnescaped (c : Z) : bool :=
  is_ascii_alphanumeric c || one_of (lit "_-.!~*'()") c.

(** The abstract operation Encode of the language standard: unescaped code
    units are copied, every other code point is written as the escaped
    octets of its UTF-8 encoding, and an unpaired surrogate is a URIError
    (the standard fixes the error's name; the message is V8's). *)
Definition URI_malformed : Exception := mkException URIError (lit "URI malformed").

Fixpoint Encode (unescapedSet : Z -> bool) (s : jsstring) : Completion jsstring :=
  match s with
  | [] => Normal []
  | C :: rest =>
    if unescapedSet C then
      R <~ Encode unescapedSet rest ;; Normal (C :: R)
    else if is_leading_surrogate C then
      match rest with
      | second :: rest' =>
        if is_trailing_surrogate second then
          R <~ Encode unescapedSet rest' ;;
          Normal (percent_octets (utf8 (UTF16SurrogatePairToCodePoint C second)) ++ R)
        else Throw URI_malformed
      | [] => Throw URI_malformed
      end
    else if is_trailing_surrogate C then Throw URI_malformed
    else
      R <~ Encode unescapedSet rest ;; Normal (percent_octets (utf8 C) ++ R)
  end.

Definition encodeURIComponent (s : jsstring) : Completion jsstring :=
  Encode uriUnescaped s.

(** ** URLSearchParams

    Names and values are converted to scalar value strings when they are
    appended (an unpaired surrogate becomes U+FFFD); [toString] is the
    application/x-www-form-urlencoded serializer. *)

Fixpoint to_scalar_values (s : jsstring) : list Z :=
  match s with
  | [] => []
  | c :: rest =>
    if is_leading_surrogate c then
      match rest with
      | d :: rest' =>
        if is_trailing_surrogate d
        then UTF16SurrogatePairToCodePoint c d :: to_scalar_values rest'
        else 0xFFFD :: to_scalar_values rest
      | [] => [0xFFFD]
      end
    else if is_trailing_surrogate c then 0xFFFD :: to_scalar_values rest
    else c :: to_scalar_values rest
  end.

Definition urlencoded_octet (b : Z) : jsstring :=
  if b =? 0x20 then [43]
  else if is_ascii_alphanumeric b || one_of (lit "*-._") b then [b]
  else percent_octet b.

Definition urlencoded (scalars : list Z) : jsstring :=
  flat_map urlencoded_octet (flat_map utf8 scalars).

Abbreviation URLSearchParams := (list (list Z * list Z)) (only parsing).

Definition URLSearchParams_new : URLSearchParams := [].

Definition URLSearchParams_append (params : URLSearchParams) (name value : jsstring)
  : URLSearchParams :=
  params ++ [(to_scalar_values name, to_scalar_values value)].

(** [new URLSearchParams({k1: v1, ...})]: the entries in property order. *)
Definition URLSearchParams_of_record (entries : list (jsstring * jsstring))
  : URLSearchParams :=
  map (fun kv => (to_scalar_values (fst kv), to_scalar_values (snd kv))) entries.

Fixpoint URLSearchParams_toString (params : URLSearchParams) : jsstring :=
  match params with
  | [] => []
  | (n, v) :: rest =>
    let tuple := urlencoded n ++ lit "=" ++ urlencoded v in
    match rest with
    | [] => tuple
    | _ => tuple ++ lit "&" ++ URLSearchParams_toString rest
    end
  end.

(** ** The URL parser, on the path

    [fetch] parses the URL it is given.  What follows the host of a URL
    with a special scheme ("https" and "http" are special) goes through
    the path start state and the path state of the URL standard's parser.
    The input is a string of scalar values from which surrounding C0
    controls and spaces and all tabs and newlines have been removed.  It is
    cut into segments at "/" and at the backslash, up to the first "?" or
    "#"; every
    code point in the path percent-encode set is written as the escaped
    octets of its UTF-8 encoding; a segment "." or "%2e" is dropped, a
    segment "..", ".%2e", "%2e." or "%2e%2e" removes the segment before it
    (the hexadecimal digit in either case), and every other segment is
    kept. *)

Definition C0_control_or_space (c : Z) : bool := c <=? 0x20.

Definition ASCII_tab_or_newline (c : Z) : bool := one_of [0x9; 0xA; 0xD] c.

Fixpoint strip_leading (s : list Z) : list Z :=
  match s with
  | c :: rest => if C0_control_or_space c then strip_leading rest else s
  | [] => []
  end.

Definition strip_trailing (s : list Z) : list Z := rev (strip_leading (rev s)).

(** The C0 control percent-encode set, the query percent-encode set (which
    adds space, the double quote, "#", "<" and ">") and the path
    percent-encode set (which adds "?", "^", the grave accent, and the
    braces). *)
Definition C0_control_percent_encode_set (c : Z) : bool := (c <? 0x20) || (0x7E <? c).

Definition query_percent_encode_set (c : Z) : bool :=
  C0_control_percent_encode_set c || one_of [0x20; 0x22; 0x23; 0x3C; 0x3E] c.

Definition path_percent_encode_set (c : Z) : bool :=
  query_percent_encode_set c || one_of [0x3F; 0x5E; 0x60; 0x7B; 0x7D] c.

Definition utf8_percent_encode (percentEncodeSet : Z -> bool) (cp : Z) : jsstring :=
  if percentEncodeSet cp then percent_octets (utf8 cp) else [cp].

Definition ASCII_lowercase (c : Z) : Z := if (65 <=? c) && (c <=? 90) then c + 32 else c.

Fixpoint same_units (a b : jsstring) : bool :=
  match a, b with
  | [], [] => true
  | x :: a', y :: b' => (x =? y) && same_units a' b'
  | _, _ => false
  end.

Definition is_single_dot (segment : jsstring) : bool :=
  let lower := map ASCII_lowercase segment in
  same_units lower (lit ".") || same_units lower (lit "%2e").

Definition is_double_dot (segment : jsstring) : bool :=
  let lower := map ASCII_lowercase segment in
  same_units lower (lit "..") || same_units lower (lit ".%2e") ||
  same_units lower (lit "%2e.") || same_units lower (lit "%2e%2e").

(** The end of a segment, at a slash or at the end of the path.  To shorten
    a path is to remove its last segment, if it has one. *)
Definition segment_end (path : list jsstring) (buffer : jsstring) (slash : bool)
  : list jsstring :=
  if is_double_dot buffer then
    if slash then removelast path else removelast path ++ [[]]
  else if is_single_dot buffer then
    if slash then path else path ++ [[]]
  else path ++ [buffer].

Fixpoint path_state (input : list Z) (path : list jsstring) (buffer : jsstring)
  : list jsstring :=
  match input with
  | [] => segment_end path buffer false
  | c :: rest =>
    if (c =? 47) || (c =? 92) then path_state rest (segment_end path buffer true) []
    else if (c =? 63) || (c =? 35) then segment_end path buffer false
    else path_state rest path (buffer ++ utf8_percent_encode path_percent_encode_set c)
  end.

Definition path_start_state (input : list Z) : list jsstring :=
  match input with
  | c :: rest =>
    if (c =? 47) || (c =? 92) then path_state rest [] [] else path_state input [] []
  | [] => path_state [] [] []
  end.

(** The segments of the path of a URL, from the text that follows its host. *)
Definition URL_path (after_host : jsstring) : list jsstring :=
  path_start_state
    (List.filter (fun c => negb (ASCII_tab_or_newline c))
                 (strip_trailing (to_scalar_values after_host))).

(** The path as the URL serializer writes it. *)
Definition URL_pathname (after_host : jsstring) : jsstring :=
  flat_map (fun segment => 47 :: segment) (URL_path after_host).

(** ** JSON

    The values [JSON.stringify] prints and [Response.json] produces.  An
    object keeps its properties in insertion order. *)

Inductive JSON :=
| JNull
| JBool (b : bool)
| JNumber (n : number)
| JString (s : jsstring)
| JArray (items : list JSON)
| JObject (properties : list (list Z * JSON)).

Definition hex_digit_lower (n : Z) : Z := if n <? 10 then 48 + n else 87 + n.

(** UnicodeEscape: a backslash, "u" and four lower-case hexadecimal digits. *)
Definition UnicodeEscape (c : Z) : jsstring :=
  [92; 117; hex_digit_lower (c / 4096); hex_digit_lower ((c / 256) mod 16);
   hex_digit_lower ((c / 16) mod 16); hex_digit_lower (c mod 16)].

Definition quote_unit (c : Z) : jsstring :=
  if c =? 8 then lit "\b"
  else if c =? 9 then lit "\t"
  else if c =? 10 then lit "\n"
  else if c =? 12 then lit "\f"
  else if c =? 13 then lit "\r"
  else if c =? 34 then [92; 34]
  else if c =? 92 then [92; 92]
  else if c <? 32 then UnicodeEscape c
  else [c].

Fixpoint quote_units (s : jsstring) : jsstring :=
  match s with
  | [] => []
  | c :: rest =>
    if is_leading_surrogate c then
      match rest with
      | d :: rest' =>
        if is_trailing_surrogate d then c :: d :: quote_units rest'
        else UnicodeEscape c ++ quote_units rest
      | [] => UnicodeEscape c
      end
    else if is_trailing_surrogate c then UnicodeEscape c ++ quote_units rest
    else quote_unit c ++ quote_units rest
  end.

Definition QuoteJSONString (s : jsstring) : jsstring := [34] ++ quote_units s ++ [34].

Fixpoint join_comma (parts : list jsstring) : jsstring :=
  match parts with
  | [] => []
  | [p] => p
  | p :: rest => p ++ lit "," ++ join_comma rest
  end.

(** [JSON.stringify] without replacer or indentation. *)
Fixpoint JSON_stringify (v : JSON) : jsstring :=
  match v with
  | JNull => lit "null"
  | JBool true => lit "true"
  | JBool false => lit "false"
  | JNumber (Infinity _) | JNumber NaN => lit "null"
  | JNumber n => Number_toString n
  | JString s => QuoteJSONString s
  | JArray items => lit "[" ++ join_comma (map JSON_stringify items) ++ lit "]"
  | JObject properties =>
    lit "{" ++
    join_comma (map (fun kv => QuoteJSONString (fst kv) ++ lit ":" ++ JSON_stringify (snd kv))
                    properties) ++
    lit "}"
  end.

(* ===================================================================== *)
(** * Part 2. The run-time: timers, abort controllers, fetch              *)
(* ===================================================================== *)

(** ** The client object

    Both classes declare the same three private fields. *)

Record Instance := mkInstance {
  baseUrl : jsstring;
  timeout : number;
  headers : gmap (list Z) (list Z)
}.

(** Object spread [{...a, ...b}]: the properties of [b] win; spreading
    [undefined] adds nothing. *)
Definition spread (a : gmap (list Z) (list Z)) (b : option (gmap (list Z) (list Z)))
  : gmap (list Z) (list Z) :=
  match b with
  | Some m => m ∪ a
  | None => a
  end.

(** ** Requests and replies *)

Record RequestInit := mkRequestInit {
  req_method : option jsstring;
  req_body : option jsstring;
  req_headers : option (gmap (list Z) (list Z));
  req_signal : option Z
}.

(** [options: RequestInit = {}] *)
Definition no_options : RequestInit := mkRequestInit None None None None.

(** What the server does with the body of a response: it delivers it after
    some time, as text that parses to a value or fails to parse, or never. *)
Inductive BodyReply :=
| BodyAfter (latency : Z) (parsed : JSON + jsstring)
| BodyNever.

(** What the network does with a request: response headers arrive after
    some time, the connection fails after some time, or nothing happens. *)
Inductive Reply :=
| Responds (latency : Z) (status : Z) (content : BodyReply)
| NetworkFails (latency : Z) (reason : jsstring)
| Silent.

Record Response := mkResponse {
  status : Z;
  content : BodyReply;
  response_signal : option Z
}.

(** [response.ok]: the status is in the range 200-299. *)
Definition ok (r : Response) : bool := (200 <=? status r) && (status r <=? 299).

(** ** The world

    [timers] are the armed timers; the callback of a timer set by the
    transport core aborts one controller, its [target]. *)

Record Timer := mkTimer { handle : Z; expiry : Z; target : Z }.

Inductive Event :=
| SetTimeout (h : Z) (ms : number)
| Fetch (url : jsstring) (init : RequestInit)
| ClearTimeout (h : Z).

Record World := mkWorld {
  this : Instance;
  now : Z;
  nextController : Z;
  nextHandle : Z;
  timers : list Timer;
  aborted : gset Z;
  trace : list Event;
  server : Z -> jsstring -> RequestInit -> Reply
}.

Definition log (e : Event) (w : World) : World :=
  mkWorld (this w) (now w) (nextController w) (nextHandle w) (timers w) (aborted w)
          (trace w ++ [e]) (server w).

(** Time passes until instant [t]: every timer due by then runs its
    callback and is disarmed. *)
Definition due (t : Z) (tm : Timer) : bool := expiry tm <=? t.

Definition advance (t : Z) (w : World) : World :=
  mkWorld (this w) (Z.max (now w) t) (nextController w) (nextHandle w)
          (List.filter (fun tm => negb (due t tm)) (timers w))
          (aborted w ∪ list_to_set (map target (List.filter (due t) (timers w))))
          (trace w) (server w).

(** ** Promises and asynchronous code *)

Inductive Promise (A : Type) :=
| Fulfilled (a : A)
| Rejected (e : Exception)
| Pending.
Arguments Fulfilled {A} a.
Arguments Rejected {A} e.
Arguments Pending {A}.

Definition M (A : Type) : Type := World -> Promise A * World.

Definition ret {A} (a : A) : M A := fun w => (Fulfilled a, w).

Definition throw {A} (e : Exception) : M A := fun w => (Rejected e, w).

Definition bind {A B} (m : M A) (k : A -> M B) : M B := fun w =>
  match m w with
  | (Fulfilled a, w') => k a w'
  | (Rejected e, w') => (Rejected e, w')
  | (Pending, w') => (Pending, w')
  end.

Notation "x <- m ;; k" := (bind m (fun x => k))
  (at level 100, m at next level, right associativity).

(** [try { body } finally { cleanup }]: the cleanup runs once the body has
    settled, and the body's completion stands unless the cleanup throws. *)
Definition try_finally {A} (body : M A) (cleanup : M unit) : M A := fun w =>
  match body w with
  | (Pending, w') => (Pending, w')
  | (r, w') =>
    match cleanup w' with
    | (Fulfilled _, w'') => (r, w'')
    | (Rejected e, w'') => (Rejected e, w'')
    | (Pending, w'') => (Pending, w'')
    end
  end.

(** A synchronous completion inside an [async] method. *)
Definition lift {A} (c : Completion A) : M A :=
  match c with
  | Normal a => ret a
  | Throw e => throw e
  end.

Definition gets {A} (f : World -> A) : M A := fun w => (Fulfilled (f w), w).

(** ** Timers and abort controllers *)

Definition new_AbortController : M Z := fun w =>
  (Fulfilled (nextController w),
   mkWorld (this w) (now w) (nextController w + 1) (nextHandle w) (timers w)
           (aborted w) (trace w) (server w)).

(** The delay of a timer: the argument converted to a 32-bit integer,
    negative values raised to 0.  (Node raises every value outside
    [1, 2^31-1] to 1 instead; the two agree inside that range.) *)
Definition ToInt32 (z : Z) : Z := (z + 2147483648) mod 4294967296 - 2147483648.

Definition timer_delay (ms : number) : Z :=
  match ms with
  | Int z => Z.max 0 (ToInt32 z)
  | _ => 0
  end.

(** [setTimeout(() => controller.abort(), ms)] *)
Definition setTimeout (controller : Z) (ms : number) : M Z := fun w =>
  let h := nextHandle w in
  (Fulfilled h,
   mkWorld (this w) (now w) (nextController w) (h + 1)
           (mkTimer h (now w + timer_delay ms) controller :: timers w)
           (aborted w) (trace w ++ [SetTimeout h ms]) (server w)).

Definition clearTimeout (h : Z) : M unit := fun w =>
  (Fulfilled tt,
   mkWorld (this w) (now w) (nextController w) (nextHandle w)
           (List.filter (fun tm => negb (handle tm =? h)) (timers w))
           (aborted w) (trace w ++ [ClearTimeout h]) (server w)).

(** The instant at which a signal will abort: the earliest expiry among
    the armed timers that target its controller. *)
Definition abort_time (signal : option Z) (ts : list Timer) : option Z :=
  match signal with
  | None => None
  | Some k =>
    foldr (fun tm acc =>
             if target tm =? k then
               Some (match acc with Some e => Z.min (expiry tm) e | None => expiry tm end)
             else acc)
          None ts
  end.

Definition is_aborted (signal : option Z) (w : World) : bool :=
  match signal with
  | None => false
  | Some k => bool_decide (k ∈ aborted w)
  end.

(** The text is Node's; the standard fixes the name "AbortError". *)
Definition aborted_error : Exception :=
  mkException AbortError (lit "This operation was aborted").

(** Awaiting an operation that observes a signal.  [op] is what the
    environment will do: complete with [c] after [latency], or never.
    The operation rejects with an AbortError as soon as the signal aborts;
    when the timer and the completion fall on the same instant the timer
    runs first. *)
Definition await_abortable {A} (signal : option Z) (op : option (Z * Completion A))
  : M A := fun w =>
  if is_aborted signal w then (Rejected aborted_error, w)
  else
    match abort_time signal (timers w), op with
    | Some e, Some (latency, c) =>
      if e <=? now w + Z.max 0 latency
      then (Rejected aborted_error, advance e w)
      else lift c (advance (now w + Z.max 0 latency) w)
    | Some e, None => (Rejected aborted_error, advance e w)
    | None, Some (latency, c) => lift c (advance (now w + Z.max 0 latency) w)
    | None, None => (Pending, w)
    end.

(** [fetch(url, init)] *)
Definition fetch (url : jsstring) (init : RequestInit) : M Response := fun w =>
  let w1 := log (Fetch url init) w in
  await_abortable (req_signal init)
    match server w (now w) url init with
    | Responds latency st c => Some (latency, Normal (mkResponse st c (req_signal init)))
    | NetworkFails latency reason => Some (latency, Throw (mkException TypeError reason))
    | Silent => None
    end
    w1.

(** [response.json()] *)
Definition Response_json (r : Response) : M JSON :=
  await_abortable (response_signal r)
    match content r with
    | BodyAfter latency (inl v) => Some (latency, Normal v)
    | BodyAfter latency (inr why) => Some (latency, Throw (mkException SyntaxError why))
    | BodyNever => None
    end.

(* ===================================================================== *)
(** * Part 3. The clients                                                 *)
(* ===================================================================== *)

(** [a || b] on an optional property: [undefined] and falsy values give [b]. *)
Definition or_else {A} (truthy : A -> bool) (a : option A) (b : A) : A :=
  match a with
  | Some x => if truthy x then x else b
  | None => b
  end.

(** The object literal [{ 'Content-Type': 'application/json' }]. *)
Definition default_headers : gmap (list Z) (list Z) :=
  {[ lit "Content-Type" := lit "application/json" ]}.

(** ** Option types of the pricedb client (its [types.ts], as listed in the
    package's README) *)

Module PaginationOptions.
Record t := mk { limit : option number; offset : option number }.
End PaginationOptions.

Module HistoryOptions.
Record t := mk { start : option number; end_ : option number }.
End HistoryOptions.

Module SearchOptions.
Record t := mk { query : jsstring; limit : option number }.
End SearchOptions.

Module GraphOptions.
Record t := mk { header : option bool; height : option number; width : option jsstring }.
End GraphOptions.

(** ** packages/pricedb-client/src/client.ts *)

Module PriceDBClient.

Record PriceDBClientConfig := mkConfig {
  config_baseUrl : option jsstring;
  config_timeout : option number;
  config_headers : option (gmap (list Z) (list Z))
}.

Definition constructor (config : PriceDBClientConfig) : Instance :=
  {| baseUrl := or_else truthy_string (config_baseUrl config) (lit "https://pricedb.io");
     timeout := or_else truthy_number (config_timeout config) (Int 10000);
     headers := spread default_headers (config_headers config) |}.

Definition request (endpoint : jsstring) (options : RequestInit) : M JSON :=
  controller <- new_AbortController ;;
  ms <- gets (fun w => timeout (this w)) ;;
  timeoutId <- setTimeout controller ms ;;
  try_finally
    (base <- gets (fun w => baseUrl (this w)) ;;
     hs <- gets (fun w => headers (this w)) ;;
     response <- fetch (base ++ endpoint)
                   {| req_method := req_method options;
                      req_body := req_body options;
                      req_headers := Some (spread hs (req_headers options));
                      req_signal := Some controller |} ;;
     if negb (ok response) then
       throw (mkException Error
                (lit "HTTP error! status: " ++ Number_toString (Int (status response))))
     else Response_json response)
    (clearTimeout timeoutId).

Definition health : M JSON := request (lit "/api/") no_options.

Definition getItems : M JSON := request (lit "/api/items") no_options.

Definition getLatestPrices : M JSON := request (lit "/api/latest-prices") no_options.

Definition getPrices (options : PaginationOptions.t) : M JSON :=
  let params := URLSearchParams_new in
  let params :=
    match PaginationOptions.limit options with
    | Some limit =>
      if truthy_number limit
      then URLSearchParams_append params (lit "limit") (Number_toString limit)
      else params
    | None => params
    end in
  let params :=
    match PaginationOptions.offset options with
    | Some offset =>
      if truthy_number offset
      then URLSearchParams_append params (lit "offset") (Number_toString offset)
      else params
    | None => params
    end in
  let queryString := URLSearchParams_toString params in
  let endpoint :=
    if truthy_string queryString
    then lit "/api/prices?" ++ queryString
    else lit "/api/prices" in
  request endpoint no_options.

Definition getItem (sku : jsstring) : M JSON :=
  segment <- lift (encodeURIComponent sku) ;;
  request (lit "/api/item/" ++ segment) no_options.

Definition getItemHistory (sku : jsstring) (options : HistoryOptions.t) : M JSON :=
  let params := URLSearchParams_new in
  let params :=
    match HistoryOptions.start options with
    | Some start =>
      if truthy_number start
      then URLSearchParams_append params (lit "start") (Number_toString start)
      else params
    | None => params
    end in
  let params :=
    match HistoryOptions.end_ options with
    | Some end_ =>
      if truthy_number end_
      then URLSearchParams_append params (lit "end") (Number_toString end_)
      else params
    | None => params
    end in
  let queryString := URLSearchParams_toString params in
  endpoint <- lift (
    if truthy_string queryString
    then segment <~ encodeURIComponent sku ;;
         Normal (lit "/api/item-history/" ++ segment ++ lit "?" ++ queryString)
    else segment <~ encodeURIComponent sku ;;
         Normal (lit "/api/item-history/" ++ segment)) ;;
  request endpoint no_options.

Definition getItemStats (sku : jsstring) : M JSON :=
  segment <- lift (encodeURIComponent sku) ;;
  request (lit "/api/item-stats/" ++ segment) no_options.

Definition getItemsBulk (skus : list jsstring) : M JSON :=
  request (lit "/api/items-bulk")
    {| req_method := Some (lit "POST");
       req_body := Some (JSON_stringify (JObject [(lit "skus", JArray (map JString skus))]));
       req_headers := None;
       req_signal := None |}.

Definition getSnapshot (timestamp : number) : M JSON :=
  request (lit "/api/snapshot/" ++ Number_toString timestamp) no_options.

Definition search (options : SearchOptions.t) : M JSON :=
  let params := URLSearchParams_new in
  let params := URLSearchParams_append params (lit "q") (SearchOptions.query options) in
  let params :=
    match SearchOptions.limit options with
    | Some limit =>
      if truthy_number limit
      then URLSearchParams_append params (lit "limit") (Number_toString limit)
      else params
    | None => params
    end in
  request (lit "/api/search?" ++ URLSearchParams_toString params) no_options.

Definition compareItems (sku1 sku2 : jsstring) : M JSON :=
  endpoint <- lift (
    segment1 <~ encodeURIComponent sku1 ;;
    segment2 <~ encodeURIComponent sku2 ;;
    Normal (lit "/api/compare/" ++ segment1 ++ lit "/" ++ segment2)) ;;
  request endpoint no_options.

Definition getCacheStats : M JSON := request (lit "/api/cache-stats") no_options.

(** The one synchronous method: it reads [this.baseUrl] and nothing else. *)
Definition getGraphUrl (this : Instance) (sku : jsstring) (options : GraphOptions.t)
  : Completion jsstring :=
  let params := URLSearchParams_new in
  let params :=
    match GraphOptions.header options with
    | Some false => URLSearchParams_append params (lit "header") (lit "false")
    | _ => params
    end in
  let params :=
    match GraphOptions.height options with
    | Some height =>
      if truthy_number height
      then URLSearchParams_append params (lit "height") (Number_toString height)
      else params
    | None => params
    end in
  let params :=
    match GraphOptions.width options with
    | Some width =>
      if truthy_string width
      then URLSearchParams_append params (lit "width") width
      else params
    | None => params
    end in
  let queryString := URLSearchParams_toString params in
  if truthy_string queryString
  then segment <~ encodeURIComponent sku ;;
       Normal (baseUrl this ++ lit "/api/graph/" ++ segment ++ lit "?" ++ queryString)
  else segment <~ encodeURIComponent sku ;;
       Normal (baseUrl this ++ lit "/api/graph/" ++ segment).

(** A call of an endpoint method with its arguments. *)
Inductive Call :=
| Health
| GetItems
| GetLatestPrices
| GetPrices (options : PaginationOptions.t)
| GetItem (sku : jsstring)
| GetItemHistory (sku : jsstring) (options : HistoryOptions.t)
| GetItemStats (sku : jsstring)
| GetItemsBulk (skus : list jsstring)
| GetSnapshot (timestamp : number)
| Search (options : SearchOptions.t)
| CompareItems (sku1 sku2 : jsstring)
| GetCacheStats.

Definition invoke (c : Call) : M JSON :=
  match c with
  | Health => health
  | GetItems => getItems
  | GetLatestPrices => getLatestPrices
  | GetPrices options => getPrices options
  | GetItem sku => getItem sku
  | GetItemHistory sku options => getItemHistory sku options
  | GetItemStats sku => getItemStats sku
  | GetItemsBulk skus => getItemsBulk skus
  | GetSnapshot timestamp => getSnapshot timestamp
  | Search options => search options
  | CompareItems sku1 sku2 => compareItems sku1 sku2
  | GetCacheStats => getCacheStats
  end.

End PriceDBClient.

(** ** Parameter types of the spells client, as its methods declare them *)

Module PredictOptions.
Record t := mk { spells : jsstring; item : jsstring }.
End PredictOptions.

Module PredictSpellItemOptions.
Record t := mk { item_name : jsstring; spell_ids : list number }.
End PredictSpellItemOptions.

Module ItemSpellPremiumOptions.
Record t := mk { item : jsstring; ids : jsstring }.
End ItemSpellPremiumOptions.

(** ** packages/spells-client/src/client.ts *)

Module SpellsClient.

Record SpellsClientConfig := mkConfig {
  config_baseUrl : option jsstring;
  config_timeout : option number;
  config_headers : option (gmap (list Z) (list Z))
}.

Definition constructor (config : SpellsClientConfig) : Instance :=
  {| baseUrl := or_else truthy_string (config_baseUrl config) (lit "https://spell.pricedb.io");
     timeout := or_else truthy_number (config_timeout config) (Int 10000);
     headers := spread default_headers (config_headers config) |}.

Definition request (endpoint : jsstring) (options : RequestInit) : M JSON :=
  controller <- new_AbortController ;;
  ms <- gets (fun w => timeout (this w)) ;;
  timeoutId <- setTimeout controller ms ;;
  try_finally
    (base <- gets (fun w => baseUrl (this w)) ;;
     hs <- gets (fun w => headers (this w)) ;;
     response <- fetch (base ++ endpoint)
                   {| req_method := req_method options;
                      req_body := req_body options;
                      req_headers := Some (spread hs (req_headers options));
                      req_signal := Some controller |} ;;
     if negb (ok response) then
       throw (mkException Error
                (lit "HTTP error! status: " ++ Number_toString (Int (status response))))
     else Response_json response)
    (clearTimeout timeoutId).

Definition predict (options : PredictOptions.t) : M JSON :=
  let params := URLSearchParams_of_record
                  [(lit "spells", PredictOptions.spells options);
                   (lit "item", PredictOptions.item options)] in
  request (lit "/api/spell/predict?" ++ URLSearchParams_toString params) no_options.

(** The body prints the caller's object; its properties are taken in the
    order the parameter type declares them. *)
Definition predictSpellItem (options : PredictSpellItemOptions.t) : M JSON :=
  request (lit "/api/spell/predict-spell-item")
    {| req_method := Some (lit "POST");
       req_body := Some (JSON_stringify
                           (JObject [(lit "item_name",
                                      JString (PredictSpellItemOptions.item_name options));
                                     (lit "spell_ids",
                                      JArray (map JNumber
                                                (PredictSpellItemOptions.spell_ids options)))]));
       req_headers := None;
       req_signal := None |}.

Definition getSpellValue (ids : jsstring) : M JSON :=
  let params := URLSearchParams_of_record [(lit "ids", ids)] in
  request (lit "/api/spell/spell-value?" ++ URLSearchParams_toString params) no_options.

Definition getSpellAnalytics : M JSON :=
  request (lit "/api/spell/spell-analytics") no_options.

Definition getItemSpellPremium (options : ItemSpellPremiumOptions.t) : M JSON :=
  let params := URLSearchParams_of_record
                  [(lit "item", ItemSpellPremiumOptions.item options);
                   (lit "ids", ItemSpellPremiumOptions.ids options)] in
  request (lit "/api/spell/item-spell-premium?" ++ URLSearchParams_toString params)
          no_options.

Definition spellIdToName (id : number) : M JSON :=
  let params := URLSearchParams_of_record [(lit "id", Number_toString id)] in
  request (lit "/api/spell/spell-id-to-name?" ++ URLSearchParams_toString params)
          no_options.

Definition spellNameToId (name : jsstring) : M JSON :=
  let params := URLSearchParams_of_record [(lit "name", name)] in
  request (lit "/api/spell/spell-name-to-id?" ++ URLSearchParams_toString params)
          no_options.

Definition getSpells : M JSON := request (lit "/api/spell/spells") no_options.

Definition getFetcherStatus : M JSON :=
  request (lit "/api/spell/fetcher-status") no_options.

Definition health : M JSON := request (lit "/api/spell/health") no_options.

Definition getStats : M JSON := request (lit "/api/stats") no_options.

Definition getStatusProxy : M JSON := request (lit "/api/spell/status-proxy") no_options.

Inductive Call :=
| Predict (options : PredictOptions.t)
| PredictSpellItem (options : PredictSpellItemOptions.t)
| GetSpellValue (ids : jsstring)
| GetSpellAnalytics
| GetItemSpellPremium (options : ItemSpellPremiumOptions.t)
| SpellIdToName (id : number)
| SpellNameToId (name : jsstring)
| GetSpells
| GetFetcherStatus
| Health
| GetStats
| GetStatusProxy.

Definition invoke (c : Call) : M JSON :=
  match c with
  | Predict options => predict options
  | PredictSpellItem options => predictSpellItem options
  | GetSpellValue ids => getSpellValue ids
  | GetSpellAnalytics => getSpellAnalytics
  | GetItemSpellPremium options => getItemSpellPremium options
  | SpellIdToName id => spellIdToName id
  | SpellNameToId name => spellNameToId name
  | GetSpells => getSpells
  | GetFetcherStatus => getFetcherStatus
  | Health => health
  | GetStats => getStats
  | GetStatusProxy => getStatusProxy
  end.

End SpellsClient.

(** A call on either client. *)
Inductive AnyCall :=
| OnPriceDB (c : PriceDBClient.Call)
| OnSpells (c : SpellsClient.Call).

Definition invoke (c : AnyCall) : M JSON :=
  match c with
  | OnPriceDB c => PriceDBClient.invoke c
  | OnSpells c => SpellsClient.invoke c
  end.

(** Calls made one after the other, each awaited before the next starts
    and its rejection caught; a call that never settles blocks the rest. *)
Fixpoint run (calls : list AnyCall) (w : World) : World :=
  match calls with
  | [] => w
  | c :: rest =>
    match invoke c w with
    | (Pending, w') => w'
    | (_, w') => run rest w'
    end
  end.

(** The world a program starts in: no timers, clock at 0. *)
Definition boot (this : Instance) (server : Z -> jsstring -> RequestInit -> Reply) : World :=
  mkWorld this 0 0 0 [] ∅ [] server.

(* ===================================================================== *)
(** * Part 4. Observations the statements are written with                *)
(* ===================================================================== *)

(** Every controller a timer targets, or that is recorded as aborted, has
    been allocated. *)
Definition consistent (w : World) : Prop :=
  (forall k, k ∈ aborted w -> k < nextController w) /\
  Forall (fun tm => target tm < nextController w) (timers w).

(** What a computation appends to the trace. *)
Definition events {A} (m : M A) (w : World) : list Event :=
  drop (length (trace w)) (trace (snd (m w))).

(** URL, method and body of the requests among some events. *)
Definition requests (es : list Event) : list (list Z * option (list Z) * option (list Z)) :=
  flat_map (fun e => match e with
                     | Fetch url init => [(url, req_method init, req_body init)]
                     | _ => []
                     end) es.

(** The requests a computation issues when it runs in [w]. *)
Definition sent {A} (m : M A) (w : World) : list (list Z * option (list Z) * option (list Z)) :=
  requests (events m w).

(** Is a timer with this handle still armed? *)
Definition armed (h : Z) (w : World) : bool :=
  existsb (fun tm => handle tm =? h) (timers w).

(** The instant the transport core's timer expires for a call started in [w]. *)
Definition deadline (w : World) : Z := now w + timer_delay (timeout (this w)).

(** The [init] object the transport core hands to [fetch]. *)
Definition init_of (w : World) (options : RequestInit) : RequestInit :=
  {| req_method := req_method options;
     req_body := req_body options;
     req_headers := Some (spread (headers (this w)) (req_headers options));
     req_signal := Some (nextController w) |}.

(** The outcome of one round trip, read off the reply of the server: the
    promise and the instant at which it settles. *)
Definition round_trip (w : World) (reply : Reply) : Promise JSON * Z :=
  let d := deadline w in
  match reply with
  | Silent => (Rejected aborted_error, d)
  | NetworkFails latency reason =>
    let t := now w + Z.max 0 latency in
    if d <=? t then (Rejected aborted_error, d)
    else (Rejected (mkException TypeError reason), t)
  | Responds latency st c =>
    let t := now w + Z.max 0 latency in
    if d <=? t then (Rejected aborted_error, d)
    else if negb ((200 <=? st) && (st <=? 299)) then
      (Rejected (mkException Error (lit "HTTP error! status: " ++ Number_toString (Int st))), t)
    else
      match c with
      | BodyNever => (Rejected aborted_error, d)
      | BodyAfter latency' parsed =>
        let t' := t + Z.max 0 latency' in
        if d <=? t' then (Rejected aborted_error, d)
        else match parsed with
             | inl v => (Fulfilled v, t')
             | inr why => (Rejected (mkException SyntaxError why), t')
             end
      end
  end.

(** Time passing: [w'] is [w] itself or [w] advanced to some instant. *)
Inductive passes (w : World) : World -> Prop :=
| passes_none : passes w w
| passes_some t : passes w (advance t w).

(** A signal is hooked when its controller has been aborted or a timer that
    will abort it is armed: an operation observing it cannot stay pending. *)
Definition hooked (k : Z) (w : World) : Prop :=
  is_aborted (Some k) w = true \/ abort_time (Some k) (timers w) <> None.

(** A signal is guarded by the instant [d] when its controller has not been
    aborted and [d] is the instant at which it will be. *)
Definition guarded (k d : Z) (w : World) : Prop :=
  is_aborted (Some k) w = false /\ abort_time (Some k) (timers w) = Some d.

(** The world in which the [try] block of the transport core starts: a
    controller has been allocated and its timer armed. *)
Definition armed_world (w : World) : World :=
  mkWorld (this w) (now w) (nextController w + 1) (nextHandle w + 1)
          (mkTimer (nextHandle w) (deadline w) (nextController w) :: timers w)
          (aborted w) (trace w ++ [SetTimeout (nextHandle w) (timeout (this w))])
          (server w).

(** The [try] block of the transport core, after the fields of [this] have
    been read. *)
Definition try_block (url : jsstring) (init : RequestInit) : M JSON :=
  response <- fetch url init ;;
  if negb (ok response) then
    throw (mkException Error
             (lit "HTTP error! status: " ++ Number_toString (Int (status response))))
  else Response_json response.

Definition promise_of {A} (c : Completion A) : Promise A :=
  match c with
  | Normal a => Fulfilled a
  | Throw e => Rejected e
  end.

(** The cleanup of a call started in [w] is done: the call has settled, the
    timer it set is no longer armed, and clearing it was its last act. *)
Definition cleanup_done (m : M JSON) (w : World) : Prop :=
  let h := nextHandle w in
  fst (m w) <> Pending /\
  armed h (snd (m w)) = false /\
  exists between,
    trace (snd (m w)) =
    trace w ++ [SetTimeout h (timeout (this w))] ++ between ++ [ClearTimeout h].

(** The skus a call writes into the path of its URL. *)
Definition path_skus (c : AnyCall) : list jsstring :=
  match c with
  | OnPriceDB (PriceDBClient.GetItem sku) => [sku]
  | OnPriceDB (PriceDBClient.GetItemHistory sku _) => [sku]
  | OnPriceDB (PriceDBClient.GetItemStats sku) => [sku]
  | OnPriceDB (PriceDBClient.CompareItems sku1 sku2) => [sku1; sku2]
  | _ => []
  end.

(** A call one of whose skus cannot be encoded: [encodeURIComponent] throws
    on it.  No call of the spells client and no call without a sku is one. *)
Definition unencodable (c : AnyCall) : Prop :=
  exists sku, In sku (path_skus c) /\ encodeURIComponent sku = Throw URI_malformed.

(** A server that never responds. *)
Definition silent (w : World) : Prop := forall t url init, server w t url init = Silent.

(** A call started in [w] fails, either at once with a URIError raised
    while its arguments were encoded, or with an AbortError exactly [T]
    milliseconds later. *)
Definition fails_after (T : Z) (m : M JSON) (w : World) : Prop :=
  exists e,
    fst (m w) = Rejected e /\
    (e = URI_malformed /\ now (snd (m w)) = now w \/
     e = aborted_error /\ now (snd (m w)) = now w + T).

(** The double quote, for JSON text. *)
Definition dq : jsstring := [34].

(** The item of the round-trip scenario:
    name "Test Item", sku "1;6", buy 1 key 2 metal, sell 1 key 3 metal,
    source "x", time 1700000000. *)
Definition test_item : JSON :=
  JObject [(lit "name", JString (lit "Test Item"));
           (lit "sku", JString (lit "1;6"));
           (lit "buy", JObject [(lit "keys", JNumber (Int 1)); (lit "metal", JNumber (Int 2))]);
           (lit "sell", JObject [(lit "keys", JNumber (Int 1)); (lit "metal", JNumber (Int 3))]);
           (lit "source", JString (lit "x"));
           (lit "time", JNumber (Int 1700000000))].

(** A fresh pricedb client configured with the timeout 0 in front of a server
    that never responds. *)
Definition zero_timeout_world : World :=
  boot (PriceDBClient.constructor (PriceDBClient.mkConfig None (Some (Int 0)) None))
       (fun _ _ _ => Silent).

(** The options [{header: false, height: 400}]. *)
Definition chart_options : GraphOptions.t :=
  GraphOptions.mk (Some false) (Some (Int 400)) None.

(** Code points and octets, as ranges. *)
Definition scalar (cp : Z) : Prop := 0 <= cp < 0x110000.
Definition octet (b : Z) : Prop := 0 <= b < 256.

(** The code units an encoded URI component is made of: the unescaped set
    and the percent sign. *)
Definition component_unit (c : Z) : bool := uriUnescaped c || (c =? 37).

(** The code units that give a URL its structure: the separators of path,
    query and fragment, of query parameters, the backslash, and the space. *)
Definition delimiter (c : Z) : bool := one_of (lit "/?#&=+\ ") c.

(** A call whose path was computed by [path]: if that computation throws,
    the call rejects with the error thrown and issues nothing; otherwise it
    issues one request, without method or body of its own, to the base URL
    followed by the path. *)
Definition requests_path (m : M JSON) (w : World) (path : Completion jsstring) : Prop :=
  match path with
  | Normal p => sent m w = [(baseUrl (this w) ++ p, None, None)]
  | Throw e => m w = (Rejected e, w)
  end.

(** A query string, or nothing, after a path. *)
Definition query_suffix (suffix : jsstring) : Prop :=
  suffix = [] \/ exists q, suffix = lit "?" ++ q.

(** Worlds for the examples: a fresh client with the default configuration
    in front of a server with one fixed behaviour. *)
Definition default_pricedb : Instance :=
  PriceDBClient.constructor (PriceDBClient.mkConfig None None None).

Definition not_found_world : World :=
  boot default_pricedb (fun _ _ _ => Responds 20 404 BodyNever).

Definition test_item_world : World :=
  boot default_pricedb (fun _ _ _ => Responds 30 200 (BodyAfter 5 (inl test_item))).

Definition five_second_world : World :=
  boot (SpellsClient.constructor (SpellsClient.mkConfig None (Some (Int 5000)) None))
       (fun _ _ _ => Silent).

Definition authorization : gmap (list Z) (list Z) :=
  {[ lit "Authorization" := lit "Bearer t" ]}.

(** ** Observations for the properties beyond the claims *)

(** The phases one round trip goes through, as the trace shows them: a timer
    is set, [fetch] is called with the signal of the controller the timer
    will abort, the timer is cleared. *)
Inductive Phase := Idle | Armed | Sent.

(** One event read against the protocol: [h] is the handle (and the
    controller) the next round trip will get. *)
Definition protocol_step (st : option (Z * Phase)) (e : Event) : option (Z * Phase) :=
  match st, e with
  | Some (h, Idle), SetTimeout h' _ => if h' =? h then Some (h, Armed) else None
  | Some (h, Armed), Fetch _ init =>
    match req_signal init with
    | Some k => if k =? h then Some (h, Sent) else None
    | None => None
    end
  | Some (h, Sent), ClearTimeout h' => if h' =? h then Some (h + 1, Idle) else None
  | _, _ => None
  end.

Definition protocol (h : Z) (es : list Event) : option (Z * Phase) :=
  fold_left protocol_step es (Some (h, Idle)).

(** A server whose reply to a request depends on nothing but the request:
    not on the instant, and not on the abort signal, which never leaves the
    client. *)
Definition stateless (srv : Z -> jsstring -> RequestInit -> Reply) : Prop :=
  forall t t' url m b h s s',
    srv t url (mkRequestInit m b h s) = srv t' url (mkRequestInit m b h s').

(** The code units of a form-encoded name or value. *)
Definition form_unit (c : Z) : bool :=
  is_ascii_alphanumeric c || one_of (lit "*-._+%") c.

(** How often a code unit occurs in a string. *)
Definition occurrences (c : Z) (s : jsstring) : nat := count_occ Z.eq_dec s c.

(** A string in which every surrogate is half of a pair. *)
Fixpoint well_paired (s : jsstring) : bool :=
  match s with
  | [] => true
  | c :: rest =>
    if is_leading_surrogate c then
      match rest with
      | d :: rest' => is_trailing_surrogate d && well_paired rest'
      | [] => false
      end
    else negb (is_trailing_surrogate c) && well_paired rest
  end.

(** The code units of a printed integer. *)
Definition decimal_unit (c : Z) : bool := is_ascii_digit c || (c =? 45).

(** A client one can call: its base URL is not empty, its timeout is a
    number other than 0 and NaN, and it sends a content type. *)
Definition usable (i : Instance) : Prop :=
  baseUrl i <> [] /\ truthy_number (timeout i) = true /\
  is_Some (headers i !! lit "Content-Type").

(** A query string of [n] parameters: [n] equals signs, one ampersand
    between two parameters, and besides them only the code units of
    form-encoded names and values (so no "#", "?", "/" or space). *)
Definition query_shape (n : nat) (q : jsstring) : Prop :=
  occurrences 61 q = n /\ occurrences 38 q = pred n /\
  Forall (fun c => form_unit c = true \/ c = 61 \/ c = 38) q.

(** The two zeros. *)
Definition zero (n : number) : bool :=
  match n with
  | Int 0 | NegZero => true
  | _ => false
  end.

(** The numbers JSON has a notation for: all but NaN and the infinities. *)
Definition finite (n : number) : bool :=
  match n with
  | Int _ | NegZero => true
  | NaN | Infinity _ => false
  end.

(** Two numbers a reader of the request cannot tell apart: they are equal,
    both are zeros, or neither is finite. *)
Definition alike (n n' : number) : Prop :=
  n = n' \/ (zero n = true /\ zero n' = true) \/ (finite n = false /\ finite n' = false).

(** The numbers the model holds and prints exactly as the host does: the
    integers of magnitude below 2^53 (the safe integers with their zero),
    -0, NaN and the infinities. *)
Definition safe (n : number) : Prop :=
  match n with
  | Int z => Z.abs z < 2 ^ 53
  | _ => True
  end.

(** Two more worlds for the examples: a server whose response headers
    take twelve seconds, and a network that fails after 15 ms. *)
Definition late_world : World :=
  boot default_pricedb (fun _ _ _ => Responds 12000 200 (BodyAfter 5 (inl test_item))).

Definition offline_world : World :=
  boot default_pricedb (fun _ _ _ => NetworkFails 15 (lit "fetch failed")).

(** Does an optional number count as given?  Not when it is omitted, and
    not when it is 0, -0 or NaN. *)
Definition given (o : option number) : nat :=
  match o with
  | Some n => if truthy_number n then 1 else 0
  | None => 0
  end.

(** What follows the path when [n] optional parameters are given: nothing
    at all for none, else "?" and a query string of [n] parameters. *)
Definition optional_query (n : nat) (suffix : jsstring) : Prop :=
  match n with
  | O => suffix = []
  | S _ => exists q, suffix = lit "?" ++ q /\ query_shape n q
  end.

(** A call that sends one request, without method or body of its own, for
    [path] followed by "?" and a query string of [n] parameters. *)
Definition queries (m : M JSON) (w : World) (path : jsstring) (n : nat) : Prop :=
  exists q, sent m w = [(baseUrl (this w) ++ path ++ lit "?" ++ q, None, None)] /\
            query_shape n q.

(** Text in the usual sense: code units, every surrogate half of a pair. *)
Definition text (s : jsstring) : Prop := well_formed_units s /\ well_paired s = true.

(* ===================================================================== *)
(** * Part 5. Properties                                                  *)
(* ===================================================================== *)

(** ** The run-time primitives *)

Lemma abort_time_untargeted k ts :
  Forall (fun tm => target tm < k) ts -> abort_time (Some k) ts = None.
Proof.
  induction 1 as [|tm ts Htm _ IH]; simpl in *; [reflexivity|].
  rewrite IH. destruct (Z.eqb_spec (target tm) k); [lia | reflexivity].
Qed.

Lemma Forall_filter_keep {A} (P : A -> Prop) f (l : list A) :
  Forall P l -> Forall P (List.filter f l).
Proof.
  induction 1; simpl; [constructor|]. destruct (f x); auto.
Qed.

Lemma passes_fields w w' :
  passes w w' ->
  this w' = this w /\ trace w' = trace w /\ nextController w' = nextController w /\
  nextHandle w' = nextHandle w /\ server w' = server w /\ now w <= now w'.
Proof.
  destruct 1; simpl; repeat split; lia.
Qed.

Lemma lift_world {A} (c : Completion A) w : snd (lift c w) = w.
Proof. destruct c; reflexivity. Qed.

Lemma lift_settled {A} (c : Completion A) w : fst (lift c w) <> Pending.
Proof. destruct c; discriminate. Qed.

Lemma await_passes {A} signal (op : option (Z * Completion A)) w :
  passes w (snd (await_abortable signal op w)).
Proof.
  unfold await_abortable.
  destruct (is_aborted signal w); [constructor|].
  destruct (abort_time signal (timers w)) as [e|], op as [[latency c]|]; simpl;
    try destruct (e <=? _); rewrite ?lift_world; constructor.
Qed.

Lemma abort_time_cons k tm ts :
  target tm = k -> abort_time (Some k) (tm :: ts) <> None.
Proof.
  intros <-. simpl. rewrite Z.eqb_refl. discriminate.
Qed.

Lemma abort_time_some_in k ts :
  abort_time (Some k) ts <> None <-> exists tm, In tm ts /\ target tm = k.
Proof.
  induction ts as [|tm ts IH]; simpl.
  - split; [congruence | intros (? & [] & _)].
  - destruct (Z.eqb_spec (target tm) k) as [E|E].
    + split; [eauto | discriminate].
    + simpl in IH. rewrite IH. split.
      * intros (tm' & ? & ?); eauto.
      * intros (tm' & [->|?] & ?); [contradiction | eauto].
Qed.

Lemma hooked_advance k t w : hooked k w -> hooked k (advance t w).
Proof.
  unfold hooked, is_aborted. rewrite !bool_decide_eq_true. simpl.
  intros [Hab | Harmed].
  - left. apply elem_of_union_l, Hab.
  - apply abort_time_some_in in Harmed as (tm & Hin & Htg).
    destruct (due t tm) eqn:Hdue.
    + left. apply elem_of_union_r, elem_of_list_to_set, list_elem_of_In.
      apply in_map_iff. exists tm. split; [assumption|].
      apply filter_In. auto.
    + right. apply abort_time_some_in. exists tm. split; [|assumption].
      apply filter_In. rewrite Hdue. auto.
Qed.

Lemma hooked_passes k w w' : passes w w' -> hooked k w -> hooked k w'.
Proof. destruct 1; auto using hooked_advance. Qed.

Lemma await_settles {A} k (op : option (Z * Completion A)) w :
  hooked k w -> fst (await_abortable (Some k) op w) <> Pending.
Proof.
  unfold hooked, await_abortable. intros H.
  destruct (is_aborted (Some k) w); [discriminate|].
  destruct H as [H|H]; [discriminate|].
  destruct (abort_time (Some k) (timers w)) as [e|]; [|congruence].
  destruct op as [[latency c]|]; [|discriminate].
  destruct (e <=? _); [discriminate | apply lift_settled].
Qed.

Lemma abort_time_spec k ts d :
  abort_time (Some k) ts = Some d <->
  (exists tm, In tm ts /\ target tm = k /\ expiry tm = d) /\
  (forall tm, In tm ts -> target tm = k -> d <= expiry tm).
Proof.
  revert d. induction ts as [|tm ts IH]; intros d; simpl.
  - split; [discriminate | intros [(? & [] & _) _]].
  - simpl in IH. destruct (Z.eqb_spec (target tm) k) as [E|E].
    + destruct (foldr _ None ts) as [e|] eqn:Hrest.
      * specialize (IH e). destruct IH as [IH _].
        destruct (IH eq_refl) as [(tm' & Hin & Htg & Hex) Hmin].
        split.
        -- intros [= <-]. split.
           ++ destruct (Z.le_ge_cases (expiry tm) e).
              ** exists tm. rewrite Z.min_l by lia. auto.
              ** exists tm'. rewrite Z.min_r by lia. auto.
           ++ intros tm0 [<-|Hin0] Htg0; [lia|]. specialize (Hmin _ Hin0 Htg0). lia.
        -- intros [(tm0 & Hin0 & Htg0 & Hex0) Hmin0]. f_equal.
           assert (d <= expiry tm) by auto.
           assert (d <= e) by (rewrite <- Hex; auto).
           destruct Hin0 as [<-|Hin0]; [specialize (Hmin _ Hin Htg)|specialize (Hmin _ Hin0 Htg0)]; lia.
      * assert (Hnone : forall tm', In tm' ts -> target tm' <> k).
        { intros tm' Hin Htg. 
          assert (Hs : abort_time (Some k) ts <> None)
            by (apply abort_time_some_in; eauto).
          apply Hs. exact Hrest. }
        split.
        -- intros [= <-]. split; [exists tm; auto|].
           intros tm0 [<-|Hin0] Htg0; [lia | exfalso; eapply Hnone; eauto].
        -- intros [(tm0 & [<-|Hin0] & Htg0 & Hex0) _]; [congruence|].
           exfalso; eapply Hnone; eauto.
    + rewrite IH. split.
      * intros [(tm' & Hin & Htg & Hex) Hmin]. split; [eauto 6|].
        intros tm0 [<-|Hin0] Htg0; [contradiction | auto].
      * intros [(tm' & [<-|Hin] & Htg & Hex) Hmin]; [contradiction|]. split; eauto.
Qed.

Lemma guarded_advance k d t w : guarded k d w -> t < d -> guarded k d (advance t w).
Proof.
  unfold guarded, is_aborted. rewrite !bool_decide_eq_false. simpl.
  intros [Hab Hat] Ht. apply abort_time_spec in Hat as [(tm & Hin & Htg & Hex) Hmin].
  split.
  - rewrite elem_of_union, elem_of_list_to_set, list_elem_of_In, in_map_iff.
    intros [?|(tm' & Htg' & Hin')]; [contradiction|].
    apply filter_In in Hin' as [Hin' Hdue]. unfold due in Hdue.
    apply Z.leb_le in Hdue. specialize (Hmin _ Hin' Htg'). lia.
  - apply abort_time_spec. split.
    + exists tm. split; [|auto]. apply filter_In. split; [assumption|].
      unfold due. apply negb_true_iff, Z.leb_gt. lia.
    + intros tm' Hin' Htg'. apply filter_In in Hin' as [Hin' _]. auto.
Qed.

Lemma await_guarded {A} k d (op : option (Z * Completion A)) w :
  guarded k d w ->
  await_abortable (Some k) op w =
  match op with
  | Some (latency, c) =>
    if d <=? now w + Z.max 0 latency
    then (Rejected aborted_error, advance d w)
    else lift c (advance (now w + Z.max 0 latency) w)
  | None => (Rejected aborted_error, advance d w)
  end.
Proof.
  intros [Hab Hat]. unfold await_abortable. rewrite Hab, Hat. reflexivity.
Qed.

(** ** The transport core *)

Section TransportCore.

Variables (endpoint : jsstring) (options : RequestInit).

Lemma request_unfold w :
  PriceDBClient.request endpoint options w =
  try_finally (try_block (baseUrl (this w) ++ endpoint) (init_of w options))
              (clearTimeout (nextHandle w)) (armed_world w).
Proof. reflexivity. Qed.

Lemma spells_request_same : SpellsClient.request = PriceDBClient.request.
Proof. reflexivity. Qed.

Lemma lift_promise {A} (c : Completion A) w : lift c w = (promise_of c, w).
Proof. destruct c; reflexivity. Qed.

Lemma await_outcome {A} signal (op : option (Z * Completion A)) w :
  let r := fst (await_abortable signal op w) in
  r = Rejected aborted_error \/ r = Pending \/
  exists latency c, op = Some (latency, c) /\ r = promise_of c.
Proof.
  unfold await_abortable.
  destruct (is_aborted signal w); [left; reflexivity|].
  destruct (abort_time signal (timers w)) as [e|], op as [[latency c]|]; simpl;
    try destruct (e <=? _); rewrite ?lift_promise; simpl; eauto 6.
Qed.

Lemma hooked_armed_world w : hooked (nextController w) (armed_world w).
Proof. right. apply abort_time_cons. reflexivity. Qed.

Lemma hooked_log k e w : hooked k w -> hooked k (log e w).
Proof. auto. Qed.

Lemma try_block_facts url init k w :
  req_signal init = Some k -> hooked k w ->
  fst (try_block url init w) <> Pending /\
  exists w', passes (log (Fetch url init) w) w' /\
             passes w' (snd (try_block url init w)).
Proof.
  intros Hsig Hk. unfold try_block, bind, fetch. rewrite Hsig.
  set (op := match server w (now w) url init with
             | Responds latency st c => Some (latency, Normal (mkResponse st c (Some k)))
             | NetworkFails latency reason => Some (latency, Throw (mkException TypeError reason))
             | Silent => None
             end).
  pose proof (await_passes (Some k) op (log (Fetch url init) w)) as Hp.
  pose proof (await_settles k op (log (Fetch url init) w) (hooked_log _ _ _ Hk)) as Hs.
  pose proof (await_outcome (Some k) op (log (Fetch url init) w)) as Ho.
  destruct (await_abortable (Some k) op (log (Fetch url init) w)) as [r w1].
  simpl in *. destruct r as [resp|e|]; [| |congruence].
  - destruct Ho as [Ho|[Ho|(latency & c & Hop & Ho)]]; try discriminate.
    assert (Hr : response_signal resp = Some k).
    { subst op. destruct (server w (now w) url init); inversion Hop; subst c;
        simpl in Ho; inversion Ho; reflexivity. }
    destruct (negb (ok resp)).
    + split; [discriminate|]. exists w1. split; [assumption | constructor].
    + unfold Response_json. rewrite Hr. split.
      * apply await_settles. eapply hooked_passes; [eassumption|]. auto.
      * exists w1. split; [assumption | apply await_passes].
  - split; [discriminate|]. exists w1. split; [assumption | constructor].
Qed.

Lemma request_facts w :
  let h := nextHandle w in
  let w' := snd (PriceDBClient.request endpoint options w) in
  fst (PriceDBClient.request endpoint options w) <> Pending /\
  this w' = this w /\
  server w' = server w /\
  trace w' = trace w ++ [SetTimeout h (timeout (this w));
                         Fetch (baseUrl (this w) ++ endpoint) (init_of w options);
                         ClearTimeout h] /\
  armed h w' = false /\
  nextController w' = nextController w + 1 /\
  nextHandle w' = h + 1 /\
  now w <= now w'.
Proof.
  intros h w'. subst w'. rewrite request_unfold. unfold try_finally.
  destruct (try_block_facts (baseUrl (this w) ++ endpoint) (init_of w options)
              (nextController w) (armed_world w) eq_refl (hooked_armed_world w))
    as (Hs & w1 & Hp1 & Hp2).
  destruct (try_block _ _ (armed_world w)) as [r w2]. simpl in Hs, Hp2.
  apply passes_fields in Hp1 as (T1 & R1 & C1 & H1 & S1 & N1).
  apply passes_fields in Hp2 as (T2 & R2 & C2 & H2 & S2 & N2).
  simpl in *.
  assert (Hclear : forall ts, existsb (fun tm => handle tm =? h)
                    (List.filter (fun tm => negb (handle tm =? h)) ts) = false).
  { intros ts. apply not_true_is_false. rewrite existsb_exists.
    intros (tm & Hin & Hh). apply filter_In in Hin as [_ Hn].
    rewrite Hh in Hn. discriminate. }
  destruct r; simpl; try congruence;
    (repeat split; try congruence; try lia;
     [ rewrite R2, R1, <- !app_assoc; reflexivity | apply Hclear ]).
Qed.

Lemma timer_delay_nonneg ms : 0 <= timer_delay ms.
Proof. destruct ms; simpl; lia. Qed.

Lemma timer_delay_in_range z : 0 <= z <= 2147483647 -> timer_delay (Int z) = z.
Proof.
  intros Hz. unfold timer_delay, ToInt32.
  rewrite Z.mod_small by lia. lia.
Qed.

Lemma guarded_armed_world w :
  consistent w -> guarded (nextController w) (deadline w) (armed_world w).
Proof.
  intros [Hab Htm]. split.
  - simpl. apply bool_decide_eq_false. intros Hin. apply Hab in Hin. lia.
  - unfold armed_world; simpl. rewrite Z.eqb_refl.
    change (foldr _ None (timers w)) with (abort_time (Some (nextController w)) (timers w)).
    rewrite abort_time_untargeted; auto.
Qed.

Lemma request_round_trip w :
  consistent w ->
  let reply := server w (now w) (baseUrl (this w) ++ endpoint) (init_of w options) in
  fst (PriceDBClient.request endpoint options w) = fst (round_trip w reply) /\
  now (snd (PriceDBClient.request endpoint options w)) = snd (round_trip w reply).
Proof.
  intros Hc reply. rewrite request_unfold.
  pose proof (guarded_armed_world w Hc) as Hg.
  pose proof (timer_delay_nonneg (timeout (this w))) as Hd.
  set (k := nextController w) in *. set (d := deadline w) in *.
  assert (Hnow : now w <= d) by (subst d; unfold deadline; lia).
  unfold try_finally, try_block, bind, fetch.
  change (req_signal (init_of w options)) with (Some k).
  change (server (armed_world w) (now (armed_world w))) with (server w (now w)).
  fold reply.
  set (w3 := log _ (armed_world w)).
  assert (Hg3 : guarded k d w3) by exact Hg.
  rewrite (await_guarded k d _ w3 Hg3).
  change (now w3) with (now w).
  unfold round_trip. fold d.
  destruct reply as [latency st c | latency reason | ]; simpl.
  - destruct (Z.leb_spec d (now w + Z.max 0 latency)) as [Hle|Hlt]; simpl.
    + split; [reflexivity | lia].
    + unfold ok; simpl.
      destruct (negb ((200 <=? st) && (st <=? 299))); simpl.
      * split; [reflexivity | lia].
      * unfold Response_json; simpl.
        assert (Hg4 : guarded k d (advance (now w + Z.max 0 latency) w3))
          by (apply guarded_advance; assumption).
        rewrite (await_guarded k d _ _ Hg4). simpl.
        replace (Z.max (now w) (now w + Z.max 0 latency))
          with (now w + Z.max 0 latency) by lia.
        destruct c as [latency' [v|why]|]; simpl;
          try destruct (Z.leb_spec d (now w + Z.max 0 latency + Z.max 0 latency'));
          simpl; (split; [reflexivity | lia]).
  - destruct (Z.leb_spec d (now w + Z.max 0 latency)) as [Hle|Hlt]; simpl.
    + split; [reflexivity | lia].
    + split; [reflexivity | lia].
  - split; [reflexivity | lia].
Qed.

Lemma consistent_advance t w : consistent w -> consistent (advance t w).
Proof.
  intros [Hab Htm]. split; simpl.
  - intros k. rewrite elem_of_union, elem_of_list_to_set, list_elem_of_In, in_map_iff.
    intros [?|(tm & <- & Hin)]; [auto|].
    apply filter_In in Hin as [Hin _].
    rewrite Forall_forall in Htm. apply Htm. apply list_elem_of_In, Hin.
  - apply Forall_filter_keep, Htm.
Qed.

Lemma consistent_passes w w' : passes w w' -> consistent w -> consistent w'.
Proof. destruct 1; auto using consistent_advance. Qed.

Lemma consistent_armed_world w : consistent w -> consistent (armed_world w).
Proof.
  intros [Hab Htm]. split; simpl.
  - intros k Hk. apply Hab in Hk. lia.
  - constructor; simpl; [lia|].
    eapply Forall_impl; [exact Htm|]. simpl. intros; lia.
Qed.

Lemma request_consistent w :
  consistent w -> consistent (snd (PriceDBClient.request endpoint options w)).
Proof.
  intros Hc. rewrite request_unfold. unfold try_finally.
  destruct (try_block_facts (baseUrl (this w) ++ endpoint) (init_of w options)
              (nextController w) (armed_world w) eq_refl (hooked_armed_world w))
    as (Hs & w1 & Hp1 & Hp2).
  assert (H2 : consistent (snd (try_block (baseUrl (this w) ++ endpoint)
                                  (init_of w options) (armed_world w)))).
  { eapply consistent_passes; [exact Hp2|].
    eapply consistent_passes; [exact Hp1|].
    apply (consistent_armed_world w Hc). }
  destruct (try_block _ _ (armed_world w)) as [r w2]. simpl in *.
  destruct H2 as [Hab Htm].
  destruct r; simpl; try congruence; (split; simpl; [assumption | apply Forall_filter_keep, Htm]).
Qed.

End TransportCore.

(** ** Every endpoint method is one call of the transport core *)

Lemma list_pair_ind {A} (P : list A -> Prop) :
  P [] -> (forall a, P [a]) ->
  (forall a b l, P l -> P (b :: l) -> P (a :: b :: l)) ->
  forall l, P l.
Proof.
  intros H0 H1 H2 l.
  assert (H : P l /\ forall a, P (a :: l)); [|tauto].
  induction l as [|b l [IHl IHbl]]; [auto|].
  split; [apply IHbl|]. intros a. apply H2; auto.
Qed.

Lemma Encode_throws u s e : Encode u s = Throw e -> e = URI_malformed.
Proof.
  revert e. induction s as [|C|C second rest IH1 IH2] using list_pair_ind; intros e.
  - discriminate.
  - simpl. destruct (u C); [discriminate|].
    destruct (is_leading_surrogate C); [congruence|].
    destruct (is_trailing_surrogate C); [congruence | discriminate].
  - change (Encode u (C :: second :: rest)) with
      (if u C then R <~ Encode u (second :: rest) ;; Normal (C :: R)
       else if is_leading_surrogate C then
         if is_trailing_surrogate second then
           R <~ Encode u rest ;;
           Normal (percent_octets (utf8 (UTF16SurrogatePairToCodePoint C second)) ++ R)
         else Throw URI_malformed
       else if is_trailing_surrogate C then Throw URI_malformed
       else R <~ Encode u (second :: rest) ;; Normal (percent_octets (utf8 C) ++ R)).
    destruct (u C).
    + destruct (Encode u (second :: rest)) eqn:E; simpl; [discriminate|].
      intros [= <-]. auto.
    + destruct (is_leading_surrogate C).
      * destruct (is_trailing_surrogate second); [|congruence].
        destruct (Encode u rest) eqn:E; simpl; [discriminate|].
        intros [= <-]. auto.
      * destruct (is_trailing_surrogate C); [congruence|].
        destruct (Encode u (second :: rest)) eqn:E; simpl; [discriminate|].
        intros [= <-]. auto.
Qed.

Lemma invoke_shape c :
  (forall w, invoke c w = (Rejected URI_malformed, w)) \/
  (exists endpoint options,
      req_headers options = None /\
      forall w, invoke c w = PriceDBClient.request endpoint options w).
Proof.
  destruct c as [[]|[]]; simpl;
    try (right; do 2 eexists; split; [|intros w; reflexivity]; reflexivity).
  - unfold PriceDBClient.getItem, bind.
    destruct (encodeURIComponent sku) as [seg|e] eqn:E.
    + right. do 2 eexists. split; [|intros w; reflexivity]. reflexivity.
    + left. apply Encode_throws in E. subst e. reflexivity.
  - unfold PriceDBClient.getItemHistory, bind.
    destruct (truthy_string _);
      (destruct (encodeURIComponent sku) as [seg|e] eqn:E;
       [ right; do 2 eexists; split; [|intros w; reflexivity]; reflexivity
       | left; apply Encode_throws in E; subst e; reflexivity ]).
  - unfold PriceDBClient.getItemStats, bind.
    destruct (encodeURIComponent sku) as [seg|e] eqn:E.
    + right. do 2 eexists. split; [|intros w; reflexivity]. reflexivity.
    + left. apply Encode_throws in E. subst e. reflexivity.
  - unfold PriceDBClient.compareItems, bind.
    destruct (encodeURIComponent sku1) as [seg1|e] eqn:E1.
    + destruct (encodeURIComponent sku2) as [seg2|e] eqn:E2.
      * right. do 2 eexists. split; [|intros w; reflexivity]. reflexivity.
      * left. apply Encode_throws in E2. subst e. reflexivity.
    + left. apply Encode_throws in E1. subst e. reflexivity.
Qed.

(** The same, with the calls that fail before the transport core told
    apart by their arguments: they are the calls with a sku that cannot be
    encoded, and no others. *)
Lemma invoke_decided c :
  (unencodable c /\ forall w, invoke c w = (Rejected URI_malformed, w)) \/
  (~ unencodable c /\
   exists endpoint options,
     req_headers options = None /\
     forall w, invoke c w = PriceDBClient.request endpoint options w).
Proof.
  assert (Hone : forall c sku seg,
             path_skus c = [sku] -> encodeURIComponent sku = Normal seg -> ~ unencodable c).
  { intros c0 sku seg Hp Hs (s0 & Hin & Hthrow). rewrite Hp in Hin.
    destruct Hin as [<-|[]]. congruence. }
  assert (Hthrow : forall c sku e,
             In sku (path_skus c) -> encodeURIComponent sku = Throw e ->
             unencodable c /\ e = URI_malformed).
  { intros c0 sku e Hin He. pose proof (Encode_throws _ _ _ He) as ->.
    split; [exists sku; auto | reflexivity]. }
  destruct c as [[]|[]]; simpl;
    try (right; split; [intros (sku & [] & _)|];
         do 2 eexists; split; [|intros w; reflexivity]; reflexivity).
  - unfold PriceDBClient.getItem, bind.
    destruct (encodeURIComponent sku) as [seg|e] eqn:E.
    + right. split; [eapply Hone; [reflexivity | exact E]|].
      do 2 eexists. split; [|intros w; reflexivity]. reflexivity.
    + left. destruct (Hthrow (OnPriceDB (PriceDBClient.GetItem sku)) sku e) as [Hu ->];
        [left; reflexivity | exact E |]. split; [exact Hu | reflexivity].
  - unfold PriceDBClient.getItemHistory, bind.
    destruct (truthy_string _);
      (destruct (encodeURIComponent sku) as [seg|e] eqn:E;
       [ right; split; [eapply Hone; [reflexivity | exact E]|];
         do 2 eexists; split; [|intros w; reflexivity]; reflexivity
       | left;
         destruct (Hthrow (OnPriceDB (PriceDBClient.GetItemHistory sku options)) sku e)
           as [Hu ->]; [left; reflexivity | exact E |]; split; [exact Hu | reflexivity] ]).
  - unfold PriceDBClient.getItemStats, bind.
    destruct (encodeURIComponent sku) as [seg|e] eqn:E.
    + right. split; [eapply Hone; [reflexivity | exact E]|].
      do 2 eexists. split; [|intros w; reflexivity]. reflexivity.
    + left. destruct (Hthrow (OnPriceDB (PriceDBClient.GetItemStats sku)) sku e) as [Hu ->];
        [left; reflexivity | exact E |]. split; [exact Hu | reflexivity].
  - unfold PriceDBClient.compareItems, bind.
    destruct (encodeURIComponent sku1) as [seg1|e] eqn:E1.
    + destruct (encodeURIComponent sku2) as [seg2|e] eqn:E2.
      * right. split.
        { intros (s0 & Hin & Hs). cbn [path_skus In] in Hin.
          destruct Hin as [<-|[<-|[]]]; congruence. }
        do 2 eexists. split; [|intros w; reflexivity]. reflexivity.
      * left.
        destruct (Hthrow (OnPriceDB (PriceDBClient.CompareItems sku1 sku2)) sku2 e)
          as [Hu ->]; [right; left; reflexivity | exact E2 |].
        split; [exact Hu | reflexivity].
    + left.
      destruct (Hthrow (OnPriceDB (PriceDBClient.CompareItems sku1 sku2)) sku1 e)
        as [Hu ->]; [left; reflexivity | exact E1 |].
      split; [exact Hu | reflexivity].
Qed.

Lemma events_request endpoint options w :
  events (PriceDBClient.request endpoint options) w =
  [SetTimeout (nextHandle w) (timeout (this w));
   Fetch (baseUrl (this w) ++ endpoint) (init_of w options);
   ClearTimeout (nextHandle w)].
Proof.
  unfold events.
  destruct (request_facts endpoint options w) as (_ & _ & _ & Htr & _).
  rewrite Htr. apply drop_app_length.
Qed.

Lemma events_rejected {A} (m : M A) e w : m w = (Rejected e, w) -> events m w = [].
Proof.
  intros H. unfold events. rewrite H. simpl. apply drop_all.
Qed.

Lemma invoke_this c w : this (snd (invoke c w)) = this w.
Proof.
  destruct (invoke_shape c) as [H|(endpoint & options & Hh & H)]; rewrite H.
  - reflexivity.
  - apply request_facts.
Qed.

Lemma invoke_settles c w : fst (invoke c w) <> Pending.
Proof.
  destruct (invoke_shape c) as [H|(endpoint & options & Hh & H)]; rewrite H.
  - discriminate.
  - apply request_facts.
Qed.

Lemma invoke_consistent c w : consistent w -> consistent (snd (invoke c w)).
Proof.
  destruct (invoke_shape c) as [H|(endpoint & options & Hh & H)]; rewrite H.
  - auto.
  - apply request_consistent.
Qed.

Lemma run_this calls w : this (run calls w) = this w.
Proof.
  revert w. induction calls as [|c calls IH]; intros w; simpl; [reflexivity|].
  pose proof (invoke_this c w) as Hc.
  destruct (invoke c w) as [[v|e|] w']; simpl in Hc; rewrite ?IH; exact Hc.
Qed.

Lemma run_consistent calls w : consistent w -> consistent (run calls w).
Proof.
  revert w. induction calls as [|c calls IH]; intros w Hw; simpl; [assumption|].
  pose proof (invoke_consistent c w Hw) as Hc.
  destruct (invoke c w) as [[v|e|] w']; simpl in Hc; auto.
Qed.

Lemma boot_consistent i srv : consistent (boot i srv).
Proof.
  split; simpl; [|constructor]. intros k Hk. apply not_elem_of_empty in Hk. contradiction.
Qed.

Lemma invoke_requests c w w0 :
  this w0 = this w ->
  sent (invoke c) w = sent (invoke c) w0.
Proof.
  intros Hthis. unfold sent.
  destruct (invoke_shape c) as [H|(endpoint & options & Hh & H)].
  - rewrite (events_rejected _ _ _ (H w)), (events_rejected _ _ _ (H w0)). reflexivity.
  - unfold events. rewrite !H.
    change (requests (events (PriceDBClient.request endpoint options) w) =
            requests (events (PriceDBClient.request endpoint options) w0)).
    rewrite !events_request. simpl. rewrite Hthis. reflexivity.
Qed.

(** ** Claims about the transport core *)

(** C6. On every execution path of the transport core of either client
    (whatever the server does and whenever it does it: success, non-success
    status, a body that does not parse, a network failure, a timeout abort)
    the call settles, and when it does the timer set at its start has been
    cleared: [clearTimeout] on its handle is the last thing the call did and
    no timer with that handle remains armed. *)
Theorem timer_cleared_on_every_path endpoint options w :
  cleanup_done (PriceDBClient.request endpoint options) w /\
  cleanup_done (SpellsClient.request endpoint options) w.
Proof.
  rewrite spells_request_same.
  assert (H : cleanup_done (PriceDBClient.request endpoint options) w); [|tauto].
  destruct (request_facts endpoint options w) as (Hs & _ & _ & Htr & Harm & _).
  repeat split; [exact Hs | exact Harm |].
  exists [Fetch (baseUrl (this w) ++ endpoint) (init_of w options)].
  rewrite Htr. reflexivity.
Qed.

(** The five kinds of outcome C6 lists are all there is. *)
Lemma request_paths endpoint options w :
  consistent w ->
  let r := fst (PriceDBClient.request endpoint options w) in
  (exists v, r = Fulfilled v) \/
  (exists st, r = Rejected (mkException Error
                            (lit "HTTP error! status: " ++ Number_toString (Int st)))) \/
  (exists why, r = Rejected (mkException SyntaxError why)) \/
  (exists reason, r = Rejected (mkException TypeError reason)) \/
  r = Rejected aborted_error.
Proof.
  intros Hc r. subst r.
  destruct (request_round_trip endpoint options w Hc) as [-> _].
  unfold round_trip.
  destruct (server w (now w) _ _) as [latency st [latency' [v|why]|]|latency reason|];
    simpl; repeat (match goal with |- context [if ?b then _ else _] => destruct b end; simpl);
    eauto 10.
Qed.

(** C2. A call of an endpoint method fails before any request exactly when
    one of its skus cannot be encoded, and then with the URIError of
    [encodeURIComponent]; every other call, so every call of the spells
    client and every call without a sku, calls [fetch], and for every
    response to that request that arrives before the timer expires: a status
    outside 200-299 makes the call reject with the error whose message is
    "HTTP error! status: " followed by the status in decimal (so never a
    fulfilled promise); a status inside it never gives an error named Error,
    and the value the body parses to, when it arrives in time, is what the
    call is fulfilled with. *)
Theorem status_decides_outcome (c : AnyCall) (w : World) :
  consistent w ->
  (unencodable c -> invoke c w = (Rejected URI_malformed, w)) /\
  (~ unencodable c ->
   exists url init,
     In (Fetch url init) (events (invoke c) w) /\
     forall latency st body,
       server w (now w) url init = Responds latency st body ->
       now w + Z.max 0 latency < deadline w ->
       ((st < 200 \/ 299 < st) ->
        fst (invoke c w) =
        Rejected (mkException Error (lit "HTTP error! status: " ++ Number_toString (Int st)))) /\
       (200 <= st <= 299 ->
        (forall e, fst (invoke c w) = Rejected e -> name e <> Error) /\
        (forall latency' v,
            body = BodyAfter latency' (inl v) ->
            now w + Z.max 0 latency + Z.max 0 latency' < deadline w ->
            fst (invoke c w) = Fulfilled v))).
Proof.
  intros Hc.
  destruct (invoke_decided c) as [[Hu H]|(Hn & endpoint & options & Hh & H)];
    (split; [intros Hu'; first [apply H | contradiction] | intros Hn'; try contradiction]).
  exists (baseUrl (this w) ++ endpoint), (init_of w options).
  split.
  { unfold events. rewrite H.
    change (In (Fetch (baseUrl (this w) ++ endpoint) (init_of w options))
               (events (PriceDBClient.request endpoint options) w)).
    rewrite events_request. right; left. reflexivity. }
  intros latency st body Hreply Hintime. rewrite H.
  destruct (request_round_trip endpoint options w Hc) as [-> _].
  rewrite Hreply. unfold round_trip.
  destruct (Z.leb_spec (deadline w) (now w + Z.max 0 latency)); [lia|].
  split.
  - intros Hst.
    replace ((200 <=? st) && (st <=? 299)) with false; [reflexivity|].
    symmetry. apply andb_false_iff. rewrite Z.leb_gt, Z.leb_gt. lia.
  - intros Hst.
    replace ((200 <=? st) && (st <=? 299)) with true
      by (symmetry; apply andb_true_iff; rewrite !Z.leb_le; lia).
    simpl. split.
    + intros e. destruct body as [latency' [v|why]|];
        repeat (match goal with |- context [if ?b then _ else _] => destruct b end);
        simpl; intros [= <-]; discriminate.
    + intros latency' v -> Hbody.
      destruct (Z.leb_spec (deadline w) (now w + Z.max 0 latency + Z.max 0 latency')); [lia|].
      reflexivity.
Qed.

(** C5. No endpoint call changes the fields of the client, and the requests
    (URL, method, body) a call issues are the same in any two worlds that
    hold the same fields: those of a second call after a first are the ones
    it would issue on a client that never made the first call. *)
Theorem calls_share_no_state (c1 c2 : AnyCall) (w : World) :
  this (snd (invoke c1 w)) = this w /\
  forall w0, this w0 = this w ->
             sent (invoke c2) (snd (invoke c1 w)) = sent (invoke c2) w0.
Proof.
  split; [apply invoke_this|].
  intros w0 H0. apply invoke_requests. rewrite invoke_this. exact H0.
Qed.

(** C7. [getItemsBulk] with the empty list reaches [fetch]: between setting
    and clearing its timer it issues one request, to the base URL followed
    by "/api/items-bulk", with method POST, the JSON text of an object whose
    only property "skus" is the empty array as body, and the client's
    headers. *)
Theorem bulk_lookup_of_nothing (w : World) :
  events (PriceDBClient.getItemsBulk []) w =
  [SetTimeout (nextHandle w) (timeout (this w));
   Fetch (baseUrl (this w) ++ lit "/api/items-bulk")
         {| req_method := Some (lit "POST");
            req_body := Some (lit "{" ++ dq ++ lit "skus" ++ dq ++ lit ":[]}");
            req_headers := Some (headers (this w));
            req_signal := Some (nextController w) |};
   ClearTimeout (nextHandle w)].
Proof.
  unfold PriceDBClient.getItemsBulk. rewrite events_request. reflexivity.
Qed.

(** C8. Item lookup returns what the body parses to, unchanged: when the
    server answers the request of [getItem] with a status in 200-299 and a
    body that parses to [v], both in time, the call is fulfilled with [v]
    itself, whatever [v] is (in particular the item of the scenario). *)
Theorem item_passes_through (w : World) (sku segment : jsstring) latency latency' st (v : JSON) :
  consistent w ->
  encodeURIComponent sku = Normal segment ->
  server w (now w) (baseUrl (this w) ++ lit "/api/item/" ++ segment) (init_of w no_options)
  = Responds latency st (BodyAfter latency' (inl v)) ->
  200 <= st <= 299 ->
  now w + Z.max 0 latency + Z.max 0 latency' < deadline w ->
  fst (PriceDBClient.getItem sku w) = Fulfilled v.
Proof.
  intros Hc Henc Hreply Hst Htime.
  unfold PriceDBClient.getItem, bind. rewrite Henc.
  change (fst (PriceDBClient.request (lit "/api/item/" ++ segment) no_options w) = Fulfilled v).
  destruct (request_round_trip (lit "/api/item/" ++ segment) no_options w Hc) as [-> _].
  rewrite Hreply. unfold round_trip.
  destruct (Z.leb_spec (deadline w) (now w + Z.max 0 latency)); [lia|].
  replace ((200 <=? st) && (st <=? 299)) with true
    by (symmetry; apply andb_true_iff; rewrite !Z.leb_le; lia).
  simpl.
  destruct (Z.leb_spec (deadline w) (now w + Z.max 0 latency + Z.max 0 latency')); [lia|].
  reflexivity.
Qed.

Lemma timer_delay_bounded z : 0 <= z -> 0 <= timer_delay (Int z) <= z.
Proof.
  intros Hz. unfold timer_delay, ToInt32.
  pose proof (Z.mod_le (z + 2147483648) 4294967296 ltac:(lia) ltac:(lia)). lia.
Qed.

(** C3, as the code has it. For every positive timeout [T] given at
    construction, and for 10000 when none or 0 is given, a call of any
    endpoint method against a server that never responds does not hang.  A
    call with a sku that cannot be encoded is rejected at once with the
    URIError, before any timer is set.  Every other call sets one timer with
    the delay [T], calls [fetch] once, and is rejected with the AbortError
    when the timer expires, which is at most [T] milliseconds of the clock
    after the call started and exactly [T] when [T] is at most 2^31-1; the
    timer is cleared then. *)
Theorem silent_server_fails_at_timeout
        (configured : option number) (T : Z) (c : AnyCall) (w : World) :
  (configured = Some (Int T) /\ 1 <= T) \/
  ((configured = None \/ configured = Some (Int 0)) /\ T = 10000) ->
  (exists b h, this w = PriceDBClient.constructor (PriceDBClient.mkConfig b configured h)) \/
  (exists b h, this w = SpellsClient.constructor (SpellsClient.mkConfig b configured h)) ->
  consistent w ->
  silent w ->
  exists d,
    fails_after d (invoke c) w /\ 0 <= d <= T /\ (T <= 2147483647 -> d = T) /\
    (unencodable c -> invoke c w = (Rejected URI_malformed, w)) /\
    (~ unencodable c ->
     fst (invoke c w) = Rejected aborted_error /\
     now (snd (invoke c w)) = now w + d /\
     exists url init,
       events (invoke c) w =
       [SetTimeout (nextHandle w) (Int T); Fetch url init; ClearTimeout (nextHandle w)]).
Proof.
  intros Hcfg Hthis Hc Hsilent.
  assert (Hpos : 1 <= T) by (destruct Hcfg as [[_ ?]|[_ ->]]; lia).
  assert (Ht : timeout (this w) = Int T).
  { destruct Hthis as [(b & h & ->)|(b & h & ->)]; simpl;
      (destruct Hcfg as [[-> HT]|[[->| ->] ->]]; simpl; [|reflexivity..];
       destruct (Z.eqb_spec T 0); [lia | reflexivity]). }
  exists (timer_delay (Int T)).
  assert (Hfail : fails_after (timer_delay (Int T)) (invoke c) w /\
                  (unencodable c -> invoke c w = (Rejected URI_malformed, w)) /\
                  (~ unencodable c ->
                   fst (invoke c w) = Rejected aborted_error /\
                   now (snd (invoke c w)) = now w + timer_delay (Int T) /\
                   exists url init,
                     events (invoke c) w =
                     [SetTimeout (nextHandle w) (Int T); Fetch url init;
                      ClearTimeout (nextHandle w)])).
  { unfold fails_after.
    destruct (invoke_decided c) as [[Hu H]|(Hn & endpoint & options & Hh & H)].
    - split; [|split; [intros _; apply H | intros Hn; contradiction]].
      rewrite H. exists URI_malformed. split; [reflexivity|]. left. split; reflexivity.
    - assert (Hab : fst (invoke c w) = Rejected aborted_error /\
                    now (snd (invoke c w)) = now w + timer_delay (Int T)).
      { rewrite H. destruct (request_round_trip endpoint options w Hc) as [-> ->].
        rewrite Hsilent. simpl. split; [reflexivity|].
        unfold deadline. rewrite Ht. reflexivity. }
      destruct Hab as [Hr Hn'].
      split; [|split; [intros Hu; contradiction|intros _]].
      + exists aborted_error. split; [exact Hr|]. right. split; [reflexivity | exact Hn'].
      + split; [exact Hr|]. split; [exact Hn'|].
        exists (baseUrl (this w) ++ endpoint), (init_of w options).
        unfold events. rewrite H.
        change (events (PriceDBClient.request endpoint options) w =
                [SetTimeout (nextHandle w) (Int T);
                 Fetch (baseUrl (this w) ++ endpoint) (init_of w options);
                 ClearTimeout (nextHandle w)]).
        rewrite events_request, Ht. reflexivity. }
  destruct Hfail as (Hf & Hu & Hn).
  split; [exact Hf|]. split; [apply timer_delay_bounded; lia|].
  split; [intros Hmax; apply timer_delay_in_range; lia|].
  split; assumption.
Qed.

(** C3 fails for the timeout 0: the client replaces it by 10000, so against
    a silent server the health check is rejected after 10000 milliseconds,
    not after 0. *)
Lemma zero_timeout_waits_ten_seconds :
  timeout (this zero_timeout_world) = Int 10000 /\
  now zero_timeout_world = 0 /\
  now (snd (PriceDBClient.health zero_timeout_world)) = 10000 /\
  fails_after 10000 PriceDBClient.health zero_timeout_world /\
  ~ fails_after 0 PriceDBClient.health zero_timeout_world.
Proof.
  assert (Hc : consistent zero_timeout_world) by apply boot_consistent.
  destruct (request_round_trip (lit "/api/") no_options zero_timeout_world Hc) as [Hr Hn].
  change (fst (PriceDBClient.health zero_timeout_world) = Rejected aborted_error) in Hr.
  change (now (snd (PriceDBClient.health zero_timeout_world)) = 10000) in Hn.
  split; [reflexivity|]. split; [reflexivity|]. split; [exact Hn|]. split.
  - exists aborted_error. split; [exact Hr|]. right. split; [reflexivity | exact Hn].
  - intros (e & _ & [[_ H]|[_ H]]); rewrite Hn in H; discriminate.
Qed.

(** ** Claims about construction and URL building *)

Lemma invoke_headers c w url init :
  In (Fetch url init) (events (invoke c) w) ->
  req_headers init = Some (headers (this w)).
Proof.
  destruct (invoke_shape c) as [H|(endpoint & options & Hh & H)].
  - rewrite (events_rejected _ _ _ (H w)). intros [].
  - unfold events. rewrite H.
    change (In (Fetch url init) (events (PriceDBClient.request endpoint options) w) ->
            req_headers init = Some (headers (this w))).
    rewrite events_request. simpl.
    intros [[=]|[[= _ <-]|[[=]|[]]]]. simpl. rewrite Hh. reflexivity.
Qed.

(** C1. For every client whose base URL is "https://pricedb.io" and every
    sku, [getGraphUrl(sku, {header: false, height: 400})] completes exactly
    as "https://pricedb.io/api/graph/" ++ encodeURIComponent(sku) ++
    "?header=false&height=400" does.  The method takes the client fields
    and its arguments and nothing else (no world, so no I/O), and after any
    sequence of endpoint calls on the client it still gives that result. *)
Theorem graph_url_is_deterministic (client : Instance) (sku : jsstring) :
  baseUrl client = lit "https://pricedb.io" ->
  PriceDBClient.getGraphUrl client sku chart_options =
  (segment <~ encodeURIComponent sku ;;
   Normal (lit "https://pricedb.io/api/graph/" ++ segment ++ lit "?header=false&height=400")) /\
  forall calls w,
    this w = client ->
    PriceDBClient.getGraphUrl (this (run calls w)) sku chart_options =
    PriceDBClient.getGraphUrl client sku chart_options.
Proof.
  intros Hbase. split.
  - unfold PriceDBClient.getGraphUrl. rewrite Hbase.
    destruct (encodeURIComponent sku) as [segment|e]; reflexivity.
  - intros calls w <-. rewrite run_this. reflexivity.
Qed.

(** C4. For every headers map [H] given at construction, to either client:
    the client's headers bind "Content-Type" to "application/json" whenever
    [H] does not bind "Content-Type", and every key [H] binds is bound to
    the value [H] gives it.  These headers are the ones in effect: every
    request of every endpoint call carries exactly the client's headers. *)
Theorem default_content_type_survives
        (H : gmap (list Z) (list Z)) (b : option jsstring) (t : option number) :
  let pricedb := PriceDBClient.constructor (PriceDBClient.mkConfig b t (Some H)) in
  let spells := SpellsClient.constructor (SpellsClient.mkConfig b t (Some H)) in
  (H !! lit "Content-Type" = None ->
   headers pricedb !! lit "Content-Type" = Some (lit "application/json") /\
   headers spells !! lit "Content-Type" = Some (lit "application/json")) /\
  (forall k v, H !! k = Some v ->
               headers pricedb !! k = Some v /\ headers spells !! k = Some v) /\
  (forall c w url init,
      In (Fetch url init) (events (invoke c) w) ->
      req_headers init = Some (headers (this w))).
Proof.
  simpl. split; [|split].
  - intros Hnone. rewrite lookup_union_r by exact Hnone.
    unfold default_headers. rewrite lookup_singleton_eq. auto.
  - intros k v Hk. split; apply lookup_union_Some_l, Hk.
  - apply invoke_headers.
Qed.

(** C9. A numeric query option equal to 0 is left out: with [limit] or
    [offset] 0 [getPrices] issues the request it issues without that
    option, and so do [getItemHistory] with [start] or [end] 0 and [search]
    with [limit] 0.  So with both options 0 [getPrices] asks for the bare
    "/api/prices", and [search] with [limit] 0 for "/api/search?q=" and the
    encoded query alone. *)
Theorem zero_options_are_omitted
        (w : World) (sku query : jsstring) (other : option number) :
  sent (PriceDBClient.getPrices (PaginationOptions.mk (Some (Int 0)) other)) w =
  sent (PriceDBClient.getPrices (PaginationOptions.mk None other)) w /\
  sent (PriceDBClient.getPrices (PaginationOptions.mk other (Some (Int 0)))) w =
  sent (PriceDBClient.getPrices (PaginationOptions.mk other None)) w /\
  sent (PriceDBClient.getItemHistory sku (HistoryOptions.mk (Some (Int 0)) other)) w =
  sent (PriceDBClient.getItemHistory sku (HistoryOptions.mk None other)) w /\
  sent (PriceDBClient.getItemHistory sku (HistoryOptions.mk other (Some (Int 0)))) w =
  sent (PriceDBClient.getItemHistory sku (HistoryOptions.mk other None)) w /\
  sent (PriceDBClient.search (SearchOptions.mk query (Some (Int 0)))) w =
  sent (PriceDBClient.search (SearchOptions.mk query None)) w /\
  sent (PriceDBClient.getPrices (PaginationOptions.mk (Some (Int 0)) (Some (Int 0)))) w =
  [(baseUrl (this w) ++ lit "/api/prices", None, None)] /\
  sent (PriceDBClient.search (SearchOptions.mk query (Some (Int 0)))) w =
  [(baseUrl (this w) ++ lit "/api/search?q=" ++ urlencoded (to_scalar_values query),
    None, None)].
Proof.
  repeat split; try reflexivity.
  - unfold sent.
    change (PriceDBClient.getPrices (PaginationOptions.mk (Some (Int 0)) (Some (Int 0))))
      with (PriceDBClient.request (lit "/api/prices") no_options).
    rewrite events_request. reflexivity.
  - unfold sent.
    change (PriceDBClient.search (SearchOptions.mk query (Some (Int 0))))
      with (PriceDBClient.request
              (lit "/api/search?" ++
               URLSearchParams_toString
                 (URLSearchParams_append URLSearchParams_new (lit "q") query))
              no_options).
    rewrite events_request. reflexivity.
Qed.

(** ** encodeURIComponent *)

Ltac charset :=
  unfold component_unit, delimiter, uriUnescaped, is_ascii_alphanumeric, is_ascii_alpha,
    is_ascii_digit, one_of, hex_digit in *;
  repeat match goal with
         | |- context [lit ?s] =>
           let v := eval vm_compute in (lit s) in change (lit s) with v
         | H : context [lit ?s] |- _ =>
           let v := eval vm_compute in (lit s) in change (lit s) with v in H
         end;
  cbn [existsb] in *;
  repeat rewrite ?orb_true_iff, ?andb_true_iff, ?orb_false_iff, ?andb_false_iff,
    ?Z.leb_le, ?Z.leb_gt, ?Z.ltb_lt, ?Z.ltb_ge, ?Z.eqb_eq, ?Z.eqb_neq in *.

Lemma component_unit_no_delimiter c : component_unit c = true -> delimiter c = false.
Proof.
  charset. lia.
Qed.

Lemma hex_digit_unescaped n : 0 <= n < 16 -> uriUnescaped (hex_digit n) = true.
Proof.
  intros Hn. unfold hex_digit. destruct (Z.ltb_spec n 10); charset; lia.
Qed.

Lemma hex_digit_inj a b : 0 <= a < 16 -> 0 <= b < 16 -> hex_digit a = hex_digit b -> a = b.
Proof.
  unfold hex_digit. intros Ha Hb.
  destruct (Z.ltb_spec a 10), (Z.ltb_spec b 10); lia.
Qed.

Lemma octet_nibbles b : octet b -> 0 <= b / 16 < 16 /\ 0 <= b mod 16 < 16.
Proof.
  unfold octet. intros Hb. split.
  - split; [apply Z.div_pos; lia | apply Z.div_lt_upper_bound; lia].
  - apply Z.mod_pos_bound. lia.
Qed.

Lemma percent_octet_units b : octet b -> Forall (fun c => component_unit c = true) (percent_octet b).
Proof.
  intros Hb. destruct (octet_nibbles b Hb) as [Hhi Hlo].
  unfold percent_octet. repeat constructor.
  - unfold component_unit. rewrite (hex_digit_unescaped _ Hhi). reflexivity.
  - unfold component_unit. rewrite (hex_digit_unescaped _ Hlo). reflexivity.
Qed.

Lemma percent_octets_units bs :
  Forall octet bs -> Forall (fun c => component_unit c = true) (percent_octets bs).
Proof.
  induction 1 as [|b bs Hb _ IH]; [constructor|].
  change (percent_octets (b :: bs)) with (percent_octet b ++ percent_octets bs).
  apply Forall_app. split; [|exact IH].
  apply percent_octet_units, Hb.
Qed.

Lemma percent_octet_inj a b :
  octet a -> octet b -> percent_octet a = percent_octet b -> a = b.
Proof.
  intros Ha Hb [= Hhi Hlo].
  destruct (octet_nibbles a Ha), (octet_nibbles b Hb).
  apply hex_digit_inj in Hhi; [|assumption..].
  apply hex_digit_inj in Hlo; [|assumption..].
  rewrite (Z.div_mod a 16), (Z.div_mod b 16) by lia. congruence.
Qed.

Lemma percent_octets_app_inj bs1 bs2 R1 R2 :
  Forall octet bs1 -> Forall octet bs2 -> length bs1 = length bs2 ->
  percent_octets bs1 ++ R1 = percent_octets bs2 ++ R2 ->
  bs1 = bs2 /\ R1 = R2.
Proof.
  intros H1. revert bs2. induction H1 as [|a bs1 Ha _ IH]; intros [|b bs2] H2 Hlen Heq;
    try discriminate.
  - split; [reflexivity | exact Heq].
  - inversion H2 as [|? ? Hb H2']; subst.
    unfold percent_octets in Heq. simpl in Heq.
    injection Heq as Hhi Hlo Hrest.
    assert (a = b) by (apply percent_octet_inj; [assumption..| unfold percent_octet; congruence]).
    subst b. injection Hlen as Hlen.
    destruct (IH bs2 H2' Hlen Hrest) as [-> ->]. auto.
Qed.

Ltac euclid := Z.to_euclidean_division_equations; lia.

Lemma utf8_octets cp : scalar cp -> Forall octet (utf8 cp).
Proof.
  unfold scalar, utf8, octet. intros Hcp.
  destruct (Z.ltb_spec cp 128); [|destruct (Z.ltb_spec cp 2048); [|destruct (Z.ltb_spec cp 65536)]];
    repeat constructor; euclid.
Qed.

Lemma utf8_head cp : exists b bs, utf8 cp = b :: bs.
Proof.
  unfold utf8. repeat (match goal with |- context [if ?c then _ else _] => destruct c end); eauto.
Qed.

Lemma utf8_length_by_head cp1 cp2 :
  scalar cp1 -> scalar cp2 ->
  hd 0 (utf8 cp1) = hd 0 (utf8 cp2) -> length (utf8 cp1) = length (utf8 cp2).
Proof.
  unfold scalar, utf8. intros H1 H2.
  destruct (Z.ltb_spec cp1 128); [|destruct (Z.ltb_spec cp1 2048); [|destruct (Z.ltb_spec cp1 65536)]];
    (destruct (Z.ltb_spec cp2 128); [|destruct (Z.ltb_spec cp2 2048); [|destruct (Z.ltb_spec cp2 65536)]]);
    simpl; intros Hhd; try reflexivity; exfalso; euclid.
Qed.

Lemma utf8_inj cp1 cp2 : scalar cp1 -> scalar cp2 -> utf8 cp1 = utf8 cp2 -> cp1 = cp2.
Proof.
  intros H1 H2 Heq.
  assert (Hlen : length (utf8 cp1) = length (utf8 cp2)) by (rewrite Heq; reflexivity).
  revert Heq Hlen. unfold scalar, utf8 in *.
  destruct (Z.ltb_spec cp1 128); [|destruct (Z.ltb_spec cp1 2048); [|destruct (Z.ltb_spec cp1 65536)]];
    (destruct (Z.ltb_spec cp2 128); [|destruct (Z.ltb_spec cp2 2048); [|destruct (Z.ltb_spec cp2 65536)]]);
    simpl; intros Heq Hlen; try discriminate Hlen; injection Heq; intros; euclid.
Qed.

(** Escaped code points are told apart by their escapes. *)
Lemma escapes_inj cp1 cp2 R1 R2 :
  scalar cp1 -> scalar cp2 ->
  percent_octets (utf8 cp1) ++ R1 = percent_octets (utf8 cp2) ++ R2 ->
  cp1 = cp2 /\ R1 = R2.
Proof.
  intros H1 H2 Heq.
  pose proof (utf8_octets cp1 H1) as O1. pose proof (utf8_octets cp2 H2) as O2.
  assert (Hlen : length (utf8 cp1) = length (utf8 cp2)).
  { apply utf8_length_by_head; [assumption..|].
    destruct (utf8_head cp1) as (b1 & bs1 & E1), (utf8_head cp2) as (b2 & bs2 & E2).
    rewrite E1, E2 in *. simpl.
    inversion O1; inversion O2; subst.
    unfold percent_octets in Heq. simpl in Heq. injection Heq as Hhi Hlo _.
    apply percent_octet_inj; [assumption..| unfold percent_octet; congruence]. }
  destruct (percent_octets_app_inj _ _ _ _ O1 O2 Hlen Heq) as [Hu ->].
  split; [apply utf8_inj; assumption | reflexivity].
Qed.

Lemma escapes_start cp R : exists tl, percent_octets (utf8 cp) ++ R = 37 :: tl.
Proof.
  destruct (utf8_head cp) as (b & bs & ->). unfold percent_octets. simpl. eauto.
Qed.

Lemma unescaped_not_percent C : uriUnescaped C = true -> C <> 37.
Proof. charset. lia. Qed.

Lemma Encode_cons u C rest :
  Encode u (C :: rest) =
  if u C then
    R <~ Encode u rest ;; Normal (C :: R)
  else if is_leading_surrogate C then
    match rest with
    | second :: rest' =>
      if is_trailing_surrogate second then
        R <~ Encode u rest' ;;
        Normal (percent_octets (utf8 (UTF16SurrogatePairToCodePoint C second)) ++ R)
      else Throw URI_malformed
    | [] => Throw URI_malformed
    end
  else if is_trailing_surrogate C then Throw URI_malformed
  else
    R <~ Encode u rest ;; Normal (percent_octets (utf8 C) ++ R).
Proof. reflexivity. Qed.

(** One step of [Encode], inverted. *)
Lemma Encode_step u C rest o :
  Encode u (C :: rest) = Normal o ->
  (u C = true /\ exists R, Encode u rest = Normal R /\ o = C :: R) \/
  (u C = false /\ is_leading_surrogate C = true /\
   exists second rest' R,
     rest = second :: rest' /\ is_trailing_surrogate second = true /\
     Encode u rest' = Normal R /\
     o = percent_octets (utf8 (UTF16SurrogatePairToCodePoint C second)) ++ R) \/
  (u C = false /\ is_leading_surrogate C = false /\ is_trailing_surrogate C = false /\
   exists R, Encode u rest = Normal R /\ o = percent_octets (utf8 C) ++ R).
Proof.
  rewrite Encode_cons. destruct (u C).
  - destruct (Encode u rest) as [R|]; cbn [cbind]; [|discriminate].
    intros [= <-]. left. split; [reflexivity|]. exists R. split; reflexivity.
  - destruct (is_leading_surrogate C).
    + destruct rest as [|second rest']; [discriminate|].
      destruct (is_trailing_surrogate second) eqn:Htrail; [|discriminate].
      destruct (Encode u rest') as [R|] eqn:HR; cbn [cbind]; [|discriminate].
      intros [= <-]. right; left. do 2 (split; [reflexivity|]).
      exists second, rest', R. auto.
    + destruct (is_trailing_surrogate C); [discriminate|].
      destruct (Encode u rest) as [R|]; cbn [cbind]; [|discriminate].
      intros [= <-]. right; right. do 3 (split; [reflexivity|]).
      exists R. split; reflexivity.
Qed.

Lemma pair_scalar lead trail :
  is_leading_surrogate lead = true -> is_trailing_surrogate trail = true ->
  65536 <= UTF16SurrogatePairToCodePoint lead trail < 1114112.
Proof.
  unfold is_leading_surrogate, is_trailing_surrogate, UTF16SurrogatePairToCodePoint.
  rewrite !andb_true_iff, !Z.leb_le. lia.
Qed.

Lemma pair_inj l1 t1 l2 t2 :
  is_leading_surrogate l1 = true -> is_trailing_surrogate t1 = true ->
  is_leading_surrogate l2 = true -> is_trailing_surrogate t2 = true ->
  UTF16SurrogatePairToCodePoint l1 t1 = UTF16SurrogatePairToCodePoint l2 t2 ->
  l1 = l2 /\ t1 = t2.
Proof.
  unfold is_leading_surrogate, is_trailing_surrogate, UTF16SurrogatePairToCodePoint.
  rewrite !andb_true_iff, !Z.leb_le. lia.
Qed.

Lemma unit_scalar C : code_unit C -> scalar C /\ C < 65536.
Proof. unfold code_unit, scalar. lia. Qed.

Lemma encoded_units s o :
  well_formed_units s -> encodeURIComponent s = Normal o ->
  Forall (fun c => component_unit c = true) o.
Proof.
  unfold encodeURIComponent, well_formed_units.
  remember (length s) as n eqn:Hn. revert s o Hn.
  induction n as [n IH] using lt_wf_ind. intros [|C rest] o Hn Hwf Henc.
  - injection Henc as <-. constructor.
  - inversion Hwf as [|? ? HC Hrest]; subst. simpl in IH.
    apply Encode_step in Henc
      as [(Hu & R & HR & ->) | [(Hu & Hl & second & rest' & R & -> & Ht & HR & ->)
                               | (Hu & Hl & Ht & R & HR & ->)]].
    + constructor.
      * unfold component_unit. rewrite Hu. reflexivity.
      * eapply (IH (length rest)); [lia | reflexivity | assumption | exact HR].
    + apply Forall_app. split.
      * apply percent_octets_units, utf8_octets.
        pose proof (pair_scalar C second Hl Ht). unfold scalar. lia.
      * inversion Hrest; subst.
        eapply (IH (length rest')); [simpl; lia | reflexivity | assumption | exact HR].
    + apply Forall_app. split.
      * apply percent_octets_units, utf8_octets, unit_scalar, HC.
      * eapply (IH (length rest)); [lia | reflexivity | assumption | exact HR].
Qed.

Lemma encoded_inj s1 s2 o :
  well_formed_units s1 -> well_formed_units s2 ->
  encodeURIComponent s1 = Normal o -> encodeURIComponent s2 = Normal o ->
  s1 = s2.
Proof.
  unfold encodeURIComponent, well_formed_units.
  remember (length s1) as n eqn:Hn. revert s1 s2 o Hn.
  induction n as [n IH] using lt_wf_ind. intros [|C1 r1] [|C2 r2] o Hn Hwf1 Hwf2 H1 H2.
  - reflexivity.
  - injection H1 as <-. exfalso.
    apply Encode_step in H2 as [(_ & R & _ & E) | [(_ & _ & ? & ? & R & _ & _ & _ & E)
                                                 | (_ & _ & _ & R & _ & E)]];
      [discriminate | |];
      match type of E with [] = percent_octets (utf8 ?cp) ++ ?R =>
        destruct (escapes_start cp R) as [tl Htl]; rewrite Htl in E; discriminate end.
  - injection H2 as <-. exfalso.
    apply Encode_step in H1 as [(_ & R & _ & E) | [(_ & _ & ? & ? & R & _ & _ & _ & E)
                                                 | (_ & _ & _ & R & _ & E)]];
      [discriminate | |];
      match type of E with [] = percent_octets (utf8 ?cp) ++ ?R =>
        destruct (escapes_start cp R) as [tl Htl]; rewrite Htl in E; discriminate end.
  - inversion Hwf1 as [|? ? HC1 Hr1]; inversion Hwf2 as [|? ? HC2 Hr2]; subst.
    simpl in IH.
    apply Encode_step in H1
      as [(Hu1 & R1 & HR1 & ->) | [(Hu1 & Hl1 & s1 & t1 & R1 & -> & Ht1 & HR1 & ->)
                                  | (Hu1 & Hl1 & Ht1 & R1 & HR1 & ->)]];
    apply Encode_step in H2
      as [(Hu2 & R2 & HR2 & E) | [(Hu2 & Hl2 & s2 & t2 & R2 & -> & Ht2 & HR2 & E)
                                 | (Hu2 & Hl2 & Ht2 & R2 & HR2 & E)]].
    + injection E as -> ->. f_equal.
      apply (IH (length r1) ltac:(lia) r1 r2 R2 eq_refl); assumption.
    + exfalso. destruct (escapes_start (UTF16SurrogatePairToCodePoint C2 s2) R2) as [tl Htl].
      rewrite Htl in E. injection E as -> _. apply unescaped_not_percent in Hu1. lia.
    + exfalso. destruct (escapes_start C2 R2) as [tl Htl].
      rewrite Htl in E. injection E as -> _. apply unescaped_not_percent in Hu1. lia.
    + exfalso. destruct (escapes_start (UTF16SurrogatePairToCodePoint C1 s1) R1) as [tl Htl].
      rewrite Htl in E. injection E as <- _. apply unescaped_not_percent in Hu2. lia.
    + pose proof (pair_scalar C1 s1 Hl1 Ht1). pose proof (pair_scalar C2 s2 Hl2 Ht2).
      apply escapes_inj in E as [Hcp ->]; [|unfold scalar; lia..].
      apply pair_inj in Hcp as [-> ->]; [|assumption..].
      inversion Hr1; inversion Hr2; subst. do 2 f_equal.
      apply (IH (length t1) ltac:(simpl; lia) t1 t2 R2 eq_refl); assumption.
    + exfalso. pose proof (pair_scalar C1 s1 Hl1 Ht1).
      apply escapes_inj in E as [Hcp _];
        [|unfold scalar; lia | apply unit_scalar, HC2].
      apply unit_scalar in HC2. lia.
    + exfalso. destruct (escapes_start C1 R1) as [tl Htl].
      rewrite Htl in E. injection E as <- _. apply unescaped_not_percent in Hu2. lia.
    + exfalso. pose proof (pair_scalar C2 s2 Hl2 Ht2).
      apply escapes_inj in E as [Hcp _];
        [|apply unit_scalar, HC1 | unfold scalar; lia].
      apply unit_scalar in HC1. lia.
    + apply escapes_inj in E as [-> ->]; [|apply unit_scalar; assumption..].
      f_equal. apply (IH (length r1) ltac:(lia) r1 r2 R2 eq_refl); assumption.
Qed.

Lemma requests_path_request (p : Completion jsstring) (m : M JSON) w :
  (forall w, m w = (x <- lift p ;; PriceDBClient.request x no_options) w) ->
  requests_path m w p.
Proof.
  intros Hm. unfold requests_path. destruct p as [path|e].
  - unfold sent, events. rewrite Hm.
    change (requests (events (PriceDBClient.request path no_options) w) =
            [(baseUrl (this w) ++ path, None, None)]).
    rewrite events_request. reflexivity.
  - rewrite Hm. reflexivity.
Qed.

(** ** The path the URL parser reads *)

Lemma to_scalar_values_cons c rest :
  to_scalar_values (c :: rest) =
  if is_leading_surrogate c then
    match rest with
    | d :: rest' =>
      if is_trailing_surrogate d
      then UTF16SurrogatePairToCodePoint c d :: to_scalar_values rest'
      else 0xFFFD :: to_scalar_values rest
    | [] => [0xFFFD]
    end
  else if is_trailing_surrogate c then 0xFFFD :: to_scalar_values rest
  else c :: to_scalar_values rest.
Proof. reflexivity. Qed.

Lemma lit_code_units s : well_formed_units (lit s).
Proof.
  apply Forall_forall. intros c Hc. apply list_elem_of_In, in_map_iff in Hc as (a & <- & _).
  pose proof (N_ascii_bounded a). unfold code_unit. lia.
Qed.

Lemma component_unit_kept c :
  component_unit c = true ->
  0x20 < c < 0x7F /\ (c =? 47) || (c =? 92) = false /\ (c =? 63) || (c =? 35) = false /\
  path_percent_encode_set c = false.
Proof.
  unfold path_percent_encode_set, query_percent_encode_set, C0_control_percent_encode_set.
  charset. lia.
Qed.

Lemma to_scalar_values_clean pre rest :
  Forall (fun c => 0x20 < c < 0x7F) pre ->
  to_scalar_values (pre ++ rest) = pre ++ to_scalar_values rest.
Proof.
  induction 1 as [|c pre Hc _ IH]; [reflexivity|].
  cbn [app]. rewrite to_scalar_values_cons.
  replace (is_leading_surrogate c) with false
    by (symmetry; unfold is_leading_surrogate; apply andb_false_iff; rewrite !Z.leb_gt; lia).
  replace (is_trailing_surrogate c) with false
    by (symmetry; unfold is_trailing_surrogate; apply andb_false_iff; rewrite !Z.leb_gt; lia).
  rewrite IH. reflexivity.
Qed.

Lemma strip_leading_app l x m :
  C0_control_or_space x = false -> strip_leading (l ++ x :: m) = strip_leading l ++ x :: m.
Proof.
  intros Hx. induction l as [|a l IH]; cbn [app strip_leading].
  - rewrite Hx. reflexivity.
  - destruct (C0_control_or_space a); [exact IH | reflexivity].
Qed.

Lemma strip_trailing_app pre x rest :
  C0_control_or_space x = false ->
  strip_trailing (pre ++ x :: rest) = pre ++ x :: strip_trailing rest.
Proof.
  intros Hx. unfold strip_trailing.
  rewrite rev_app_distr. cbn [rev]. rewrite <- app_assoc. cbn [app].
  rewrite (strip_leading_app _ _ _ Hx), rev_app_distr. cbn [rev].
  rewrite rev_involutive, <- app_assoc. reflexivity.
Qed.

Lemma strip_trailing_clean pre :
  Forall (fun c => 0x20 < c < 0x7F) pre -> strip_trailing pre = pre.
Proof.
  intros Hpre.
  destruct pre as [|c pre] using rev_ind; [reflexivity|].
  apply Forall_app in Hpre as [_ Hc]. inversion Hc as [|? ? Hc' _]; subst.
  rewrite strip_trailing_app; [reflexivity|].
  unfold C0_control_or_space. apply Z.leb_gt. lia.
Qed.

Lemma filter_clean pre :
  Forall (fun c => 0x20 < c < 0x7F) pre ->
  List.filter (fun c => negb (ASCII_tab_or_newline c)) pre = pre.
Proof.
  induction 1 as [|c pre Hc _ IH]; [reflexivity|]. cbn [List.filter].
  replace (ASCII_tab_or_newline c) with false; [cbn [negb]; rewrite IH; reflexivity|].
  symmetry. unfold ASCII_tab_or_newline, one_of. cbn [existsb].
  rewrite !orb_false_iff, !Z.eqb_neq. lia.
Qed.

Lemma path_state_query pre q path buffer :
  path_state (pre ++ 63 :: q) path buffer = path_state pre path buffer.
Proof.
  revert path buffer. induction pre as [|c pre IH]; intros path buffer; [reflexivity|].
  cbn [app path_state].
  destruct ((c =? 47) || (c =? 92)); [apply IH|].
  destruct ((c =? 63) || (c =? 35)); [reflexivity | apply IH].
Qed.

Lemma path_start_query pre q : path_start_state (pre ++ 63 :: q) = path_start_state pre.
Proof.
  destruct pre as [|c pre]; [reflexivity|]. cbn [app path_start_state].
  destruct ((c =? 47) || (c =? 92)); [apply path_state_query|].
  apply (path_state_query (c :: pre)).
Qed.

(** On text without spaces, controls and non-ASCII characters the parser's
    preparation changes nothing, and a query does not reach the path. *)
Lemma URL_path_clean pre :
  Forall (fun c => 0x20 < c < 0x7F) pre ->
  URL_path pre = path_start_state pre /\
  forall q, URL_path (pre ++ lit "?" ++ q) = path_start_state pre.
Proof.
  intros Hpre. unfold URL_path. split.
  - rewrite <- (app_nil_r pre) at 1. rewrite (to_scalar_values_clean pre [] Hpre).
    cbn [to_scalar_values]. rewrite app_nil_r, (strip_trailing_clean pre Hpre), (filter_clean pre Hpre).
    reflexivity.
  - intros q. change (lit "?" ++ q) with (63 :: q).
    assert (Hpre' : Forall (fun c => 0x20 < c < 0x7F) (pre ++ [63]))
      by (apply Forall_app; split; [exact Hpre | repeat constructor; lia]).
    replace (pre ++ 63 :: q) with ((pre ++ [63]) ++ q) by (rewrite <- app_assoc; reflexivity).
    rewrite (to_scalar_values_clean _ q Hpre'), <- app_assoc. cbn [app].
    rewrite strip_trailing_app by reflexivity.
    rewrite List.filter_app. cbn [List.filter]. rewrite (filter_clean pre Hpre).
    change (ASCII_tab_or_newline 63) with false. cbn [negb].
    apply path_start_query.
Qed.

Lemma path_state_segment segment rest path buffer :
  Forall (fun c => component_unit c = true) segment ->
  path_state (segment ++ rest) path buffer = path_state rest path (buffer ++ segment).
Proof.
  intros Hs. revert buffer.
  induction Hs as [|c segment Hc _ IH]; intros buffer; [rewrite app_nil_r; reflexivity|].
  destruct (component_unit_kept c Hc) as (_ & Hslash & Hquery & Hset).
  cbn [app path_state]. rewrite Hslash, Hquery. unfold utf8_percent_encode. rewrite Hset.
  rewrite IH, <- app_assoc. reflexivity.
Qed.

(** Segments the parser keeps: made of the code units of an encoded
    component, and not a dot segment. *)
Lemma path_of_segments segments last path :
  Forall (fun segment => Forall (fun c => component_unit c = true) segment /\
                         is_single_dot segment = false /\ is_double_dot segment = false)
         (segments ++ [last]) ->
  path_state (flat_map (fun segment => segment ++ [47]) segments ++ last) path [] =
  path ++ segments ++ [last].
Proof.
  revert path. induction segments as [|segment segments IH]; intros path Hall.
  - inversion Hall as [|? ? (Hu & Hs & Hd) _]; subst. cbn [flat_map app].
    rewrite <- (app_nil_r last) at 1. rewrite path_state_segment by exact Hu.
    cbn [app path_state]. unfold segment_end. rewrite Hd, Hs. reflexivity.
  - inversion Hall as [|? ? (Hu & Hs & Hd) Hrest]; subst. cbn [flat_map].
    rewrite <- !app_assoc. rewrite path_state_segment by exact Hu.
    cbn [app path_state]. change ((47 =? 47) || (47 =? 92)) with true. cbn iota.
    unfold segment_end at 1. rewrite Hd, Hs. rewrite (IH _ Hrest), <- app_assoc. reflexivity.
Qed.

Lemma same_units_eq a b : same_units a b = true <-> a = b.
Proof.
  revert b. induction a as [|x a IH]; intros [|y b]; cbn [same_units];
    try (split; [discriminate | discriminate]); [tauto|].
  rewrite andb_true_iff, Z.eqb_eq, IH. split; [intros [-> ->]; reflexivity | intros [= -> ->]; auto].
Qed.

Lemma ASCII_lowercase_mark c k :
  ASCII_lowercase c = k -> k < 97 \/ 122 < k -> c = k.
Proof.
  unfold ASCII_lowercase. destruct ((65 <=? c) && (c <=? 90)) eqn:E; [|auto].
  apply andb_true_iff in E. rewrite !Z.leb_le in E. lia.
Qed.

Lemma ASCII_lowercase_e c : ASCII_lowercase c = 101 -> c = 69 \/ c = 101.
Proof.
  unfold ASCII_lowercase. destruct ((65 <=? c) && (c <=? 90)); lia.
Qed.

Lemma single_dot_cases segment :
  is_single_dot segment = true ->
  segment = [46] \/ exists c, segment = [37; 50; c] /\ (c = 69 \/ c = 101).
Proof.
  unfold is_single_dot. cbv zeta. rewrite orb_true_iff, !same_units_eq.
  intros [H|H]; [left|right].
  - destruct segment as [|a [|? ?]]; try discriminate H. injection H as H.
    apply ASCII_lowercase_mark in H; [subst; reflexivity | lia].
  - destruct segment as [|a [|b [|c [|? ?]]]]; try discriminate H. injection H as Ha Hb Hc.
    apply ASCII_lowercase_mark in Ha; [|lia]. apply ASCII_lowercase_mark in Hb; [|lia].
    apply ASCII_lowercase_e in Hc. subst. eauto.
Qed.

Lemma double_dot_cases segment :
  is_double_dot segment = true ->
  segment = [46; 46] \/
  (exists c, segment = [46; 37; 50; c] /\ (c = 69 \/ c = 101)) \/
  (exists c tail, segment = 37 :: 50 :: c :: tail /\ (c = 69 \/ c = 101)).
Proof.
  unfold is_double_dot. cbv zeta. rewrite !orb_true_iff, !same_units_eq.
  intros [[[H|H]|H]|H].
  - left. destruct segment as [|a [|b [|? ?]]]; try discriminate H. injection H as Ha Hb.
    apply ASCII_lowercase_mark in Ha; [|lia]. apply ASCII_lowercase_mark in Hb; [|lia].
    subst. reflexivity.
  - right. left. destruct segment as [|a [|b [|c [|d [|? ?]]]]]; try discriminate H.
    injection H as Ha Hb Hc Hd.
    apply ASCII_lowercase_mark in Ha; [|lia]. apply ASCII_lowercase_mark in Hb; [|lia].
    apply ASCII_lowercase_mark in Hc; [|lia]. apply ASCII_lowercase_e in Hd. subst. eauto.
  - right. right. destruct segment as [|a [|b [|c tail]]]; try discriminate H.
    injection H as Ha Hb Hc _.
    apply ASCII_lowercase_mark in Ha; [|lia]. apply ASCII_lowercase_mark in Hb; [|lia].
    apply ASCII_lowercase_e in Hc. subst. eauto.
  - right. right. destruct segment as [|a [|b [|c tail]]]; try discriminate H.
    injection H as Ha Hb Hc _.
    apply ASCII_lowercase_mark in Ha; [|lia]. apply ASCII_lowercase_mark in Hb; [|lia].
    apply ASCII_lowercase_e in Hc. subst. eauto.
Qed.

(** [encodeURIComponent] never writes "%2E": the full stop is not escaped,
    and no other character has an escape that begins so. *)
Lemma no_escaped_dot s c tail :
  well_formed_units s ->
  encodeURIComponent s = Normal (37 :: 50 :: c :: tail) -> c <> 69 /\ c <> 101.
Proof.
  unfold encodeURIComponent, well_formed_units. intros Hwf Henc.
  destruct s as [|C rest]; [discriminate Henc|].
  inversion Hwf as [|? ? HC _]; subst. unfold code_unit in HC.
  apply Encode_step in Henc
    as [(Hu & R & _ & Ho) | [(Hu & Hl & second & rest' & R & -> & Ht & _ & Ho)
                            | (Hu & Hl & Ht & R & _ & Ho)]].
  - injection Ho as <- _. apply unescaped_not_percent in Hu. contradiction.
  - exfalso. pose proof (pair_scalar C second Hl Ht) as Hcp.
    revert Ho. unfold utf8, percent_octets.
    destruct (Z.ltb_spec (UTF16SurrogatePairToCodePoint C second) 128); [lia|].
    destruct (Z.ltb_spec (UTF16SurrogatePairToCodePoint C second) 2048); [lia|].
    destruct (Z.ltb_spec (UTF16SurrogatePairToCodePoint C second) 65536); [lia|].
    cbn [flat_map percent_octet app]. intros [= Hhi _]. revert Hhi. unfold hex_digit.
    match goal with |- context [?a <? 10] => destruct (Z.ltb_spec a 10) end; euclid.
  - revert Ho. unfold utf8, percent_octets.
    destruct (Z.ltb_spec C 128);
      [|destruct (Z.ltb_spec C 2048); [|destruct (Z.ltb_spec C 65536); [|lia]]];
      cbn [flat_map percent_octet app]; intros [= Hhi Hlo _]; revert Hhi Hlo; unfold hex_digit;
      repeat match goal with |- context [?a <? 10] => destruct (Z.ltb_spec a 10) end;
      intros Hhi Hlo; try (exfalso; euclid).
    all: split; [|euclid]; intros ->.
    all: assert (C = 46) by euclid; subst C; discriminate Hu.
Qed.

(** The encoding of a sku is a dot segment only for the skus "." and "..". *)
Lemma encoded_dots sku segment :
  well_formed_units sku -> encodeURIComponent sku = Normal segment ->
  (is_single_dot segment = true -> sku = lit ".") /\
  (is_double_dot segment = true -> sku = lit "..").
Proof.
  intros Hwf Henc. split.
  - intros Hdot. apply single_dot_cases in Hdot as [->|(c & -> & Hc)].
    + apply (encoded_inj sku (lit ".") [46]);
        [exact Hwf | apply lit_code_units | exact Henc | reflexivity].
    + exfalso. destruct (no_escaped_dot sku c [] Hwf Henc). lia.
  - intros Hdot.
    apply double_dot_cases in Hdot as [->|[(c & -> & Hc)|(c & tail & -> & Hc)]].
    + apply (encoded_inj sku (lit "..") [46; 46]);
        [exact Hwf | apply lit_code_units | exact Henc | reflexivity].
    + exfalso. unfold encodeURIComponent in Henc.
      destruct sku as [|C rest]; [discriminate Henc|].
      inversion Hwf as [|? ? _ Hrest]; subst.
      apply Encode_step in Henc
        as [(Hu & R & HR & Ho) | [(Hu & Hl & second & rest' & R & -> & Ht & _ & Ho)
                                | (Hu & Hl & Ht & R & _ & Ho)]].
      * injection Ho as _ <-. destruct (no_escaped_dot rest c [] Hrest HR). lia.
      * destruct (escapes_start (UTF16SurrogatePairToCodePoint C second) R) as (tl & E).
        rewrite E in Ho. discriminate Ho.
      * destruct (escapes_start C R) as (tl & E). rewrite E in Ho. discriminate Ho.
    + exfalso. destruct (no_escaped_dot sku c tail Hwf Henc). lia.
Qed.

Lemma URL_path_of_segments segments last :
  Forall (fun segment => Forall (fun c => component_unit c = true) segment /\
                         is_single_dot segment = false /\ is_double_dot segment = false)
         (segments ++ [last]) ->
  URL_path (47 :: flat_map (fun segment => segment ++ [47]) segments ++ last) =
  segments ++ [last] /\
  forall query,
    URL_path ((47 :: flat_map (fun segment => segment ++ [47]) segments ++ last) ++
              lit "?" ++ query) =
    segments ++ [last].
Proof.
  intros Hall.
  assert (Hclean : Forall (fun c => 0x20 < c < 0x7F)
                          (47 :: flat_map (fun segment => segment ++ [47]) segments ++ last)).
  { constructor; [lia|].
    assert (Hunits : forall segment,
               Forall (fun c => component_unit c = true) segment ->
               Forall (fun c => 0x20 < c < 0x7F) segment).
    { intros segment Hs. eapply Forall_impl; [exact Hs|]. cbn beta.
      intros c Hc. apply component_unit_kept, Hc. }
    clear -Hall Hunits. induction segments as [|segment segments IH].
    - inversion Hall as [|? ? (Hu & _) _]; subst. cbn [flat_map app]. apply Hunits, Hu.
    - inversion Hall as [|? ? (Hu & _) Hrest]; subst. cbn [flat_map].
      rewrite <- !app_assoc. apply Forall_app. split; [apply Hunits, Hu|].
      cbn [app]. constructor; [lia | apply IH, Hrest]. }
  destruct (URL_path_clean _ Hclean) as [Hp Hq].
  assert (Hstart : path_start_state
                     (47 :: flat_map (fun segment => segment ++ [47]) segments ++ last) =
                   segments ++ [last]).
  { change (path_state (flat_map (fun segment => segment ++ [47]) segments ++ last) [] [] =
            segments ++ [last]).
    rewrite (path_of_segments segments last [] Hall). reflexivity. }
  split; [rewrite Hp; exact Hstart|]. intros query. rewrite Hq. exact Hstart.
Qed.

Lemma encoded_segment_is_kept sku segment :
  well_formed_units sku -> encodeURIComponent sku = Normal segment ->
  sku <> lit "." -> sku <> lit ".." ->
  Forall (fun c => component_unit c = true) segment /\
  is_single_dot segment = false /\ is_double_dot segment = false.
Proof.
  intros Hwf Henc H1 H2. destruct (encoded_dots sku segment Hwf Henc) as [Hs Hd].
  split; [apply (encoded_units sku segment Hwf Henc)|].
  split; [destruct (is_single_dot segment); [contradiction H1; auto | reflexivity]
         |destruct (is_double_dot segment); [contradiction H2; auto | reflexivity]].
Qed.

(** C10, as the code has it. Every sku that goes into a path goes through
    [encodeURIComponent]: [getItem], [getItemStats], [getItemHistory],
    [compareItems] (both skus) and [getGraphUrl] put exactly the encoded sku
    after the fixed prefix of their path (and reject or throw, without a
    request, when the encoding throws); what follows it does not depend on
    the sku.  The encoding of a string of code units consists of unescaped
    characters and percent signs only, hence holds none of / ? # & = +
    backslash or space, and two strings with the same encoding are the same
    string.  For every sku other than "." and ".." the URL parser reads the
    path as it is written: the segments of the prefix and then the encoded
    sku as one segment of its own, whatever query follows. *)
Theorem sku_is_percent_encoded :
  (forall w sku,
      requests_path (PriceDBClient.getItem sku) w
        (segment <~ encodeURIComponent sku ;; Normal (lit "/api/item/" ++ segment))) /\
  (forall w sku,
      requests_path (PriceDBClient.getItemStats sku) w
        (segment <~ encodeURIComponent sku ;; Normal (lit "/api/item-stats/" ++ segment))) /\
  (forall options, exists suffix,
      query_suffix suffix /\
      forall w sku,
        requests_path (PriceDBClient.getItemHistory sku options) w
          (segment <~ encodeURIComponent sku ;;
           Normal (lit "/api/item-history/" ++ segment ++ suffix))) /\
  (forall w sku1 sku2,
      requests_path (PriceDBClient.compareItems sku1 sku2) w
        (segment1 <~ encodeURIComponent sku1 ;;
         segment2 <~ encodeURIComponent sku2 ;;
         Normal (lit "/api/compare/" ++ segment1 ++ lit "/" ++ segment2))) /\
  (forall options, exists suffix,
      query_suffix suffix /\
      forall client sku,
        PriceDBClient.getGraphUrl client sku options =
        (segment <~ encodeURIComponent sku ;;
         Normal (baseUrl client ++ lit "/api/graph/" ++ segment ++ suffix))) /\
  (forall sku segment,
      well_formed_units sku -> encodeURIComponent sku = Normal segment ->
      Forall (fun c => component_unit c = true /\ delimiter c = false) segment) /\
  (forall sku1 sku2 segment,
      well_formed_units sku1 -> well_formed_units sku2 ->
      encodeURIComponent sku1 = Normal segment ->
      encodeURIComponent sku2 = Normal segment ->
      sku1 = sku2) /\
  (forall sku segment,
      well_formed_units sku -> encodeURIComponent sku = Normal segment ->
      sku <> lit "." -> sku <> lit ".." ->
      URL_path (lit "/api/item/" ++ segment) = [lit "api"; lit "item"; segment] /\
      URL_path (lit "/api/item-stats/" ++ segment) = [lit "api"; lit "item-stats"; segment] /\
      URL_path (lit "/api/item-history/" ++ segment) =
      [lit "api"; lit "item-history"; segment] /\
      URL_path (lit "/api/graph/" ++ segment) = [lit "api"; lit "graph"; segment] /\
      forall query,
        URL_path (lit "/api/item-history/" ++ segment ++ lit "?" ++ query) =
        [lit "api"; lit "item-history"; segment] /\
        URL_path (lit "/api/graph/" ++ segment ++ lit "?" ++ query) =
        [lit "api"; lit "graph"; segment]) /\
  (forall sku1 sku2 segment1 segment2,
      well_formed_units sku1 -> well_formed_units sku2 ->
      encodeURIComponent sku1 = Normal segment1 ->
      encodeURIComponent sku2 = Normal segment2 ->
      sku1 <> lit "." -> sku1 <> lit ".." -> sku2 <> lit "." -> sku2 <> lit ".." ->
      URL_path (lit "/api/compare/" ++ segment1 ++ lit "/" ++ segment2) =
      [lit "api"; lit "compare"; segment1; segment2]).
Proof.
  repeat apply conj.
  - intros w sku. apply requests_path_request. intros w'.
    unfold PriceDBClient.getItem, bind.
    destruct (encodeURIComponent sku); reflexivity.
  - intros w sku. apply requests_path_request. intros w'.
    unfold PriceDBClient.getItemStats, bind.
    destruct (encodeURIComponent sku); reflexivity.
  - intros options. unfold PriceDBClient.getItemHistory.
    match goal with |- context [truthy_string ?q] => set (queryString := q) end.
    destruct (truthy_string queryString).
    + exists (lit "?" ++ queryString). split; [right; eauto|].
      intros w sku. apply requests_path_request. intros w'. unfold bind.
      destruct (encodeURIComponent sku); reflexivity.
    + exists []. split; [left; reflexivity|].
      intros w sku. apply requests_path_request. intros w'. unfold bind.
      destruct (encodeURIComponent sku); cbn [cbind lift]; rewrite ?app_nil_r; reflexivity.
  - intros w sku1 sku2. apply requests_path_request. intros w'.
    unfold PriceDBClient.compareItems, bind.
    destruct (encodeURIComponent sku1); [|reflexivity].
    destruct (encodeURIComponent sku2); reflexivity.
  - intros options. unfold PriceDBClient.getGraphUrl.
    match goal with |- context [truthy_string ?q] => set (queryString := q) end.
    destruct (truthy_string queryString).
    + exists (lit "?" ++ queryString). split; [right; eauto|]. reflexivity.
    + exists []. split; [left; reflexivity|].
      intros client sku.
      destruct (encodeURIComponent sku); cbn [cbind]; rewrite ?app_nil_r; reflexivity.
  - intros sku segment Hwf Henc.
    eapply Forall_impl; [exact (encoded_units sku segment Hwf Henc)|].
    simpl. intros c Hc. split; [exact Hc | apply component_unit_no_delimiter, Hc].
  - intros sku1 sku2 segment. apply encoded_inj.
  - intros sku segment Hwf Henc H1 H2.
    pose proof (encoded_segment_is_kept sku segment Hwf Henc H1 H2) as Hkept.
    assert (Hlit : forall name,
               forallb component_unit (lit name) = true ->
               is_single_dot (lit name) = false -> is_double_dot (lit name) = false ->
               Forall (fun c => component_unit c = true) (lit name) /\
               is_single_dot (lit name) = false /\ is_double_dot (lit name) = false).
    { intros name Hn Hs Hd. split; [|split; assumption].
      apply Forall_forall. intros c Hc. rewrite forallb_forall in Hn.
      apply Hn, list_elem_of_In, Hc. }
    assert (Hpath : forall name,
               forallb component_unit (lit name) = true ->
               is_single_dot (lit name) = false -> is_double_dot (lit name) = false ->
               URL_path (47 :: lit "api" ++ 47 :: lit name ++ 47 :: segment) =
               [lit "api"; lit name; segment] /\
               forall query,
                 URL_path (47 :: lit "api" ++ 47 :: lit name ++ 47 :: segment ++ lit "?" ++ query) =
                 [lit "api"; lit name; segment]).
    { intros name Hn Hs Hd.
      destruct (URL_path_of_segments [lit "api"; lit name] segment) as [Hp Hq].
      - repeat (constructor; [first [exact Hkept | apply Hlit; first [reflexivity | assumption]]|]).
        constructor.
      - cbn [flat_map] in Hp, Hq. split.
        + repeat first [ rewrite app_nil_r in Hp | rewrite <- app_assoc in Hp
                       | progress cbn [app] in Hp ].
          exact Hp.
        + intros query. specialize (Hq query).
          repeat first [ rewrite app_nil_r in Hq | rewrite <- app_assoc in Hq
                       | progress cbn [app] in Hq ].
          exact Hq. }
    destruct (Hpath "item"%string eq_refl eq_refl eq_refl) as [Hitem _].
    destruct (Hpath "item-stats"%string eq_refl eq_refl eq_refl) as [Hstats _].
    destruct (Hpath "item-history"%string eq_refl eq_refl eq_refl) as [Hhistory Hhistory'].
    destruct (Hpath "graph"%string eq_refl eq_refl eq_refl) as [Hgraph Hgraph'].
    split; [exact Hitem|]. split; [exact Hstats|]. split; [exact Hhistory|].
    split; [exact Hgraph|]. intros query. split; [apply Hhistory' | apply Hgraph'].
  - intros sku1 sku2 segment1 segment2 Hwf1 Hwf2 Henc1 Henc2 H1 H1' H2 H2'.
    pose proof (encoded_segment_is_kept sku1 segment1 Hwf1 Henc1 H1 H1') as Hkept1.
    pose proof (encoded_segment_is_kept sku2 segment2 Hwf2 Henc2 H2 H2') as Hkept2.
    destruct (URL_path_of_segments [lit "api"; lit "compare"; segment1] segment2) as [Hp _].
    + constructor; [split; [repeat constructor | split; reflexivity]|].
      constructor; [split; [repeat constructor | split; reflexivity]|].
      constructor; [exact Hkept1|]. constructor; [exact Hkept2 | constructor].
    + cbn [flat_map] in Hp.
      repeat first [ rewrite app_nil_r in Hp | rewrite <- app_assoc in Hp
                   | progress cbn [app] in Hp ].
      exact Hp.
Qed.

(** C10 fails for the skus "." and "..": [encodeURIComponent] leaves the
    full stop as it is, so these two skus go into the URL as dot segments,
    which the URL parser of [fetch] resolves.  The lookup of ".." is sent to
    "https://pricedb.io/api/item/..", whose path is "/api/"; the comparison
    of ".." with ".." has the path "/"; and the lookup of "." has the path
    of the lookup of the empty sku, so two skus share a path. *)
Lemma dot_segments_are_resolved :
  encodeURIComponent (lit "..") = Normal (lit "..") /\
  sent (PriceDBClient.getItem (lit "..")) test_item_world =
  [(lit "https://pricedb.io/api/item/..", None, None)] /\
  URL_path (lit "/api/item/..") = [lit "api"; []] /\
  URL_pathname (lit "/api/item/..") = lit "/api/" /\
  sent (PriceDBClient.compareItems (lit "..") (lit "..")) test_item_world =
  [(lit "https://pricedb.io/api/compare/../..", None, None)] /\
  URL_pathname (lit "/api/compare/../..") = lit "/" /\
  encodeURIComponent (lit ".") = Normal (lit ".") /\
  encodeURIComponent [] = Normal [] /\
  lit "." <> [] /\
  URL_pathname (lit "/api/item/" ++ lit ".") = lit "/api/item/" /\
  URL_path (lit "/api/item/" ++ lit ".") = URL_path (lit "/api/item/" ++ []).
Proof.
  repeat apply conj; try (vm_compute; reflexivity). discriminate.
Qed.

(** ** The theorems at concrete inputs *)

(** C1 at the default client and the sku of the README. *)
Lemma graph_url_of_backburner :
  PriceDBClient.getGraphUrl default_pricedb (lit "40;11;kt-3") chart_options =
  Normal (lit "https://pricedb.io/api/graph/40%3B11%3Bkt-3?header=false&height=400").
Proof.
  exact (proj1 (graph_url_is_deterministic default_pricedb (lit "40;11;kt-3") eq_refl)).
Defined.

(** C2 at a server that answers 404: the health check is rejected with the
    status in its message. *)
Lemma not_found_is_rejected :
  fst (invoke (OnPriceDB PriceDBClient.Health) not_found_world) =
  Rejected (mkException Error (lit "HTTP error! status: 404")).
Proof.
  destruct (status_decides_outcome (OnPriceDB PriceDBClient.Health) not_found_world
              (boot_consistent _ _)) as [_ Hsent].
  destruct Hsent as (url & init & _ & H).
  - intros (sku & [] & _).
  - destruct (H 20 404 BodyNever eq_refl) as [H404 _].
    + vm_compute. reflexivity.
    + apply H404. lia.
Defined.

(** C3, for a positive timeout, at a spells client built with a timeout of 5000. *)
Lemma five_seconds_of_silence :
  fst (invoke (OnSpells SpellsClient.Health) five_second_world) = Rejected aborted_error /\
  now (snd (invoke (OnSpells SpellsClient.Health) five_second_world)) =
  now five_second_world + 5000.
Proof.
  destruct (silent_server_fails_at_timeout (Some (Int 5000)) 5000
              (OnSpells SpellsClient.Health) five_second_world)
    as (d & _ & _ & Hd & _ & Haborted).
  - left. split; [reflexivity | lia].
  - right. exists None, None. reflexivity.
  - apply boot_consistent.
  - intros t url init. reflexivity.
  - destruct Haborted as (Hr & Hn & _); [intros (sku & [] & _)|].
    rewrite <- (Hd ltac:(lia)). split; assumption.
Defined.

(** C4 at a headers map that binds "Authorization" only. *)
Lemma authorization_keeps_content_type :
  headers (PriceDBClient.constructor (PriceDBClient.mkConfig None None (Some authorization)))
    !! lit "Content-Type" = Some (lit "application/json") /\
  headers (SpellsClient.constructor (SpellsClient.mkConfig None None (Some authorization)))
    !! lit "Authorization" = Some (lit "Bearer t").
Proof.
  destruct (default_content_type_survives authorization None None) as (Hdefault & Hkeep & _).
  split.
  - apply Hdefault. apply lookup_singleton_ne. vm_compute. discriminate.
  - apply (Hkeep (lit "Authorization") (lit "Bearer t")). apply lookup_singleton_eq.
Defined.

(** C5 at an item lookup followed by a search. *)
Lemma search_after_lookup :
  sent (invoke (OnPriceDB (PriceDBClient.Search
                             (SearchOptions.mk (lit "Rocket Launcher") None))))
       (snd (invoke (OnPriceDB (PriceDBClient.GetItem (lit "40;11;kt-3"))) test_item_world)) =
  sent (invoke (OnPriceDB (PriceDBClient.Search
                             (SearchOptions.mk (lit "Rocket Launcher") None))))
       test_item_world.
Proof.
  apply (proj2 (calls_share_no_state
                  (OnPriceDB (PriceDBClient.GetItem (lit "40;11;kt-3")))
                  (OnPriceDB (PriceDBClient.Search
                                (SearchOptions.mk (lit "Rocket Launcher") None)))
                  test_item_world) test_item_world eq_refl).
Defined.

(** C8 at the item of the scenario. *)
Lemma test_item_round_trip :
  fst (PriceDBClient.getItem (lit "1;6") test_item_world) = Fulfilled test_item.
Proof.
  apply (item_passes_through test_item_world (lit "1;6") (lit "1%3B6") 30 5 200 test_item).
  - apply boot_consistent.
  - reflexivity.
  - reflexivity.
  - lia.
  - vm_compute. reflexivity.
Defined.

(** C10 at a sku with a slash, a space and a question mark. *)
Lemma slash_and_space_are_escaped :
  Forall (fun c => component_unit c = true /\ delimiter c = false) (lit "a%2Fb%20c%3F").
Proof.
  destruct sku_is_percent_encoded as (_ & _ & _ & _ & _ & Hunits & _).
  apply (Hunits (lit "a/b c?")).
  - repeat constructor; unfold code_unit; lia.
  - reflexivity.
Defined.
Example digits_400 : Number_toString (Int 400) = lit "400".
Proof. reflexivity. Qed.

Example encode_sku : encodeURIComponent (lit "40;11;kt-3") = Normal (lit "40%3B11%3Bkt-3").
Proof. reflexivity. Qed.

Example encode_astral :
  encodeURIComponent [0xD83D; 0xDE00] = Normal (lit "%F0%9F%98%80").
Proof. reflexivity. Qed.

Example encode_lone : encodeURIComponent [0xD83D] = Throw URI_malformed.
Proof. reflexivity. Qed.

Example query_space :
  URLSearchParams_toString
    (URLSearchParams_append (URLSearchParams_append URLSearchParams_new (lit "q") (lit "Rocket Launcher"))
       (lit "limit") (Number_toString (Int 5)))
  = lit "q=Rocket+Launcher&limit=5".
Proof. reflexivity. Qed.

Example stringify_skus :
  JSON_stringify (JObject [(lit "skus", JArray [JString (lit "1;6"); JString [34; 0xD800; 10]])])
  = lit "{" ++ [34] ++ lit "skus" ++ [34] ++ lit ":[" ++ [34] ++ lit "1;6" ++ [34] ++ lit ","
    ++ [34; 92; 34] ++ lit "\ud800\n" ++ [34] ++ lit "]}".
Proof. reflexivity. Qed.


Example encode_dots : encodeURIComponent (lit "..") = Normal (lit "..").
Proof. reflexivity. Qed.

Example prices_second_page :
  sent (PriceDBClient.getPrices (PaginationOptions.mk (Some (Int 100)) (Some (Int 100))))
       test_item_world
  = [(lit "https://pricedb.io/api/prices?limit=100&offset=100", None, None)].
Proof. vm_compute. reflexivity. Qed.

Example prices_first_page :
  sent (PriceDBClient.getPrices (PaginationOptions.mk (Some (Int 100)) (Some (Int 0))))
       test_item_world
  = [(lit "https://pricedb.io/api/prices?limit=100", None, None)].
Proof. vm_compute. reflexivity. Qed.

Example predict_query :
  sent (SpellsClient.predict (PredictOptions.mk (lit "Exorcism") (lit "Strange Rocket Launcher")))
       five_second_world
  = [(lit "https://spell.pricedb.io/api/spell/predict?spells=Exorcism&item=Strange+Rocket+Launcher",
      None, None)].
Proof. vm_compute. reflexivity. Qed.

Example predict_post_body :
  sent (SpellsClient.predictSpellItem
          (PredictSpellItemOptions.mk (lit "Rocket Launcher") [Int 1004; Int 1005]))
       five_second_world
  = [(lit "https://spell.pricedb.io/api/spell/predict-spell-item",
      Some (lit "POST"),
      Some (lit "{" ++ dq ++ lit "item_name" ++ dq ++ lit ":" ++ dq ++ lit "Rocket Launcher" ++ dq
            ++ lit "," ++ dq ++ lit "spell_ids" ++ dq ++ lit ":[1004,1005]}"))].
Proof. vm_compute. reflexivity. Qed.

Example history_of_unpaired_surrogate :
  PriceDBClient.getItemHistory [0xDC00] (HistoryOptions.mk None None) test_item_world
  = (Rejected URI_malformed, test_item_world).
Proof. reflexivity. Qed.

Example slow_server_is_aborted :
  let w := boot default_pricedb (fun _ _ _ => Responds 20000 200 BodyNever) in
  fst (PriceDBClient.getItems w) = Rejected aborted_error /\
  now (snd (PriceDBClient.getItems w)) = 10000 /\
  timers (snd (PriceDBClient.getItems w)) = [].
Proof. vm_compute. repeat split; reflexivity. Qed.

Example slow_body_is_aborted :
  let w := boot default_pricedb (fun _ _ _ => Responds 10 200 (BodyAfter 9990 (inl JNull))) in
  fst (PriceDBClient.getItems w) = Rejected aborted_error /\
  now (snd (PriceDBClient.getItems w)) = 10000.
Proof. vm_compute. repeat split; reflexivity. Qed.

Example two_calls_in_a_row :
  let w := run [OnPriceDB (PriceDBClient.GetItem (lit "1;6")); OnPriceDB PriceDBClient.Health]
               test_item_world in
  now w = 70 /\ timers w = [] /\ nextHandle w = 2 /\ length (trace w) = 6%nat.
Proof. vm_compute. repeat split; reflexivity. Qed.

(** The five paths of the transport core, each on a fresh client: what the
    call settles to, and that no timer is left armed. *)
Example five_paths :
  let after reply := PriceDBClient.getItems (boot default_pricedb (fun _ _ _ => reply)) in
  let v := JArray [] in
  (fst (after (Responds 5 200 (BodyAfter 1 (inl v)))) = Fulfilled v /\
   timers (snd (after (Responds 5 200 (BodyAfter 1 (inl v))))) = []) /\
  (fst (after (Responds 5 429 BodyNever)) =
   Rejected (mkException Error (lit "HTTP error! status: 429")) /\
   timers (snd (after (Responds 5 429 BodyNever))) = []) /\
  (fst (after (Responds 5 204 (BodyAfter 0 (inr (lit "Unexpected end of JSON input"))))) =
   Rejected (mkException SyntaxError (lit "Unexpected end of JSON input")) /\
   timers (snd (after (Responds 5 204 (BodyAfter 0 (inr (lit "Unexpected end of JSON input")))))) = []) /\
  (fst (after (NetworkFails 3 (lit "fetch failed"))) =
   Rejected (mkException TypeError (lit "fetch failed")) /\
   timers (snd (after (NetworkFails 3 (lit "fetch failed")))) = []) /\
  (fst (after Silent) = Rejected aborted_error /\
   timers (snd (after Silent)) = []).
Proof. vm_compute. repeat split; reflexivity. Qed.

(* ===================================================================== *)
(** * Part 6. Further properties of the clients                           *)
(* ===================================================================== *)

(** ** What a call sends *)

Lemma sent_if_request (m : M JSON) endpoint options w :
  (forall w, m w = PriceDBClient.request endpoint options w) ->
  sent m w = [(baseUrl (this w) ++ endpoint, req_method options, req_body options)].
Proof.
  intros Hm. unfold sent, events. rewrite Hm.
  change (requests (events (PriceDBClient.request endpoint options) w) =
          [(baseUrl (this w) ++ endpoint, req_method options, req_body options)]).
  rewrite events_request. reflexivity.
Qed.

Lemma sent_if_rejected (m : M JSON) e w : m w = (Rejected e, w) -> sent m w = [].
Proof.
  intros Hm. unfold sent. rewrite (events_rejected m e w Hm). reflexivity.
Qed.



(** Splits a goal about [sent (invoke c) w] into the calls there are, each
    with the request it sends written out. *)
Ltac each_call c w :=
  destruct c as [[]|[]];
  cbn [invoke PriceDBClient.invoke SpellsClient.invoke];
  unfold PriceDBClient.getItem, PriceDBClient.getItemStats, PriceDBClient.getItemHistory,
    PriceDBClient.compareItems, PriceDBClient.getPrices, bind;
  repeat match goal with
         | |- context [encodeURIComponent ?s] =>
           let E := fresh "E" in
           destruct (encodeURIComponent s) eqn:E; cbn [cbind lift]
         | |- context [truthy_string ?q] => destruct (truthy_string q)
         end;
  first [ erewrite sent_if_rejected by reflexivity
        | erewrite sent_if_request by (intros; reflexivity) ].

(** X2. Only the two methods that take a list send a method and a body: bulk
    lookup and prediction by spell ids are POST requests with a JSON text;
    every other call leaves method and body to the default (a GET without
    body). *)
Theorem bodies_only_on_post (c : AnyCall) (w : World) :
  Forall (fun r =>
            match c with
            | OnPriceDB (PriceDBClient.GetItemsBulk _)
            | OnSpells (SpellsClient.PredictSpellItem _) =>
              snd (fst r) = Some (lit "POST") /\ snd r <> None
            | _ => snd (fst r) = None /\ snd r = None
            end)
         (sent (invoke c) w).
Proof.
  each_call c w; repeat constructor; discriminate.
Qed.

(** X3. Every request goes to the base URL followed, without any separator of
    the client's own, by a path that starts with "/api/". *)
Theorem every_url_under_api (c : AnyCall) (w : World) :
  Forall (fun r => exists rest, fst (fst r) = baseUrl (this w) ++ lit "/api/" ++ rest)
         (sent (invoke c) w).
Proof.
  each_call c w;
    first [ solve [constructor]
          | constructor; [|solve [constructor]]; cbn [fst];
            match goal with
            | |- @ex _ (fun rest => ?b ++ ?endpoint = @?rhs rest) =>
              exists (drop 5 endpoint); reflexivity
            end ].
Qed.

(** ** How long a call takes, and what ends it *)

Lemma fetch_of_invoke c w url init :
  In (Fetch url init) (events (invoke c) w) ->
  exists endpoint options,
    (forall w, invoke c w = PriceDBClient.request endpoint options w) /\
    url = baseUrl (this w) ++ endpoint /\ init = init_of w options.
Proof.
  destruct (invoke_shape c) as [H|(endpoint & options & _ & H)].
  - rewrite (events_rejected _ _ _ (H w)). intros [].
  - unfold events. rewrite H.
    change (In (Fetch url init) (events (PriceDBClient.request endpoint options) w) ->
            exists endpoint0 options0,
              (forall w, invoke c w = PriceDBClient.request endpoint0 options0 w) /\
              url = baseUrl (this w) ++ endpoint0 /\ init = init_of w options0).
    rewrite events_request.
    intros [[=]|[[= <- <-]|[[=]|[]]]]. exists endpoint, options. auto.
Qed.

Lemma round_trip_time w reply :
  now w <= snd (round_trip w reply) <= deadline w /\
  (fst (round_trip w reply) = Rejected aborted_error <-> snd (round_trip w reply) = deadline w).
Proof.
  pose proof (timer_delay_nonneg (timeout (this w))) as Hd.
  assert (Hnow : now w <= deadline w) by (unfold deadline; lia).
  unfold round_trip.
  destruct reply as [latency st [latency' [v|why]|]|latency reason|]; cbn [fst snd];
    repeat match goal with
           | |- context [?a <=? ?b] => destruct (Z.leb_spec a b); cbn [fst snd]
           | |- context [if negb ?b then _ else _] => destruct b; cbn [negb fst snd]
           end;
    (split; [lia|]);
    (split; [ let Hr := fresh in intros Hr; first [reflexivity | discriminate Hr | lia]
            | let Hr := fresh in intros Hr; first [reflexivity | lia] ]).
Qed.



(** X5. A call that reached [fetch] is rejected with the AbortError exactly when
    it ran until its timer expired; in particular a response whose headers
    arrive at the deadline or later is discarded, whatever its status, and
    so is a successful response whose body has not arrived by then.  (On
    the virtual clock the timer wins a tie with an arrival at the very
    instant of the deadline.) *)
Theorem aborted_exactly_at_deadline (c : AnyCall) (w : World) (url : jsstring) (init : RequestInit) :
  consistent w ->
  In (Fetch url init) (events (invoke c) w) ->
  (fst (invoke c w) = Rejected aborted_error <-> now (snd (invoke c w)) = deadline w) /\
  (forall latency st body,
      server w (now w) url init = Responds latency st body ->
      deadline w <= now w + Z.max 0 latency ->
      fst (invoke c w) = Rejected aborted_error) /\
  (forall latency st latency' parsed,
      server w (now w) url init = Responds latency st (BodyAfter latency' parsed) ->
      200 <= st <= 299 ->
      deadline w <= now w + Z.max 0 latency + Z.max 0 latency' ->
      fst (invoke c w) = Rejected aborted_error).
Proof.
  intros Hc Hin.
  destruct (fetch_of_invoke c w url init Hin) as (endpoint & options & H & -> & ->).
  rewrite H.
  destruct (request_round_trip endpoint options w Hc) as [-> ->].
  split; [apply round_trip_time|]. split.
  - intros latency st body -> Hlate. unfold round_trip.
    destruct (Z.leb_spec (deadline w) (now w + Z.max 0 latency)); [reflexivity | lia].
  - intros latency st latency' parsed -> Hst Hlate. unfold round_trip.
    destruct (Z.leb_spec (deadline w) (now w + Z.max 0 latency)); [reflexivity|].
    replace ((200 <=? st) && (st <=? 299)) with true
      by (symmetry; apply andb_true_iff; rewrite !Z.leb_le; lia).
    cbn [negb].
    destruct (Z.leb_spec (deadline w) (now w + Z.max 0 latency + Z.max 0 latency'));
      [reflexivity | lia].
Qed.

(** X5 at a health check whose successful
    response would arrive two seconds after the default timeout. *)
Lemma late_response_is_discarded :
  fst (invoke (OnPriceDB PriceDBClient.Health) late_world) = Rejected aborted_error.
Proof.
  destruct (aborted_exactly_at_deadline (OnPriceDB PriceDBClient.Health) late_world
              (lit "https://pricedb.io/api/") (init_of late_world no_options))
    as (_ & H & _).
  - apply boot_consistent.
  - change (In (Fetch (lit "https://pricedb.io/api/") (init_of late_world no_options))
               (events (PriceDBClient.request (lit "/api/") no_options) late_world)).
    rewrite events_request. right. left. reflexivity.
  - apply (H 12000 200 (BodyAfter 5 (inl test_item))); [reflexivity|].
    vm_compute. discriminate.
Defined.

(** X6. Failures of the platform reach the caller as they are: when the
    connection fails before the timer expires the call is rejected with
    that very TypeError, and when a successful response has a body that
    does not parse, with that very SyntaxError; the client wraps neither. *)
Theorem transport_errors_propagate (c : AnyCall) (w : World) (url : jsstring) (init : RequestInit) :
  consistent w ->
  In (Fetch url init) (events (invoke c) w) ->
  (forall latency reason,
      server w (now w) url init = NetworkFails latency reason ->
      now w + Z.max 0 latency < deadline w ->
      fst (invoke c w) = Rejected (mkException TypeError reason)) /\
  (forall latency st latency' why,
      server w (now w) url init = Responds latency st (BodyAfter latency' (inr why)) ->
      200 <= st <= 299 ->
      now w + Z.max 0 latency + Z.max 0 latency' < deadline w ->
      fst (invoke c w) = Rejected (mkException SyntaxError why)).
Proof.
  intros Hc Hin.
  destruct (fetch_of_invoke c w url init Hin) as (endpoint & options & H & -> & ->).
  rewrite H.
  destruct (request_round_trip endpoint options w Hc) as [-> _].
  split.
  - intros latency reason -> Htime. unfold round_trip.
    destruct (Z.leb_spec (deadline w) (now w + Z.max 0 latency)); [lia | reflexivity].
  - intros latency st latency' why -> Hst Htime. unfold round_trip.
    destruct (Z.leb_spec (deadline w) (now w + Z.max 0 latency)); [lia|].
    replace ((200 <=? st) && (st <=? 299)) with true
      by (symmetry; apply andb_true_iff; rewrite !Z.leb_le; lia).
    cbn [negb].
    destruct (Z.leb_spec (deadline w) (now w + Z.max 0 latency + Z.max 0 latency'));
      [lia | reflexivity].
Qed.

(** X6 at a health check without network. *)
Lemma network_failure_reaches_caller :
  fst (invoke (OnPriceDB PriceDBClient.Health) offline_world) =
  Rejected (mkException TypeError (lit "fetch failed")).
Proof.
  destruct (transport_errors_propagate (OnPriceDB PriceDBClient.Health) offline_world
              (lit "https://pricedb.io/api/") (init_of offline_world no_options))
    as (H & _).
  - apply boot_consistent.
  - change (In (Fetch (lit "https://pricedb.io/api/") (init_of offline_world no_options))
               (events (PriceDBClient.request (lit "/api/") no_options) offline_world)).
    rewrite events_request. right. left. reflexivity.
  - apply (H 15); [reflexivity|]. vm_compute. reflexivity.
Defined.

(** ** What a run of calls leaves behind *)

Lemma passes_timers w w' tm : passes w w' -> In tm (timers w') -> In tm (timers w).
Proof.
  destruct 1; [auto|]. simpl. intros Hin. apply filter_In in Hin. tauto.
Qed.

Lemma request_timers endpoint options w tm :
  In tm (timers (snd (PriceDBClient.request endpoint options w))) ->
  In tm (timers w) /\ handle tm <> nextHandle w.
Proof.
  rewrite request_unfold. unfold try_finally.
  destruct (try_block_facts (baseUrl (this w) ++ endpoint) (init_of w options)
              (nextController w) (armed_world w) eq_refl (hooked_armed_world w))
    as (Hs & w1 & Hp1 & Hp2).
  destruct (try_block _ _ (armed_world w)) as [r w2]. cbn [fst snd] in *.
  assert (Hin : In tm (List.filter (fun tm => negb (handle tm =? nextHandle w)) (timers w2)) ->
                In tm (timers w) /\ handle tm <> nextHandle w).
  { intros Hin. apply filter_In in Hin as [Hin Hh].
    apply negb_true_iff, Z.eqb_neq in Hh. split; [|exact Hh].
    apply (passes_timers _ _ _ Hp2), (passes_timers _ _ _ Hp1) in Hin.
    destruct Hin as [<-|Hin]; [contradiction Hh; reflexivity | exact Hin]. }
  destruct r; cbn [snd timers]; first [exact Hin | congruence].
Qed.

Lemma invoke_timers c w tm : In tm (timers (snd (invoke c w))) -> In tm (timers w).
Proof.
  destruct (invoke_shape c) as [H|(endpoint & options & _ & H)]; rewrite H.
  - auto.
  - intros Hin. apply (request_timers endpoint options w tm Hin).
Qed.

(** X7. A call arms no timer that outlives it: every timer armed when the call
    has settled was armed before it started.  So a program that starts
    without timers and makes its calls one after the other has none armed
    between calls and at the end. *)
Theorem no_timer_outlives_its_call :
  (forall c w tm, In tm (timers (snd (invoke c w))) -> In tm (timers w)) /\
  (forall calls w, timers w = [] -> timers (run calls w) = []).
Proof.
  split; [exact invoke_timers|].
  induction calls as [|c calls IH]; intros w Hw; [exact Hw|].
  cbn [run].
  assert (Hnone : timers (snd (invoke c w)) = []).
  { destruct (timers (snd (invoke c w))) as [|tm ts] eqn:E; [reflexivity|].
    exfalso. assert (Hin : In tm (timers w)) by (apply (invoke_timers c); rewrite E; left; reflexivity).
    rewrite Hw in Hin. destruct Hin. }
  destruct (invoke c w) as [[v|e|] w']; cbn [snd] in Hnone; auto.
Qed.

Lemma protocol_app h es es' :
  protocol h (es ++ es') = fold_left protocol_step es' (protocol h es).
Proof. unfold protocol. apply fold_left_app. Qed.

Lemma invoke_protocol c w h0 :
  nextController w = nextHandle w ->
  protocol h0 (trace w) = Some (nextHandle w, Idle) ->
  nextController (snd (invoke c w)) = nextHandle (snd (invoke c w)) /\
  protocol h0 (trace (snd (invoke c w))) = Some (nextHandle (snd (invoke c w)), Idle).
Proof.
  intros Hk Hp.
  destruct (invoke_shape c) as [H|(endpoint & options & _ & H)]; rewrite H.
  - auto.
  - destruct (request_facts endpoint options w) as (_ & _ & _ & Htr & _ & Hc & Hh & _).
    cbv zeta in Htr, Hh. rewrite Htr, Hc, Hh, protocol_app, Hp. split; [lia|].
    repeat first [ rewrite Z.eqb_refl | rewrite Hk
                 | progress cbn [fold_left protocol_step init_of req_signal] ].
    reflexivity.
Qed.

(** X8. Calls made one after the other by a fresh program follow one protocol:
    the trace is a sequence of round trips, each setting a timer, calling
    [fetch] once with the signal of a controller of its own, and clearing
    that timer before the next round trip begins; handles and controllers
    are numbered consecutively and never used twice. *)
Theorem runs_follow_protocol (calls : list AnyCall) (i : Instance)
        (srv : Z -> jsstring -> RequestInit -> Reply) :
  protocol 0 (trace (run calls (boot i srv))) =
  Some (nextHandle (run calls (boot i srv)), Idle).
Proof.
  assert (H : forall w h0,
             nextController w = nextHandle w ->
             protocol h0 (trace w) = Some (nextHandle w, Idle) ->
             protocol h0 (trace (run calls w)) = Some (nextHandle (run calls w), Idle)).
  { induction calls as [|c calls IH]; intros w h0 Hk Hp; [exact Hp|].
    cbn [run]. destruct (invoke_protocol c w h0 Hk Hp) as [Hk' Hp'].
    pose proof (invoke_settles c w) as Hs.
    destruct (invoke c w) as [[v|e|] w']; cbn [fst snd] in *;
      [apply IH; assumption.. | congruence]. }
  apply H; reflexivity.
Qed.

Lemma invoke_server c w : server (snd (invoke c w)) = server w.
Proof.
  destruct (invoke_shape c) as [H|(endpoint & options & _ & H)]; rewrite H.
  - reflexivity.
  - apply request_facts.
Qed.

Lemma run_server calls w : server (run calls w) = server w.
Proof.
  revert w. induction calls as [|c calls IH]; intros w; cbn [run]; [reflexivity|].
  pose proof (invoke_server c w) as Hc.
  destruct (invoke c w) as [[v|e|] w']; cbn [snd] in Hc; rewrite ?IH; exact Hc.
Qed.

Lemma round_trip_shift w w' reply :
  timeout (this w) = timeout (this w') ->
  fst (round_trip w reply) = fst (round_trip w' reply).
Proof.
  intros Ht. unfold round_trip, deadline. rewrite Ht.
  set (d := timer_delay (timeout (this w'))).
  destruct reply as [latency st [latency' [v|why]|]|latency reason|]; cbn [fst snd];
    repeat match goal with
           | |- context [?a <=? ?b] => destruct (Z.leb_spec a b); cbn [fst snd]
           | |- context [if negb ?b then _ else _] => destruct b; cbn [negb fst snd]
           end;
    first [reflexivity | lia].
Qed.

(** X9. Calls do not influence each other's outcome: against a server whose
    reply depends on the request alone, a call made after any sequence of
    earlier calls settles to what it would have settled to as the first
    call of the program. *)
Theorem outcome_independent_of_history (c : AnyCall) (calls : list AnyCall) (w : World) :
  consistent w ->
  stateless (server w) ->
  fst (invoke c (run calls w)) = fst (invoke c w).
Proof.
  intros Hc Hs.
  pose proof (run_consistent calls w Hc) as Hc'.
  destruct (invoke_shape c) as [H|(endpoint & options & _ & H)]; rewrite !H; [reflexivity|].
  destruct (request_round_trip endpoint options (run calls w) Hc') as [-> _].
  destruct (request_round_trip endpoint options w Hc) as [-> _].
  rewrite run_server, run_this.
  unfold init_of at 1. rewrite run_this.
  rewrite (Hs (now (run calls w)) (now w) _ _ _ _ (Some (nextController (run calls w)))
              (Some (nextController w))).
  apply round_trip_shift. rewrite run_this. reflexivity.
Qed.

(** X9 at a health check made after an item
    lookup. *)
Lemma health_after_lookup :
  fst (invoke (OnPriceDB PriceDBClient.Health)
              (run [OnPriceDB (PriceDBClient.GetItem (lit "1;6"))] test_item_world)) =
  fst (invoke (OnPriceDB PriceDBClient.Health) test_item_world).
Proof.
  apply outcome_independent_of_history.
  - apply boot_consistent.
  - intros t t' url m b h s s'. reflexivity.
Defined.

(** ** Construction *)

(** X10. Whatever configuration either constructor is given, the client it
    builds is usable, and its fields are these.  The base URL is the one
    given, unless it is omitted or empty, and then the default of the
    service.  The timeout is the one given, unless it is omitted, 0, -0 or
    NaN, and then 10000.  The content type is the caller's if the caller's
    headers bind "Content-Type", and "application/json" otherwise.  No run
    of endpoint calls changes a field. *)
Theorem constructed_client_is_usable
        (b : option jsstring) (t : option number) (h : option (gmap (list Z) (list Z))) :
  let pricedb := PriceDBClient.constructor (PriceDBClient.mkConfig b t h) in
  let spells := SpellsClient.constructor (SpellsClient.mkConfig b t h) in
  usable pricedb /\ usable spells /\
  (forall s, b = Some s -> s <> [] -> baseUrl pricedb = s /\ baseUrl spells = s) /\
  (b = None \/ b = Some [] ->
   baseUrl pricedb = lit "https://pricedb.io" /\
   baseUrl spells = lit "https://spell.pricedb.io") /\
  (forall n, t = Some n -> truthy_number n = true -> timeout pricedb = n /\ timeout spells = n) /\
  (t = None \/ t = Some (Int 0) \/ t = Some NegZero \/ t = Some NaN ->
   timeout pricedb = Int 10000 /\ timeout spells = Int 10000) /\
  (forall H v, h = Some H -> H !! lit "Content-Type" = Some v ->
               headers pricedb !! lit "Content-Type" = Some v /\
               headers spells !! lit "Content-Type" = Some v) /\
  (h = None \/ (exists H, h = Some H /\ H !! lit "Content-Type" = None) ->
   headers pricedb !! lit "Content-Type" = Some (lit "application/json") /\
   headers spells !! lit "Content-Type" = Some (lit "application/json")) /\
  (forall calls w, this (run calls w) = this w).
Proof.
  cbv zeta.
  assert (Hct : forall i, headers i = spread default_headers h ->
                          is_Some (headers i !! lit "Content-Type")).
  { intros i ->. destruct h as [H|]; cbn [spread].
    - apply lookup_union_is_Some. right. unfold default_headers.
      rewrite lookup_singleton_eq. eauto.
    - unfold default_headers. rewrite lookup_singleton_eq. eauto. }
  assert (Ht : truthy_number (or_else truthy_number t (Int 10000)) = true).
  { destruct t as [n|]; cbn [or_else]; [|reflexivity].
    destruct (truthy_number n) eqn:E; [exact E | reflexivity]. }
  assert (Hb : forall d, d <> [] -> or_else truthy_string b d <> []).
  { intros d Hd. destruct b as [[|c s]|]; cbn [or_else truthy_string]; [exact Hd | discriminate | exact Hd]. }
  repeat apply conj.
  - apply Hb. discriminate.
  - exact Ht.
  - apply Hct. reflexivity.
  - apply Hb. discriminate.
  - exact Ht.
  - apply Hct. reflexivity.
  - intros s -> Hs. destruct s; [contradiction|]. split; reflexivity.
  - intros [-> | ->]; split; reflexivity.
  - intros n -> Hn. cbn [PriceDBClient.constructor SpellsClient.constructor timeout
                         PriceDBClient.config_timeout SpellsClient.config_timeout or_else].
    rewrite Hn. split; reflexivity.
  - intros [-> | [-> | [-> | ->]]]; split; reflexivity.
  - intros H v -> Hv.
    cbn [PriceDBClient.constructor SpellsClient.constructor headers
         PriceDBClient.config_headers SpellsClient.config_headers spread].
    split; apply lookup_union_Some_l; exact Hv.
  - intros [-> | (H & -> & Hnone)];
      cbn [PriceDBClient.constructor SpellsClient.constructor headers
           PriceDBClient.config_headers SpellsClient.config_headers spread].
    + unfold default_headers. rewrite lookup_singleton_eq. split; reflexivity.
    + rewrite lookup_union_r by exact Hnone.
      unfold default_headers. rewrite lookup_singleton_eq. split; reflexivity.
  - intros calls w. apply run_this.
Qed.

(** ** Form-encoded parameters *)

Lemma to_scalar_values_scalar s :
  well_formed_units s -> Forall scalar (to_scalar_values s).
Proof.
  unfold well_formed_units.
  induction s as [|c|c d rest IH1 IH2] using list_pair_ind; intros Hwf.
  - constructor.
  - inversion Hwf as [|? ? Hc _]; subst. rewrite to_scalar_values_cons.
    destruct (is_leading_surrogate c); [|destruct (is_trailing_surrogate c)];
      repeat constructor; unfold scalar, code_unit in *; lia.
  - inversion Hwf as [|? ? Hc Hrest]; subst. inversion Hrest as [|? ? Hd Hrest']; subst.
    rewrite to_scalar_values_cons.
    destruct (is_leading_surrogate c) eqn:Hl.
    + destruct (is_trailing_surrogate d) eqn:Ht.
      * constructor; [|auto]. pose proof (pair_scalar c d Hl Ht). unfold scalar. lia.
      * constructor; [unfold scalar; lia | auto].
    + destruct (is_trailing_surrogate c); (constructor; [|auto]);
        unfold scalar, code_unit in *; lia.
Qed.

Lemma hex_digit_form k : 0 <= k < 16 -> form_unit (hex_digit k) = true.
Proof.
  intros Hk. unfold form_unit, hex_digit. destruct (Z.ltb_spec k 10); charset; lia.
Qed.

Lemma urlencoded_octet_units b :
  octet b -> Forall (fun c => form_unit c = true) (urlencoded_octet b).
Proof.
  intros Hb. unfold urlencoded_octet.
  destruct (Z.eqb_spec b 32); [repeat constructor|].
  destruct (is_ascii_alphanumeric b || one_of (lit "*-._") b) eqn:E.
  - repeat constructor. revert E. unfold form_unit. charset. lia.
  - destruct (octet_nibbles b Hb) as [Hhi Hlo]. unfold percent_octet.
    repeat constructor; auto using hex_digit_form.
Qed.

Lemma urlencoded_units scalars :
  Forall scalar scalars -> Forall (fun c => form_unit c = true) (urlencoded scalars).
Proof.
  intros Hs. unfold urlencoded.
  assert (Ho : Forall octet (flat_map utf8 scalars)).
  { induction Hs as [|cp l Hcp _ IH]; [constructor|].
    cbn [flat_map]. apply Forall_app. split; [apply utf8_octets, Hcp | exact IH]. }
  induction Ho as [|b l Hb _ IH]; [constructor|].
  cbn [flat_map]. apply Forall_app. split; [apply urlencoded_octet_units, Hb | exact IH].
Qed.

Lemma occurrences_app c s1 s2 :
  occurrences c (s1 ++ s2) = (occurrences c s1 + occurrences c s2)%nat.
Proof. apply count_occ_app. Qed.

Lemma form_units_have_no_separator s :
  Forall (fun c => form_unit c = true) s -> occurrences 61 s = 0%nat /\ occurrences 38 s = 0%nat.
Proof.
  unfold occurrences.
  induction 1 as [|c l Hc _ [IH1 IH2]]; [split; reflexivity|].
  assert (c <> 61 /\ c <> 38) as [H1 H2] by (revert Hc; unfold form_unit; charset; lia).
  rewrite !count_occ_cons_neq by assumption. auto.
Qed.

Lemma URLSearchParams_toString_cons n v rest :
  URLSearchParams_toString ((n, v) :: rest) =
  match rest with
  | [] => urlencoded n ++ lit "=" ++ urlencoded v
  | _ => (urlencoded n ++ lit "=" ++ urlencoded v) ++ lit "&" ++ URLSearchParams_toString rest
  end.
Proof. destruct rest; reflexivity. Qed.

Lemma tuple_shape n v :
  Forall scalar n -> Forall scalar v ->
  query_shape 1 (urlencoded n ++ lit "=" ++ urlencoded v).
Proof.
  intros Hn Hv. apply urlencoded_units in Hn, Hv.
  destruct (form_units_have_no_separator _ Hn) as [En An].
  destruct (form_units_have_no_separator _ Hv) as [Ev Av].
  unfold query_shape. rewrite !occurrences_app, En, An, Ev, Av.
  split; [reflexivity|]. split; [reflexivity|].
  apply Forall_app. split; [|apply Forall_app; split].
  - eapply Forall_impl; [exact Hn|]. cbn beta. auto.
  - constructor; [right; left; reflexivity | constructor].
  - eapply Forall_impl; [exact Hv|]. cbn beta. auto.
Qed.

Lemma toString_shape params :
  params <> [] ->
  Forall (fun kv => Forall scalar (fst kv) /\ Forall scalar (snd kv)) params ->
  query_shape (length params) (URLSearchParams_toString params).
Proof.
  induction params as [|[n v] rest IH]; intros Hne Hall; [contradiction|].
  inversion Hall as [|? ? [Hn Hv] Hrest]; subst. cbn [fst snd] in *.
  rewrite URLSearchParams_toString_cons.
  destruct rest as [|kv rest]; [apply tuple_shape; assumption|].
  destruct (tuple_shape n v Hn Hv) as (E1 & A1 & F1).
  destruct (IH ltac:(discriminate) Hrest) as (E2 & A2 & F2).
  set (first := urlencoded n ++ lit "=" ++ urlencoded v) in *.
  set (others := URLSearchParams_toString (kv :: rest)) in *.
  unfold query_shape. rewrite !occurrences_app, E1, A1, E2, A2.
  cbn [length pred]. split; [reflexivity|]. split; [reflexivity|].
  apply Forall_app. split; [exact F1|]. apply Forall_app. split; [|exact F2].
  constructor; [right; right; reflexivity | constructor].
Qed.

Lemma digits_decimal d : Forall (fun c => is_ascii_digit c = true) (digits d).
Proof. induction d; cbn [digits]; constructor; auto. Qed.

Lemma Number_toString_units n : well_formed_units (Number_toString n).
Proof.
  assert (Hd : forall d, well_formed_units (digits d)).
  { intros d. eapply Forall_impl; [apply digits_decimal|]. cbn beta.
    intros c. unfold is_ascii_digit, code_unit. rewrite andb_true_iff, !Z.leb_le. lia. }
  assert (Hl : forall s, forallb (fun c => (0 <=? c) && (c <? 65536)) (lit s) = true ->
                         well_formed_units (lit s)).
  { intros s Hs. apply Forall_forall. intros c Hc.
    rewrite forallb_forall in Hs. apply list_elem_of_In in Hc. specialize (Hs c Hc).
    unfold code_unit. lia. }
  destruct n as [[|p|p]| | |[]]; cbn [Number_toString];
    first [ apply Hd | apply Hl; reflexivity | idtac ].
  apply Forall_app. split; [apply Hl; reflexivity | apply Hd].
Qed.

Lemma lit_units s : well_formed_units (lit s).
Proof.
  apply Forall_forall. intros c Hc. apply list_elem_of_In, in_map_iff in Hc as (a & <- & _).
  pose proof (N_ascii_bounded a). unfold code_unit. lia.
Qed.

Lemma appended_scalars params n v :
  Forall (fun kv => Forall scalar (fst kv) /\ Forall scalar (snd kv)) params ->
  well_formed_units n -> well_formed_units v ->
  Forall (fun kv => Forall scalar (fst kv) /\ Forall scalar (snd kv))
         (URLSearchParams_append params n v).
Proof.
  intros Hp Hn Hv. unfold URLSearchParams_append. apply Forall_app. split; [exact Hp|].
  constructor; [|constructor]. split; apply to_scalar_values_scalar; assumption.
Qed.

Lemma record_scalars entries :
  Forall (fun kv => well_formed_units (fst kv) /\ well_formed_units (snd kv)) entries ->
  Forall (fun kv => Forall scalar (fst kv) /\ Forall scalar (snd kv))
         (URLSearchParams_of_record entries).
Proof.
  intros He. unfold URLSearchParams_of_record. apply Forall_map.
  eapply Forall_impl; [exact He|]. cbn beta. intros kv [Hk Hv].
  split; apply to_scalar_values_scalar; assumption.
Qed.

Lemma queries_request (m : M JSON) path params w :
  (forall w, m w = PriceDBClient.request (path ++ lit "?" ++ URLSearchParams_toString params)
                                         no_options w) ->
  params <> [] ->
  Forall (fun kv => Forall scalar (fst kv) /\ Forall scalar (snd kv)) params ->
  queries m w path (length params).
Proof.
  intros Hm Hne Hp. exists (URLSearchParams_toString params). split.
  - rewrite (sent_if_request m _ no_options w Hm). reflexivity.
  - apply toString_shape; assumption.
Qed.

(** X11. Text given to a method as a search query, a spell or item name or a
    list of ids cannot change the structure of the request.  Whatever the
    text (a "&", "=", "#", "?" or space included), [search] and the five
    methods of the spells client that take text or a number send one GET
    request for their fixed path and a query string with exactly the
    parameters the method names: one "=" per parameter, one "&" between
    two, and besides these only letters, digits and the marks * - . _ + %.
    None of these calls can throw on its arguments. *)
Theorem text_stays_inside_its_parameter (a b : jsstring) (n : option number) (id : number)
        (w : World) :
  well_formed_units a -> well_formed_units b ->
  queries (PriceDBClient.search (SearchOptions.mk a n)) w (lit "/api/search")
          (match n with
           | Some limit => if truthy_number limit then 2 else 1
           | None => 1
           end) /\
  queries (SpellsClient.predict (PredictOptions.mk a b)) w (lit "/api/spell/predict") 2 /\
  queries (SpellsClient.getSpellValue a) w (lit "/api/spell/spell-value") 1 /\
  queries (SpellsClient.getItemSpellPremium (ItemSpellPremiumOptions.mk a b)) w
          (lit "/api/spell/item-spell-premium") 2 /\
  queries (SpellsClient.spellIdToName id) w (lit "/api/spell/spell-id-to-name") 1 /\
  queries (SpellsClient.spellNameToId a) w (lit "/api/spell/spell-name-to-id") 1.
Proof.
  intros Ha Hb.
  pose proof (Number_toString_units id) as Hid.
  repeat apply conj.
  - unfold PriceDBClient.search. cbn [SearchOptions.query SearchOptions.limit].
    destruct n as [limit|]; [destruct (truthy_number limit)|].
    + apply (queries_request _ (lit "/api/search")
               (URLSearchParams_append
                  (URLSearchParams_append URLSearchParams_new (lit "q") a)
                  (lit "limit") (Number_toString limit)));
        [intros; reflexivity | discriminate |].
      repeat apply appended_scalars;
        auto using lit_units, Number_toString_units; constructor.
    + apply (queries_request _ (lit "/api/search")
               (URLSearchParams_append URLSearchParams_new (lit "q") a));
        [intros; reflexivity | discriminate |].
      repeat apply appended_scalars; auto using lit_units; constructor.
    + apply (queries_request _ (lit "/api/search")
               (URLSearchParams_append URLSearchParams_new (lit "q") a));
        [intros; reflexivity | discriminate |].
      repeat apply appended_scalars; auto using lit_units; constructor.
  - apply (queries_request _ (lit "/api/spell/predict")
             (URLSearchParams_of_record [(lit "spells", a); (lit "item", b)]));
      [intros; reflexivity | discriminate |].
    apply record_scalars.
    repeat first [ apply Forall_nil_2
                 | apply Forall_cons_2; [split; cbn [fst snd]; auto using lit_units|] ].
  - apply (queries_request _ (lit "/api/spell/spell-value")
             (URLSearchParams_of_record [(lit "ids", a)]));
      [intros; reflexivity | discriminate |].
    apply record_scalars.
    repeat first [ apply Forall_nil_2
                 | apply Forall_cons_2; [split; cbn [fst snd]; auto using lit_units|] ].
  - apply (queries_request _ (lit "/api/spell/item-spell-premium")
             (URLSearchParams_of_record [(lit "item", a); (lit "ids", b)]));
      [intros; reflexivity | discriminate |].
    apply record_scalars.
    repeat first [ apply Forall_nil_2
                 | apply Forall_cons_2; [split; cbn [fst snd]; auto using lit_units|] ].
  - apply (queries_request _ (lit "/api/spell/spell-id-to-name")
             (URLSearchParams_of_record [(lit "id", Number_toString id)]));
      [intros; reflexivity | discriminate |].
    apply record_scalars.
    repeat first [ apply Forall_nil_2
                 | apply Forall_cons_2; [split; cbn [fst snd]; auto using lit_units|] ].
  - apply (queries_request _ (lit "/api/spell/spell-name-to-id")
             (URLSearchParams_of_record [(lit "name", a)]));
      [intros; reflexivity | discriminate |].
    apply record_scalars.
    repeat first [ apply Forall_nil_2
                 | apply Forall_cons_2; [split; cbn [fst snd]; auto using lit_units|] ].
Qed.

(** X11 at a search query and an item name
    that contain separators. *)
Lemma separators_in_a_query :
  queries (PriceDBClient.search (SearchOptions.mk (lit "a&limit=9#x") (Some (Int 5))))
          test_item_world (lit "/api/search") 2 /\
  queries (SpellsClient.predict (PredictOptions.mk (lit "a&limit=9#x") (lit "Rocket Launcher?")))
          test_item_world (lit "/api/spell/predict") 2.
Proof.
  destruct (text_stays_inside_its_parameter (lit "a&limit=9#x") (lit "Rocket Launcher?")
              (Some (Int 5)) (Int 3) test_item_world) as (Hsearch & Hpredict & _).
  - repeat constructor; unfold code_unit; lia.
  - repeat constructor; unfold code_unit; lia.
  - split; [exact Hsearch | exact Hpredict].
Defined.

(** The query of the example above, as it is sent. *)
Example separators_are_escaped :
  sent (PriceDBClient.search (SearchOptions.mk (lit "a&limit=9#x") (Some (Int 5))))
       test_item_world =
  [(lit "https://pricedb.io/api/search?q=a%26limit%3D9%23x&limit=5", None, None)] /\
  sent (SpellsClient.predict (PredictOptions.mk (lit "a&limit=9#x") (lit "Rocket Launcher?")))
       five_second_world =
  [(lit "https://spell.pricedb.io/api/spell/predict?spells=a%26limit%3D9%23x&item=Rocket+Launcher%3F",
    None, None)].
Proof. split; vm_compute; reflexivity. Qed.

(** ** What the server can read back *)

Lemma urlencoded_octet_cases b :
  octet b ->
  (b = 32 /\ urlencoded_octet b = [43]) \/
  (urlencoded_octet b = [b] /\ b <> 43 /\ b <> 37) \/
  urlencoded_octet b = percent_octet b.
Proof.
  intros Hb. unfold urlencoded_octet.
  destruct (Z.eqb_spec b 32); [left; auto|]. right.
  destruct (is_ascii_alphanumeric b || one_of (lit "*-._") b) eqn:E; [left|right; reflexivity].
  split; [reflexivity|]. revert E. charset. lia.
Qed.

Lemma urlencoded_octets_inj bs1 bs2 :
  Forall octet bs1 -> Forall octet bs2 ->
  flat_map urlencoded_octet bs1 = flat_map urlencoded_octet bs2 -> bs1 = bs2.
Proof.
  intros H1. revert bs2.
  induction H1 as [|b1 bs1 Hb1 _ IH]; intros bs2 H2 Heq.
  - destruct H2 as [|b2 bs2 Hb2 _]; [reflexivity|]. cbn [flat_map] in Heq.
    destruct (urlencoded_octet_cases b2 Hb2) as [[_ E]|[[E _]|E]];
      rewrite E in Heq; discriminate Heq.
  - destruct H2 as [|b2 bs2 Hb2 H2]; cbn [flat_map] in Heq.
    + destruct (urlencoded_octet_cases b1 Hb1) as [[_ E]|[[E _]|E]];
        rewrite E in Heq; discriminate Heq.
    + destruct (urlencoded_octet_cases b1 Hb1) as [[B1 E1]|[[E1 [N1 P1]]|E1]];
        destruct (urlencoded_octet_cases b2 Hb2) as [[B2 E2]|[[E2 [N2 P2]]|E2]];
        rewrite E1, E2 in Heq; unfold percent_octet in Heq; cbn [app] in Heq;
        try (injection Heq; intros; subst; congruence).
      * injection Heq as Hrest. subst. f_equal. apply IH; assumption.
      * injection Heq as Hb Hrest. subst. f_equal. apply IH; assumption.
      * injection Heq as Hhi Hlo Hrest.
        assert (b1 = b2)
          by (apply percent_octet_inj; [assumption..| unfold percent_octet; congruence]).
        subst. f_equal. apply IH; assumption.
Qed.

Lemma utf8_stream_inj l1 l2 :
  Forall scalar l1 -> Forall scalar l2 -> flat_map utf8 l1 = flat_map utf8 l2 -> l1 = l2.
Proof.
  intros H1. revert l2.
  induction H1 as [|c1 l1 Hc1 _ IH]; intros l2 H2 Heq.
  - destruct H2 as [|c2 l2 _ _]; [reflexivity|]. cbn [flat_map] in Heq.
    destruct (utf8_head c2) as (b & bs & E). rewrite E in Heq. discriminate Heq.
  - destruct H2 as [|c2 l2 Hc2 H2]; cbn [flat_map] in Heq.
    + destruct (utf8_head c1) as (b & bs & E). rewrite E in Heq. discriminate Heq.
    + assert (Hlen : length (utf8 c1) = length (utf8 c2)).
      { apply utf8_length_by_head; [assumption..|].
        destruct (utf8_head c1) as (b1 & t1 & E1), (utf8_head c2) as (b2 & t2 & E2).
        rewrite E1, E2 in *. cbn [app] in Heq. injection Heq as Hb _. exact Hb. }
      destruct (app_inj_1 _ _ _ _ Hlen Heq) as [Hu Hrest].
      apply utf8_inj in Hu; [|assumption..]. subst. f_equal. apply IH; assumption.
Qed.

Lemma urlencoded_inj l1 l2 :
  Forall scalar l1 -> Forall scalar l2 -> urlencoded l1 = urlencoded l2 -> l1 = l2.
Proof.
  assert (Ho : forall l, Forall scalar l -> Forall octet (flat_map utf8 l)).
  { induction 1 as [|cp l Hcp _ IH]; [constructor|].
    cbn [flat_map]. apply Forall_app. split; [apply utf8_octets, Hcp | exact IH]. }
  intros H1 H2 Heq. apply utf8_stream_inj; [assumption..|].
  apply urlencoded_octets_inj; auto.
Qed.

Lemma text_step c rest :
  text (c :: rest) ->
  (code_unit c /\ is_leading_surrogate c = false /\ is_trailing_surrogate c = false /\
   to_scalar_values (c :: rest) = c :: to_scalar_values rest /\ text rest) \/
  (exists d rest',
      rest = d :: rest' /\ is_leading_surrogate c = true /\ is_trailing_surrogate d = true /\
      to_scalar_values (c :: rest) =
      UTF16SurrogatePairToCodePoint c d :: to_scalar_values rest' /\ text rest').
Proof.
  unfold text, well_formed_units. intros [Hwf Hp].
  inversion Hwf as [|? ? Hc Hrest]; subst.
  rewrite to_scalar_values_cons. cbn [well_paired] in Hp.
  destruct (is_leading_surrogate c) eqn:Hl.
  - right. destruct rest as [|d rest']; [discriminate Hp|].
    apply andb_true_iff in Hp as [Ht Hp]. rewrite Ht.
    inversion Hrest; subst. exists d, rest'. auto 10.
  - left. apply andb_true_iff in Hp as [Ht Hp]. apply negb_true_iff in Ht. rewrite Ht. auto 10.
Qed.

Lemma to_scalar_values_inj s1 s2 :
  text s1 -> text s2 -> to_scalar_values s1 = to_scalar_values s2 -> s1 = s2.
Proof.
  remember (length s1) as n eqn:Hn. revert s1 s2 Hn.
  induction n as [n IH] using lt_wf_ind. intros [|c1 r1] [|c2 r2] Hn H1 H2 Heq.
  - reflexivity.
  - destruct (text_step _ _ H2) as [(_ & _ & _ & E & _)|(d & r & _ & _ & _ & E & _)];
      rewrite E in Heq; discriminate Heq.
  - destruct (text_step _ _ H1) as [(_ & _ & _ & E & _)|(d & r & _ & _ & _ & E & _)];
      rewrite E in Heq; discriminate Heq.
  - cbn [length] in Hn.
    destruct (text_step _ _ H1) as [(U1 & L1 & T1 & E1 & R1)|(d1 & r1' & -> & L1 & T1 & E1 & R1)];
      destruct (text_step _ _ H2) as [(U2 & L2 & T2 & E2 & R2)|(d2 & r2' & -> & L2 & T2 & E2 & R2)];
      rewrite E1, E2 in Heq; injection Heq as Hhd Htl.
    + subst c2. f_equal. apply (IH (length r1) ltac:(lia) r1 r2 eq_refl); assumption.
    + exfalso. pose proof (pair_scalar c2 d2 L2 T2). unfold code_unit in U1. lia.
    + exfalso. pose proof (pair_scalar c1 d1 L1 T1). unfold code_unit in U2. lia.
    + apply pair_inj in Hhd as [-> ->]; [|assumption..]. do 2 f_equal.
      apply (IH (length r1') ltac:(cbn [length] in Hn; lia) r1' r2' eq_refl); assumption.
Qed.

Lemma text_scalars s : text s -> Forall scalar (to_scalar_values s).
Proof. intros [Hwf _]. apply to_scalar_values_scalar, Hwf. Qed.

(** A string without [x] before [x] is found again by cutting at the first [x]. *)
Lemma cut_at_first (x : Z) l1 l2 r1 r2 :
  occurrences x l1 = 0%nat -> occurrences x l2 = 0%nat ->
  l1 ++ x :: r1 = l2 ++ x :: r2 -> l1 = l2 /\ r1 = r2.
Proof.
  unfold occurrences. revert l2.
  induction l1 as [|a l1 IH]; intros [|b l2] H1 H2 Heq; cbn [app] in Heq.
  - injection Heq as ->. auto.
  - injection Heq as <- _. cbn [count_occ] in H2.
    destruct (Z.eq_dec x x); [discriminate H2 | contradiction].
  - injection Heq as -> _. cbn [count_occ] in H1.
    destruct (Z.eq_dec x x); [discriminate H1 | contradiction].
  - injection Heq as -> Heq. cbn [count_occ] in H1, H2.
    destruct (Z.eq_dec b x); [discriminate H1|].
    destruct (IH l2 H1 H2 Heq) as [-> ->]. auto.
Qed.

Lemma tuple_inj n v n' v' r r' :
  Forall scalar n -> Forall scalar v -> Forall scalar n' -> Forall scalar v' ->
  (r = [] /\ r' = [] \/ exists t t', r = 38 :: t /\ r' = 38 :: t') ->
  (urlencoded n ++ lit "=" ++ urlencoded v) ++ r =
  (urlencoded n' ++ lit "=" ++ urlencoded v') ++ r' ->
  n = n' /\ v = v' /\ r = r'.
Proof.
  intros Hn Hv Hn' Hv' Hr Heq.
  destruct (form_units_have_no_separator _ (urlencoded_units _ Hn)) as [En _].
  destruct (form_units_have_no_separator _ (urlencoded_units _ Hn')) as [En' _].
  destruct (form_units_have_no_separator _ (urlencoded_units _ Hv)) as [_ Av].
  destruct (form_units_have_no_separator _ (urlencoded_units _ Hv')) as [_ Av'].
  rewrite <- !app_assoc in Heq. change (lit "=" ++ ?x) with (61 :: x) in Heq.
  apply cut_at_first in Heq as [Hname Heq]; [|assumption..].
  apply urlencoded_inj in Hname; [|assumption..].
  destruct Hr as [[-> ->]|(t & t' & -> & ->)].
  - rewrite !app_nil_r in Heq. apply urlencoded_inj in Heq; auto.
  - apply cut_at_first in Heq as [Hvalue ->]; [|assumption..].
    apply urlencoded_inj in Hvalue; auto.
Qed.

(** The serializer of query parameters loses nothing: two lists of as many
    parameters with the same serialization are the same list. *)
Lemma URLSearchParams_toString_inj params params' :
  length params = length params' ->
  Forall (fun kv => Forall scalar (fst kv) /\ Forall scalar (snd kv)) params ->
  Forall (fun kv => Forall scalar (fst kv) /\ Forall scalar (snd kv)) params' ->
  URLSearchParams_toString params = URLSearchParams_toString params' ->
  params = params'.
Proof.
  revert params'.
  induction params as [|[n v] rest IH]; intros [|[n' v'] rest'] Hlen Hp Hp' Heq;
    try discriminate Hlen; [reflexivity|].
  injection Hlen as Hlen.
  inversion Hp as [|? ? [Hn Hv] Hrest]; inversion Hp' as [|? ? [Hn' Hv'] Hrest']; subst.
  cbn [fst snd] in *. rewrite !URLSearchParams_toString_cons in Heq.
  destruct rest as [|kv rest], rest' as [|kv' rest']; try discriminate Hlen.
  - rewrite <- (app_nil_r (urlencoded n ++ _)), <- (app_nil_r (urlencoded n' ++ _)) in Heq.
    apply tuple_inj in Heq as (-> & -> & _); auto.
  - change (lit "&" ++ ?x) with (38 :: x) in Heq.
    apply tuple_inj in Heq as (-> & -> & Htail); auto; [|right; eauto].
    injection Htail as Htail. f_equal. apply IH; auto.
Qed.

Lemma same_request_same_endpoint (m m' : M JSON) endpoint endpoint' w :
  (forall w, m w = PriceDBClient.request endpoint no_options w) ->
  (forall w, m' w = PriceDBClient.request endpoint' no_options w) ->
  sent m w = sent m' w -> endpoint = endpoint'.
Proof.
  intros Hm Hm'. rewrite (sent_if_request m _ _ w Hm), (sent_if_request m' _ _ w Hm').
  intros [= Heq]. apply app_inv_head in Heq. exact Heq.
Qed.

Lemma same_query_same_parameters (m m' : M JSON) path params params' w :
  (forall w, m w = PriceDBClient.request (path ++ URLSearchParams_toString params)
                                         no_options w) ->
  (forall w, m' w = PriceDBClient.request (path ++ URLSearchParams_toString params')
                                          no_options w) ->
  length params = length params' ->
  Forall (fun kv => Forall scalar (fst kv) /\ Forall scalar (snd kv)) params ->
  Forall (fun kv => Forall scalar (fst kv) /\ Forall scalar (snd kv)) params' ->
  sent m w = sent m' w -> params = params'.
Proof.
  intros Hm Hm' Hlen Hp Hp' Heq.
  apply (same_request_same_endpoint m m' _ _ w Hm Hm'), app_inv_head in Heq.
  apply URLSearchParams_toString_inj; assumption.
Qed.

Ltac units :=
  first [ apply lit_units | apply Number_toString_units
        | match goal with H : text ?s |- well_formed_units ?s => exact (proj1 H) end
        | assumption ].

Ltac scalars :=
  lazymatch goal with
  | |- Forall _ (URLSearchParams_append _ _ _) =>
    apply appended_scalars; [scalars | units | units]
  | |- Forall _ (URLSearchParams_of_record _) => apply record_scalars; scalars
  | |- Forall _ URLSearchParams_new => apply Forall_nil_2
  | |- Forall _ [] => apply Forall_nil_2
  | |- Forall _ (_ :: _) => apply Forall_cons_2; [split; cbn [fst snd]; units | scalars]
  end.

Ltac parameters_of H path ps ps' :=
  apply (same_query_same_parameters _ _ path ps ps') in H;
  [ | intros; reflexivity | intros; reflexivity | reflexivity | scalars | scalars ].

(** X12. The server can read back the text it was sent: for text in which every
    surrogate is paired, [search] and the text-taking methods of the spells
    client send different requests for different text, so no two queries,
    names or id lists are confused on the way.  Text with an unpaired
    surrogate is not kept apart: the surrogate is sent as U+FFFD, so a name
    that begins with one is requested as if it began with U+FFFD (where a
    sku in a path would be refused with a URIError). *)
Theorem distinct_text_gives_distinct_request (a a' b b' : jsstring) (n : option number)
        (w : World) :
  text a -> text a' -> text b -> text b' ->
  (sent (PriceDBClient.search (SearchOptions.mk a n)) w =
   sent (PriceDBClient.search (SearchOptions.mk a' n)) w -> a = a') /\
  (sent (SpellsClient.predict (PredictOptions.mk a b)) w =
   sent (SpellsClient.predict (PredictOptions.mk a' b')) w -> a = a' /\ b = b') /\
  (sent (SpellsClient.getSpellValue a) w = sent (SpellsClient.getSpellValue a') w ->
   a = a') /\
  (sent (SpellsClient.getItemSpellPremium (ItemSpellPremiumOptions.mk a b)) w =
   sent (SpellsClient.getItemSpellPremium (ItemSpellPremiumOptions.mk a' b')) w ->
   a = a' /\ b = b') /\
  (sent (SpellsClient.spellNameToId a) w = sent (SpellsClient.spellNameToId a') w ->
   a = a') /\
  (forall s, sent (SpellsClient.spellNameToId (0xDC00 :: s)) w =
             sent (SpellsClient.spellNameToId (0xFFFD :: s)) w).
Proof.
  intros Ha Ha' Hb Hb'.
  assert (Hinj : forall s s', text s -> text s' ->
                              to_scalar_values s = to_scalar_values s' -> s = s')
    by (intros; apply to_scalar_values_inj; assumption).
  repeat apply conj.
  - intros H. apply (Hinj a a' Ha Ha').
    unfold PriceDBClient.search in H. cbn [SearchOptions.query SearchOptions.limit] in H.
    destruct n as [limit|]; [destruct (truthy_number limit)|].
    + parameters_of H (lit "/api/search?")
        (URLSearchParams_append (URLSearchParams_append URLSearchParams_new (lit "q") a)
                                (lit "limit") (Number_toString limit))
        (URLSearchParams_append (URLSearchParams_append URLSearchParams_new (lit "q") a')
                                (lit "limit") (Number_toString limit)).
      injection H as H. exact H.
    + parameters_of H (lit "/api/search?")
        (URLSearchParams_append URLSearchParams_new (lit "q") a)
        (URLSearchParams_append URLSearchParams_new (lit "q") a').
      injection H as H. exact H.
    + parameters_of H (lit "/api/search?")
        (URLSearchParams_append URLSearchParams_new (lit "q") a)
        (URLSearchParams_append URLSearchParams_new (lit "q") a').
      injection H as H. exact H.
  - intros H.
    parameters_of H (lit "/api/spell/predict?")
      (URLSearchParams_of_record [(lit "spells", a); (lit "item", b)])
      (URLSearchParams_of_record [(lit "spells", a'); (lit "item", b')]).
    injection H as H1 H2. auto.
  - intros H.
    parameters_of H (lit "/api/spell/spell-value?")
      (URLSearchParams_of_record [(lit "ids", a)])
      (URLSearchParams_of_record [(lit "ids", a')]).
    injection H as H. auto.
  - intros H.
    parameters_of H (lit "/api/spell/item-spell-premium?")
      (URLSearchParams_of_record [(lit "item", a); (lit "ids", b)])
      (URLSearchParams_of_record [(lit "item", a'); (lit "ids", b')]).
    injection H as H1 H2. auto.
  - intros H.
    parameters_of H (lit "/api/spell/spell-name-to-id?")
      (URLSearchParams_of_record [(lit "name", a)])
      (URLSearchParams_of_record [(lit "name", a')]).
    injection H as H. auto.
  - intros s. unfold SpellsClient.spellNameToId, URLSearchParams_of_record.
    cbn [map fst snd]. rewrite !(to_scalar_values_cons _ s). reflexivity.
Qed.

(** X12 at two spell names that differ
    in case only. *)
Lemma case_is_kept_apart :
  bool_decide (sent (SpellsClient.spellNameToId (lit "Exorcism")) five_second_world =
               sent (SpellsClient.spellNameToId (lit "exorcism")) five_second_world) = false.
Proof.
  apply bool_decide_eq_false. intros H.
  destruct (distinct_text_gives_distinct_request (lit "Exorcism") (lit "exorcism") [] []
              None five_second_world) as (_ & _ & _ & _ & Hname & _).
  - split; [repeat constructor; unfold code_unit; lia | reflexivity].
  - split; [repeat constructor; unfold code_unit; lia | reflexivity].
  - split; [constructor | reflexivity].
  - split; [constructor | reflexivity].
  - apply Hname in H. discriminate H.
Defined.

(** ** Numbers in a URL *)

Lemma digits_inj d d' : digits d = digits d' -> d = d'.
Proof.
  revert d'. induction d; destruct d'; cbn [digits]; intros H;
    try discriminate H; try reflexivity; injection H as H; f_equal; auto.
Qed.

Lemma digits_are_digits d s : digits d = s -> forallb is_ascii_digit s = true.
Proof.
  intros <-. apply forallb_forall. intros c Hc. apply list_elem_of_In in Hc.
  pose proof (digits_decimal d) as Hd. rewrite Forall_forall in Hd. auto.
Qed.

Lemma printed_positive p :
  exists c rest, digits (Pos.to_uint p) = c :: rest /\ is_ascii_digit c = true /\
                 digits (Pos.to_uint p) <> lit "0".
Proof.
  pose proof (DecimalPos.Unsigned.to_uint_nonnil p) as Hnil.
  pose proof (DecimalPos.Unsigned.to_uint_nonzero p) as Hz.
  pose proof (digits_decimal (Pos.to_uint p)) as Hd.
  assert (Hne : digits (Pos.to_uint p) <> lit "0").
  { intros H. apply Hz, digits_inj. exact H. }
  destruct (digits (Pos.to_uint p)) as [|c rest] eqn:E.
  - exfalso. apply Hnil, digits_inj. exact E.
  - inversion Hd; subst. eauto.
Qed.

Lemma Number_toString_inj n n' :
  Number_toString n = Number_toString n' ->
  n = n' \/ (zero n = true /\ zero n' = true).
Proof.
  intros H.
  destruct n as [[|p|p]| | |[]], n' as [[|p'|p']| | |[]]; cbn [Number_toString zero] in *;
    try (left; reflexivity); try (right; split; reflexivity);
    repeat match goal with
           | H : context [lit ?s] |- _ =>
             let v := eval vm_compute in (lit s) in change (lit s) with v in H
           end;
    cbn [app] in H; try discriminate H;
    try (injection H as H);
    try (apply digits_inj, DecimalPos.Unsigned.to_uint_inj in H; subst; left; reflexivity);
    exfalso;
    repeat match type of H with
           | context [digits (Pos.to_uint ?q)] =>
             let c := fresh "c" in
             let rest := fresh "rest" in
             let E := fresh "E" in
             let Hc := fresh "Hc" in
             let Hne := fresh "Hne" in
             destruct (printed_positive q) as (c & rest & E & Hc & Hne);
             rewrite E in H; rewrite E in Hne; clear E
           end;
    first [ discriminate H
          | injection H; intros; subst;
            first [ discriminate | contradiction Hne; reflexivity
                  | match goal with Hc : is_ascii_digit _ = true |- _ =>
                                    vm_compute in Hc; discriminate Hc end ] ].
Qed.

Lemma ascii_text s : Forall (fun c => 0 <= c < 128) s -> text s.
Proof.
  induction 1 as [|c rest Hc _ [IHu IHp]]; [split; [constructor | reflexivity]|].
  split; [constructor; [unfold code_unit; lia | exact IHu]|].
  cbn [well_paired].
  replace (is_leading_surrogate c) with false
    by (symmetry; unfold is_leading_surrogate; apply andb_false_iff; rewrite !Z.leb_gt; lia).
  replace (is_trailing_surrogate c) with false
    by (symmetry; unfold is_trailing_surrogate; apply andb_false_iff; rewrite !Z.leb_gt; lia).
  exact IHp.
Qed.

Lemma Number_toString_text n : text (Number_toString n).
Proof.
  apply ascii_text.
  assert (Hd : forall d, Forall (fun c => 0 <= c < 128) (digits d)).
  { intros d. eapply Forall_impl; [apply digits_decimal|]. cbn beta.
    intros c. unfold is_ascii_digit. rewrite andb_true_iff, !Z.leb_le. lia. }
  assert (Hl : forall s, forallb (fun c => (0 <=? c) && (c <? 128)) (lit s) = true ->
                         Forall (fun c => 0 <= c < 128) (lit s)).
  { intros s Hs. apply Forall_forall. intros c Hc.
    rewrite forallb_forall in Hs. apply list_elem_of_In in Hc. specialize (Hs c Hc). lia. }
  destruct n as [[|p|p]| | |[]]; cbn [Number_toString];
    first [ apply Hd | apply Hl; reflexivity | idtac ].
  apply Forall_app. split; [apply Hl; reflexivity | apply Hd].
Qed.

Lemma zeros_print_alike n n' :
  n = n' \/ (zero n = true /\ zero n' = true) -> Number_toString n = Number_toString n'.
Proof.
  intros [->|[Hn Hn']]; [reflexivity|].
  destruct n as [[|p|p]| | |[]], n' as [[|p'|p']| | |[]]; first [reflexivity | discriminate].
Qed.

(** X13. A number written into a URL is written exactly.  Two timestamps ask
    [getSnapshot] for the same snapshot, and two ids ask [spellIdToName]
    for the same spell, only if they are the same number, the one exception
    being that -0 is sent as 0; NaN and the infinities are kept apart from
    each other and from every integer.  An integer timestamp is sent as
    digits with at most a minus sign, so it adds no separator to the path.
    (For safe integers, which the host holds exactly and prints with all
    their digits, and the special values.) *)
Theorem numbers_are_written_exactly (n n' : number) (w : World) :
  safe n -> safe n' ->
  (sent (PriceDBClient.getSnapshot n) w = sent (PriceDBClient.getSnapshot n') w <->
   n = n' \/ (zero n = true /\ zero n' = true)) /\
  (sent (SpellsClient.spellIdToName n) w = sent (SpellsClient.spellIdToName n') w <->
   n = n' \/ (zero n = true /\ zero n' = true)) /\
  (forall z, n = Int z ->
     exists p, sent (PriceDBClient.getSnapshot n) w =
               [(baseUrl (this w) ++ lit "/api/snapshot/" ++ p, None, None)] /\
               Forall (fun c => decimal_unit c = true) p).
Proof.
  intros _ _. split; [|split].
  - split.
    + intros H. apply Number_toString_inj.
      apply (same_request_same_endpoint _ _ (lit "/api/snapshot/" ++ Number_toString n)
               (lit "/api/snapshot/" ++ Number_toString n') w) in H;
        [|intros; reflexivity..].
      apply app_inv_head in H. exact H.
    + intros H. unfold PriceDBClient.getSnapshot. rewrite (zeros_print_alike n n' H).
      reflexivity.
  - split.
    + intros H. apply Number_toString_inj.
      parameters_of H (lit "/api/spell/spell-id-to-name?")
        (URLSearchParams_of_record [(lit "id", Number_toString n)])
        (URLSearchParams_of_record [(lit "id", Number_toString n')]).
      injection H as H. apply to_scalar_values_inj; auto using Number_toString_text.
    + intros H. unfold SpellsClient.spellIdToName. rewrite (zeros_print_alike n n' H).
      reflexivity.
  - intros z ->. exists (Number_toString (Int z)). split.
    + apply (sent_if_request _ _ no_options). intros; reflexivity.
    + assert (Hd : forall d, Forall (fun c => decimal_unit c = true) (digits d)).
      { intros d. eapply Forall_impl; [apply digits_decimal|]. cbn beta.
        intros c Hc. unfold decimal_unit. rewrite Hc. reflexivity. }
      destruct z as [|p|p]; cbn [Number_toString];
        [repeat constructor | apply Hd | constructor; [reflexivity | apply Hd]].
Qed.

(** X13 at a timestamp and the second after it. *)
Lemma consecutive_seconds_differ :
  bool_decide (sent (PriceDBClient.getSnapshot (Int 1700000000)) test_item_world =
               sent (PriceDBClient.getSnapshot (Int 1700000001)) test_item_world) = false.
Proof.
  apply bool_decide_eq_false. intros Heq.
  destruct (numbers_are_written_exactly (Int 1700000000) (Int 1700000001) test_item_world)
    as ([H _] & _).
  - unfold safe. vm_compute. reflexivity.
  - unfold safe. vm_compute. reflexivity.
  - destruct (H Heq) as [[=]|[[=] _]].
Defined.

(** ** The JSON text of a body *)

Lemma quote_units_cons c rest :
  quote_units (c :: rest) =
  if is_leading_surrogate c then
    match rest with
    | d :: rest' =>
      if is_trailing_surrogate d then c :: d :: quote_units rest'
      else UnicodeEscape c ++ quote_units rest
    | [] => UnicodeEscape c
    end
  else if is_trailing_surrogate c then UnicodeEscape c ++ quote_units rest
  else quote_unit c ++ quote_units rest.
Proof. reflexivity. Qed.

Lemma hex_digit_lower_inj a b :
  0 <= a < 16 -> 0 <= b < 16 -> hex_digit_lower a = hex_digit_lower b -> a = b.
Proof.
  unfold hex_digit_lower. intros Ha Hb.
  destruct (Z.ltb_spec a 10), (Z.ltb_spec b 10); lia.
Qed.

Lemma UnicodeEscape_inj c1 c2 A B :
  code_unit c1 -> code_unit c2 ->
  UnicodeEscape c1 ++ A = UnicodeEscape c2 ++ B -> c1 = c2 /\ A = B.
Proof.
  unfold code_unit, UnicodeEscape. intros H1 H2 Heq. cbn [app] in Heq.
  injection Heq as Ha Hb Hc Hd Hrest.
  apply hex_digit_lower_inj in Ha; [|euclid..].
  apply hex_digit_lower_inj in Hb; [|euclid..].
  apply hex_digit_lower_inj in Hc; [|euclid..].
  apply hex_digit_lower_inj in Hd; [|euclid..].
  split; [euclid | exact Hrest].
Qed.

(** One step of quoting a string of code units: a surrogate pair is copied,
    a plain code unit is copied, and everything else is written as a short
    escape or as a [UnicodeEscape]. *)
Lemma quote_step c rest :
  code_unit c ->
  (exists d rest',
      rest = d :: rest' /\ is_leading_surrogate c = true /\
      quote_units (c :: rest) = c :: d :: quote_units rest') \/
  (c <> 34 /\ c <> 92 /\ is_leading_surrogate c = false /\
   quote_units (c :: rest) = c :: quote_units rest) \/
  (exists x,
      In (x, c) [(98, 8); (116, 9); (110, 10); (102, 12); (114, 13); (34, 34); (92, 92)] /\
      quote_units (c :: rest) = 92 :: x :: quote_units rest) \/
  quote_units (c :: rest) = UnicodeEscape c ++ quote_units rest.
Proof.
  intros Hc. rewrite quote_units_cons.
  destruct (is_leading_surrogate c) eqn:Hl.
  - destruct rest as [|d rest']; [do 3 right; rewrite app_nil_r; reflexivity|].
    destruct (is_trailing_surrogate d); [left; eauto | do 3 right; reflexivity].
  - destruct (is_trailing_surrogate c) eqn:Ht; [do 3 right; reflexivity|].
    unfold quote_unit.
    repeat match goal with
           | |- context [?a =? ?b] =>
             destruct (Z.eqb_spec a b);
               [subst; right; right; left; eexists; split; [|reflexivity]; cbn [In]; tauto|]
           end.
    destruct (Z.ltb_spec c 32); [do 3 right; reflexivity|].
    right. left. auto.
Qed.

Lemma quote_units_inj s1 s2 R1 R2 :
  well_formed_units s1 -> well_formed_units s2 ->
  quote_units s1 ++ 34 :: R1 = quote_units s2 ++ 34 :: R2 ->
  s1 = s2 /\ R1 = R2.
Proof.
  unfold well_formed_units.
  remember (length s1) as n eqn:Hn. revert s1 s2 Hn.
  assert (Hesc : forall c, exists tl, UnicodeEscape c = 92 :: 117 :: tl)
    by (intros c; unfold UnicodeEscape; eauto).
  assert (Hlead : forall c, is_leading_surrogate c = true -> c <> 34 /\ c <> 92).
  { intros c. unfold is_leading_surrogate. rewrite andb_true_iff, !Z.leb_le. lia. }
  assert (Hnil : forall c rest R R',
             code_unit c -> 34 :: R <> quote_units (c :: rest) ++ R').
  { intros c rest R R' Hc Heq.
    destruct (quote_step c rest Hc)
      as [(d & rest' & -> & Hl & E)|[(N1 & N2 & _ & E)|[(x & Hx & E)|E]]];
      rewrite E in Heq.
    - injection Heq as Heq _. apply Hlead in Hl. lia.
    - injection Heq as Heq _. lia.
    - discriminate Heq.
    - destruct (Hesc c) as (tl & Etl). rewrite Etl in Heq. discriminate Heq. }
  induction n as [n IH] using lt_wf_ind. intros [|c1 r1] [|c2 r2] Hn H1 H2 Heq.
  - injection Heq as ->. auto.
  - inversion H2; subst. exfalso. exact (Hnil _ _ _ _ ltac:(eassumption) Heq).
  - inversion H1; subst. exfalso. symmetry in Heq. exact (Hnil _ _ _ _ ltac:(eassumption) Heq).
  - inversion H1 as [|? ? Hc1 Hr1]; inversion H2 as [|? ? Hc2 Hr2]; subst.
    cbn [length] in IH.
    destruct (quote_step c1 r1 Hc1)
      as [(d1 & r1' & -> & L1 & E1)|[(N1 & M1 & L1 & E1)|[(x1 & X1 & E1)|E1]]];
      destruct (quote_step c2 r2 Hc2)
        as [(d2 & r2' & -> & L2 & E2)|[(N2 & M2 & L2 & E2)|[(x2 & X2 & E2)|E2]]];
      rewrite E1, E2 in Heq; clear E1 E2;
      try (destruct (Hesc c1) as (tl1 & Etl1)); try (destruct (Hesc c2) as (tl2 & Etl2));
      try (pose proof (Hlead _ L1) as P1); try (pose proof (Hlead _ L2) as P2).
    all: cbn [app] in Heq.
    + injection Heq as -> -> Heq. inversion Hr1; inversion Hr2; subst.
      destruct (IH (length r1') ltac:(cbn [length]; lia) r1' r2' eq_refl
                   ltac:(assumption) ltac:(assumption) Heq) as [-> ->]. auto.
    + exfalso. injection Heq as -> _. congruence.
    + exfalso. injection Heq as -> _. lia.
    + exfalso. rewrite Etl2 in Heq. injection Heq as -> _. lia.
    + exfalso. injection Heq as -> _. congruence.
    + injection Heq as -> Heq.
      destruct (IH (length r1) ltac:(lia) r1 r2 eq_refl Hr1 Hr2 Heq) as [-> ->]. auto.
    + exfalso. injection Heq as -> _. lia.
    + exfalso. rewrite Etl2 in Heq. injection Heq as -> _. lia.
    + exfalso. injection Heq as <- _. lia.
    + exfalso. injection Heq as <- _. lia.
    + injection Heq as -> Heq.
      assert (c1 = c2).
      { cbn [In] in X1, X2.
        repeat match goal with
               | H : _ \/ _ |- _ => destruct H
               | H : (_, _) = (_, _) |- _ => injection H as ? ?
               | H : False |- _ => destruct H
               end; lia. }
      subst c2.
      destruct (IH (length r1) ltac:(lia) r1 r2 eq_refl Hr1 Hr2 Heq) as [-> ->]. auto.
    + exfalso. rewrite Etl2 in Heq. injection Heq as -> _. cbn [In] in X1.
      repeat match goal with
             | H : _ \/ _ |- _ => destruct H
             | H : (_, _) = (_, _) |- _ => discriminate H
             | H : False |- _ => destruct H
             end.
    + exfalso. rewrite Etl1 in Heq. injection Heq as <- _. lia.
    + exfalso. rewrite Etl1 in Heq. injection Heq as <- _. lia.
    + exfalso. rewrite Etl1 in Heq. injection Heq as <- _. cbn [In] in X2.
      repeat match goal with
             | H : _ \/ _ |- _ => destruct H
             | H : (_, _) = (_, _) |- _ => discriminate H
             | H : False |- _ => destruct H
             end.
    + clear Etl1 Etl2. rewrite <- !app_assoc in Heq.
      apply UnicodeEscape_inj in Heq as [-> Heq]; [|assumption..].
      destruct (IH (length r1) ltac:(lia) r1 r2 eq_refl Hr1 Hr2 Heq) as [-> ->]. auto.
Qed.

Lemma join_comma_cons p rest :
  join_comma (p :: rest) =
  match rest with
  | [] => p
  | _ => p ++ 44 :: join_comma rest
  end.
Proof. destruct rest; reflexivity. Qed.

(** A printed list of quoted strings is read back element by element: the
    closing bracket and the commas between elements are found again,
    whatever the strings contain. *)
Lemma joined_quotes_inj l1 l2 R1 R2 :
  Forall well_formed_units l1 -> Forall well_formed_units l2 ->
  join_comma (map QuoteJSONString l1) ++ 93 :: R1 =
  join_comma (map QuoteJSONString l2) ++ 93 :: R2 ->
  l1 = l2 /\ R1 = R2.
Proof.
  assert (Hq : forall s T, QuoteJSONString s ++ T = 34 :: quote_units s ++ 34 :: T).
  { intros s T. unfold QuoteJSONString. cbn [app]. rewrite <- app_assoc. reflexivity. }
  intros H1. revert l2.
  induction H1 as [|s1 l1 Hs1 Hl1 IH]; intros l2 H2 Heq;
    destruct H2 as [|s2 l2 Hs2 Hl2]; cbn [map] in Heq; rewrite ?join_comma_cons in Heq.
  - injection Heq as ->. auto.
  - exfalso. destruct (map QuoteJSONString l2); rewrite <- ?app_assoc, Hq in Heq;
      discriminate Heq.
  - exfalso. destruct (map QuoteJSONString l1); rewrite <- ?app_assoc, Hq in Heq;
      discriminate Heq.
  - destruct l1 as [|t1 l1], l2 as [|t2 l2]; cbn [map] in Heq;
      rewrite <- ?app_assoc, !Hq in Heq; injection Heq as Heq;
      apply quote_units_inj in Heq as [-> Heq]; try assumption.
    + injection Heq as ->. auto.
    + discriminate Heq.
    + discriminate Heq.
    + cbn [app] in Heq. injection Heq as Heq.
      destruct (IH (t2 :: l2) Hl2 Heq) as [-> ->]. auto.
Qed.

(** The body of a bulk lookup, written out. *)
Lemma bulk_body skus :
  JSON_stringify (JObject [(lit "skus", JArray (map JString skus))]) =
  (lit "{" ++ QuoteJSONString (lit "skus") ++ lit ":[") ++
  join_comma (map QuoteJSONString skus) ++ 93 :: lit "}".
Proof.
  cbn [JSON_stringify map join_comma fst snd]. rewrite map_map.
  rewrite <- !app_assoc. reflexivity.
Qed.

(** X14. The body of a bulk lookup holds the list of skus and nothing is lost or
    confused in it: two lookups send the same request only for the same
    skus in the same order, whatever quotes, commas, brackets, control
    characters or unpaired surrogates the skus contain. *)
Theorem bulk_body_determines_skus (skus skus' : list jsstring) (w : World) :
  Forall well_formed_units skus -> Forall well_formed_units skus' ->
  sent (PriceDBClient.getItemsBulk skus) w = sent (PriceDBClient.getItemsBulk skus') w ->
  skus = skus'.
Proof.
  intros Hs Hs' Heq. unfold PriceDBClient.getItemsBulk in Heq.
  erewrite !sent_if_request in Heq by (intros; reflexivity).
  cbn [req_body] in Heq.
  remember (JSON_stringify (JObject [(lit "skus", JArray (map JString skus))])) as body eqn:B.
  remember (JSON_stringify (JObject [(lit "skus", JArray (map JString skus'))])) as body' eqn:B'.
  injection Heq as Heq. rewrite bulk_body in B, B'. subst body body'.
  apply app_inv_head in Heq.
  apply joined_quotes_inj in Heq as [-> _]; auto.
Qed.

(** X14 at a sku that spells out the text between
    two list elements. *)
Lemma forged_list_is_told_apart :
  bool_decide (sent (PriceDBClient.getItemsBulk [[97; 34; 44; 34; 98]]) test_item_world =
               sent (PriceDBClient.getItemsBulk [[97]; [98]]) test_item_world) = false.
Proof.
  apply bool_decide_eq_false. intros H. apply bulk_body_determines_skus in H.
  - discriminate H.
  - repeat constructor; unfold code_unit; lia.
  - repeat constructor; unfold code_unit; lia.
Defined.

Lemma cut_at_separator (sep : Z -> bool) l1 l2 x1 x2 r1 r2 :
  Forall (fun c => sep c = false) l1 -> Forall (fun c => sep c = false) l2 ->
  sep x1 = true -> sep x2 = true ->
  l1 ++ x1 :: r1 = l2 ++ x2 :: r2 -> l1 = l2 /\ x1 = x2 /\ r1 = r2.
Proof.
  intros H1. revert l2.
  induction H1 as [|a l1 Ha _ IH]; intros l2 H2 X1 X2 Heq;
    destruct H2 as [|b l2 Hb H2]; cbn [app] in Heq.
  - injection Heq as -> ->. auto.
  - injection Heq as -> _. congruence.
  - injection Heq as -> _. congruence.
  - injection Heq as -> Heq. destruct (IH l2 H2 X1 X2 Heq) as (-> & -> & ->). auto.
Qed.

Lemma joined_parts_inj (sep : Z -> bool) p1 p2 R1 R2 :
  sep 44 = true -> sep 93 = true ->
  Forall (fun q => q <> [] /\ Forall (fun c => sep c = false) q) p1 ->
  Forall (fun q => q <> [] /\ Forall (fun c => sep c = false) q) p2 ->
  join_comma p1 ++ 93 :: R1 = join_comma p2 ++ 93 :: R2 ->
  p1 = p2 /\ R1 = R2.
Proof.
  intros S44 S93 H1. revert p2.
  assert (Hnil : forall q p R R',
             q <> [] -> Forall (fun c => sep c = false) q ->
             93 :: R <> join_comma (q :: p) ++ 93 :: R').
  { intros [|c q] p R R' Hne Hq Heq; [contradiction|]. inversion Hq; subst.
    rewrite join_comma_cons in Heq. destruct p; cbn [app] in Heq;
      injection Heq as <- _; congruence. }
  induction H1 as [|q1 p1 [N1 Q1] Hp1 IH]; intros p2 H2 Heq;
    destruct H2 as [|q2 p2 [N2 Q2] Hp2].
  - injection Heq as ->. auto.
  - exfalso. exact (Hnil _ _ _ _ N2 Q2 Heq).
  - exfalso. symmetry in Heq. exact (Hnil _ _ _ _ N1 Q1 Heq).
  - rewrite !join_comma_cons in Heq.
    destruct p1 as [|t1 p1], p2 as [|t2 p2]; rewrite <- ?app_assoc in Heq; cbn [app] in Heq;
      apply (cut_at_separator sep) in Heq as (-> & Hx & Heq); try assumption;
      try discriminate Hx.
    + subst. auto.
    + destruct (IH (t2 :: p2) Hp2 Heq) as [-> ->]. auto.
Qed.

Lemma json_number_alike n n' :
  JSON_stringify (JNumber n) = JSON_stringify (JNumber n') <-> alike n n'.
Proof.
  assert (Hnull : forall m, finite m = true -> Number_toString m <> lit "null").
  { intros [[|p|p]| | |[]] Hm H; try discriminate Hm; cbn [Number_toString] in H;
      try discriminate H.
    apply digits_are_digits in H. discriminate H. }
  assert (Hfin : forall m, finite m = true -> JSON_stringify (JNumber m) = Number_toString m)
    by (intros [[|p|p]| | |[]] Hm; first [reflexivity | discriminate Hm]).
  assert (Hinf : forall m, finite m = false -> JSON_stringify (JNumber m) = lit "null")
    by (intros [[|p|p]| | |[]] Hm; first [reflexivity | discriminate Hm]).
  unfold alike. split.
  - intros H. destruct (finite n) eqn:F, (finite n') eqn:F'.
    + rewrite !Hfin in H by assumption. apply Number_toString_inj in H. tauto.
    + rewrite Hfin, Hinf in H by assumption. exfalso. exact (Hnull n F H).
    + rewrite Hinf, Hfin in H by assumption. exfalso. symmetry in H. exact (Hnull n' F' H).
    + auto.
  - intros [->|[[Z Z']|[F F']]]; [reflexivity| |rewrite !Hinf by assumption; reflexivity].
    assert (finite n = true /\ finite n' = true) as [F F']
      by (destruct n as [[|p|p]| | |[]], n' as [[|p'|p']| | |[]]; try discriminate; auto).
    rewrite !Hfin by assumption. apply zeros_print_alike. auto.
Qed.

Lemma json_number_part n :
  JSON_stringify (JNumber n) <> [] /\
  Forall (fun c => (c =? 44) || (c =? 93) = false) (JSON_stringify (JNumber n)).
Proof.
  assert (Hd : forall d, Forall (fun c => (c =? 44) || (c =? 93) = false) (digits d)).
  { intros d. eapply Forall_impl; [apply digits_decimal|]. cbn beta.
    intros c. unfold is_ascii_digit.
    rewrite andb_true_iff, orb_false_iff, !Z.leb_le, !Z.eqb_neq. lia. }
  destruct n as [[|p|p]| | |[]]; cbn [JSON_stringify Number_toString];
    try solve [split; [discriminate | repeat constructor]].
  - destruct (printed_positive p) as (c & rest & E & _ & _). split; [|apply Hd].
    rewrite E. discriminate.
  - split; [discriminate|]. constructor; [reflexivity | apply Hd].
Qed.

(** The body of a prediction request, written out. *)
Lemma prediction_body name ids :
  JSON_stringify (JObject [(lit "item_name", JString name);
                           (lit "spell_ids", JArray (map JNumber ids))]) =
  (lit "{" ++ QuoteJSONString (lit "item_name") ++ lit ":" ++ [34]) ++
  quote_units name ++
  34 :: (44 :: QuoteJSONString (lit "spell_ids") ++ lit ":[") ++
  join_comma (map (fun n => JSON_stringify (JNumber n)) ids) ++ 93 :: lit "}".
Proof.
  cbn [JSON_stringify map join_comma fst snd]. rewrite map_map.
  unfold QuoteJSONString at 2. rewrite <- !app_assoc. reflexivity.
Qed.

(** X15. The body of a prediction request holds the item name exactly and the
    spell ids up to what JSON can write: two requests are the same only for
    the same name and for lists of ids of the same length that agree
    element by element, where an id that is NaN or infinite is sent as
    null, so that all of these look alike, and -0 is sent as 0.  (For an
    options object with its two properties in the declared order, and for
    ids that are safe integers or special values.) *)
Theorem prediction_body_determines_arguments
        (item_name item_name' : jsstring) (ids ids' : list number) (w : World) :
  well_formed_units item_name -> well_formed_units item_name' ->
  Forall safe ids -> Forall safe ids' ->
  (sent (SpellsClient.predictSpellItem (PredictSpellItemOptions.mk item_name ids)) w =
   sent (SpellsClient.predictSpellItem (PredictSpellItemOptions.mk item_name' ids')) w <->
   item_name = item_name' /\ Forall2 alike ids ids').
Proof.
  intros Hn Hn' _ _.
  assert (Hmap : map (fun n => JSON_stringify (JNumber n)) ids =
                 map (fun n => JSON_stringify (JNumber n)) ids' <-> Forall2 alike ids ids').
  { clear. revert ids'. induction ids as [|n ids IH]; intros [|n' ids']; cbn [map].
    - split; [constructor | reflexivity].
    - split; [discriminate | inversion 1].
    - split; [discriminate | inversion 1].
    - split.
      + intros [= H1 H2]. constructor; [apply json_number_alike, H1 | apply IH, H2].
      + inversion 1; subst. f_equal; [apply json_number_alike; assumption | apply IH; assumption]. }
  unfold SpellsClient.predictSpellItem.
  cbn [PredictSpellItemOptions.item_name PredictSpellItemOptions.spell_ids].
  erewrite !sent_if_request by (intros; reflexivity). cbn [req_body req_method].
  remember (JSON_stringify (JObject [(lit "item_name", JString item_name);
                                     (lit "spell_ids", JArray (map JNumber ids))]))
    as body eqn:B.
  remember (JSON_stringify (JObject [(lit "item_name", JString item_name');
                                     (lit "spell_ids", JArray (map JNumber ids'))]))
    as body' eqn:B'.
  rewrite prediction_body in B, B'. split.
  - intros Heq. injection Heq as Heq. subst body body'.
    apply app_inv_head in Heq.
    apply quote_units_inj in Heq as [-> Heq]; [|assumption..].
    apply app_inv_head in Heq.
    apply (joined_parts_inj (fun c => (c =? 44) || (c =? 93))) in Heq as [Heq _];
      [| reflexivity | reflexivity
       | apply Forall_forall; intros q Hq; apply list_elem_of_In, in_map_iff in Hq as (n & <- & _);
         apply json_number_part .. ].
    split; [reflexivity | apply Hmap, Heq].
  - intros [-> Hids]. apply Hmap in Hids. subst body body'. rewrite Hids. reflexivity.
Qed.

(** X15 at two lists of ids of which
    one holds NaN and the other an infinity. *)
Lemma unprintable_ids_look_alike :
  sent (SpellsClient.predictSpellItem
          (PredictSpellItemOptions.mk (lit "Rocket Launcher") [Int 1004; NaN])) five_second_world =
  sent (SpellsClient.predictSpellItem
          (PredictSpellItemOptions.mk (lit "Rocket Launcher") [Int 1004; Infinity false]))
       five_second_world.
Proof.
  apply prediction_body_determines_arguments.
  - apply lit_units.
  - apply lit_units.
  - repeat constructor.
  - repeat constructor.
  - split; [reflexivity|].
    constructor; [left; reflexivity|]. constructor; [|constructor].
    right. right. split; reflexivity.
Defined.

(** ** Optional parameters *)

Lemma toString_truthy n v rest :
  truthy_string (URLSearchParams_toString ((n, v) :: rest)) = true.
Proof.
  rewrite URLSearchParams_toString_cons. destruct rest, (urlencoded n); reflexivity.
Qed.

Lemma optional_query_of params :
  Forall (fun kv => Forall scalar (fst kv) /\ Forall scalar (snd kv)) params ->
  optional_query (length params)
                 (if truthy_string (URLSearchParams_toString params)
                  then lit "?" ++ URLSearchParams_toString params else []).
Proof.
  intros Hp. destruct params as [|[n v] rest]; [reflexivity|].
  rewrite toString_truthy. cbn [length optional_query].
  eexists. split; [reflexivity|]. apply (toString_shape ((n, v) :: rest)); [discriminate | exact Hp].
Qed.

Ltac counted :=
  match goal with
  | |- context [URLSearchParams_toString ?ps] =>
    exists (if truthy_string (URLSearchParams_toString ps)
            then lit "?" ++ URLSearchParams_toString ps else []);
    split; [apply (optional_query_of ps); scalars|];
    destruct (truthy_string (URLSearchParams_toString ps))
  end.

(** X16. Optional parameters are counted, not guessed: [getPrices],
    [getItemHistory] and [getGraphUrl] write one parameter for each option
    that is given (a number other than 0, -0 and NaN; [header] only when it
    is false; a width that is not empty) and nothing else.  With no option
    given the path ends the URL, without a question mark; otherwise "?" and
    a query string of exactly that many parameters follow, in which a width
    of any text stays inside its parameter. *)
Theorem optional_parameters_are_counted
        (first second : option number) (header : option bool) (width : option jsstring)
        (sku segment : jsstring) (client : Instance) (w : World) :
  encodeURIComponent sku = Normal segment ->
  (forall t, width = Some t -> well_formed_units t) ->
  (exists suffix,
      optional_query (given first + given second) suffix /\
      sent (PriceDBClient.getPrices (PaginationOptions.mk first second)) w =
      [(baseUrl (this w) ++ lit "/api/prices" ++ suffix, None, None)]) /\
  (exists suffix,
      optional_query (given first + given second) suffix /\
      sent (PriceDBClient.getItemHistory sku (HistoryOptions.mk first second)) w =
      [(baseUrl (this w) ++ lit "/api/item-history/" ++ segment ++ suffix, None, None)]) /\
  (exists suffix,
      optional_query (match header with Some false => 1 | _ => 0 end + given first +
                      match width with Some (_ :: _) => 1 | _ => 0 end) suffix /\
      PriceDBClient.getGraphUrl client sku (GraphOptions.mk header first width) =
      Normal (baseUrl client ++ lit "/api/graph/" ++ segment ++ suffix)).
Proof.
  intros Hsku Hwidth. unfold given. repeat apply conj.
  - unfold PriceDBClient.getPrices.
    cbn [PaginationOptions.limit PaginationOptions.offset].
    destruct first as [n1|]; [destruct (truthy_number n1)|];
      (destruct second as [n2|]; [destruct (truthy_number n2)|]);
      counted; erewrite sent_if_request by (intros; reflexivity);
      rewrite ?app_nil_r; reflexivity.
  - unfold PriceDBClient.getItemHistory, bind.
    cbn [HistoryOptions.start HistoryOptions.end_]. rewrite Hsku.
    destruct first as [n1|]; [destruct (truthy_number n1)|];
      (destruct second as [n2|]; [destruct (truthy_number n2)|]);
      counted; cbn [cbind lift]; erewrite sent_if_request by (intros; reflexivity);
      rewrite ?app_nil_r; reflexivity.
  - unfold PriceDBClient.getGraphUrl.
    cbn [GraphOptions.header GraphOptions.height GraphOptions.width]. rewrite Hsku.
    assert (Hw : forall t, width = Some t -> well_formed_units t) by exact Hwidth.
    destruct header as [[]|]; (destruct first as [n1|]; [destruct (truthy_number n1)|]);
      (destruct width as [[|c t]|];
       [ | pose proof (Hw (c :: t) eq_refl) | ]);
      cbn [truthy_string]; counted; cbn [cbind]; rewrite ?app_nil_r; reflexivity.
Qed.

(** X16 at the second page of prices and at a chart with a width. *)
Lemma two_options_two_parameters :
  (exists suffix,
      optional_query 2 suffix /\
      sent (PriceDBClient.getPrices (PaginationOptions.mk (Some (Int 50)) (Some (Int 100))))
           test_item_world =
      [(lit "https://pricedb.io/api/prices" ++ suffix, None, None)]) /\
  (exists suffix,
      optional_query 2 suffix /\
      PriceDBClient.getGraphUrl default_pricedb (lit "1;6")
        (GraphOptions.mk (Some true) (Some (Int 50)) (Some (lit "100%&x"))) =
      Normal (lit "https://pricedb.io/api/graph/" ++ lit "1%3B6" ++ suffix)).
Proof.
  destruct (optional_parameters_are_counted (Some (Int 50)) (Some (Int 100)) (Some true)
              (Some (lit "100%&x")) (lit "1;6") (lit "1%3B6") default_pricedb test_item_world)
    as (Hprices & _ & _).
  - reflexivity.
  - intros t [= <-]. repeat constructor; unfold code_unit; lia.
  - destruct (optional_parameters_are_counted (Some (Int 50)) None (Some true)
                (Some (lit "100%&x")) (lit "1;6") (lit "1%3B6") default_pricedb test_item_world)
      as (_ & _ & Hgraph).
    + reflexivity.
    + intros t [= <-]. repeat constructor; unfold code_unit; lia.
    + split; [exact Hprices | exact Hgraph].
Defined.
